(** * md-table-buddy: table utilities (src/tableUtils.ts)

    Shallow embedding of the table engine of md-table-buddy.

    Modelling conventions.
    - A JavaScript string is a list of code units; the model uses [list ascii]
      and reads each [ascii] as an ASCII code unit.  [String.prototype.trim]
      and the regular-expression class [\s] remove the ASCII white space
      characters (TAB, LF, VT, FF, CR, SPACE); [toLowerCase] maps A-Z to a-z.
    - Numbers used as indices and widths are [Z] (JS numbers that the code
      compares with negative values or subtracts from); lengths are
      [Z.of_nat (length _)].
    - [Array.prototype.join], [split] on a one-character separator and
      [slice(1, -1)] are [join], [split_on] and [slice_inner] below. *)

From Stdlib Require Import String Ascii.
From Stdlib Require Import Bool List ZArith Lia QArith.
From Stdlib Require Import Sorting.Sorted.
Import ListNotations.

Open Scope list_scope.

Definition str : Type := list ascii.

(** String literals of the development. *)
Definition lit (x : string) : str := list_ascii_of_string x.

(* ------------------------------------------------------------------ *)
(** ** Characters and string helpers *)

Definition PIPE : ascii := "|"%char.
Definition COLON : ascii := ":"%char.
Definition DASH : ascii := "-"%char.
Definition SPACE : ascii := " "%char.

Definition is_ws (c : ascii) : bool :=
  let n := nat_of_ascii c in
  ((9 <=? n) && (n <=? 13))%nat || (n =? 32)%nat.

Definition is_nil {A} (l : list A) : bool :=
  match l with [] => true | _ => false end.

(** Leading white space removed. *)
Fixpoint lstrip (x : str) : str :=
  match x with
  | [] => []
  | c :: r => if is_ws c then lstrip r else x
  end.

(** Trailing white space removed. *)
Fixpoint rstrip (x : str) : str :=
  match x with
  | [] => []
  | c :: r =>
      let r' := rstrip r in
      if is_ws c && is_nil r' then [] else c :: r'
  end.

(** [String.prototype.trim]. *)
Definition trim (x : str) : str := rstrip (lstrip x).

Fixpoint prefixb (p x : str) : bool :=
  match p, x with
  | [], _ => true
  | a :: p', b :: x' => Ascii.eqb a b && prefixb p' x'
  | _ :: _, [] => false
  end.

(** [x.startsWith(p)] and [x.endsWith(p)]. *)
Definition startsWith (x p : str) : bool := prefixb p x.
Definition endsWith (x p : str) : bool := prefixb (rev p) (rev x).

(** [x.split(d)] for a one-character separator [d]. *)
Fixpoint split_on (d : ascii) (x : str) : list str :=
  match x with
  | [] => [[]]
  | c :: r =>
      let parts := split_on d r in
      if Ascii.eqb c d then [] :: parts
      else match parts with
           | p :: ps => (c :: p) :: ps
           | [] => [[c]]
           end
  end.

(** [xs.join(sep)]. *)
Fixpoint join (sep : str) (xs : list str) : str :=
  match xs with
  | [] => []
  | [x] => x
  | x :: r => x ++ sep ++ join sep r
  end.

(** [x.slice(1, -1)]. *)
Definition slice_inner (x : str) : str := removelast (tl x).

(** [' '.repeat(n)] and ['-'.repeat(n)] for a JS number [n >= 0]. *)
Definition repeat_ch (c : ascii) (n : Z) : str := repeat c (Z.to_nat n).

Definition zlen (x : str) : Z := Z.of_nat (length x).

(* ------------------------------------------------------------------ *)
(** ** Data model *)

Inductive ColumnAlignment := ALeft | ACenter | ARight | ANone.

Record MarkdownTable := mkTable {
  startLine : Z;
  endLine : Z;
  rows : list (list str);
  separatorIndex : Z;
  alignments : list ColumnAlignment
}.

(* ------------------------------------------------------------------ *)
(** ** Basic table parsing *)

Definition isTableRow (line : str) : bool :=
  let t := trim line in startsWith t [PIPE] && endsWith t [PIPE].

(** The regular expression [/^\s*:?-+:?\s*$/], as the deterministic
    automaton it denotes (the classes [\s], [:] and [-] are disjoint, so
    every star and option is matched greedily). *)
Definition re_tail (x : str) : bool := forallb is_ws x.

Definition re_after_dashes (x : str) : bool :=
  match x with
  | c :: r => if Ascii.eqb c COLON then re_tail r else re_tail x
  | [] => true
  end.

Fixpoint re_dashes (x : str) (seen : bool) : bool :=
  match x with
  | c :: r => if Ascii.eqb c DASH then re_dashes r true
              else seen && re_after_dashes x
  | [] => seen
  end.

Definition re_colon (x : str) : bool :=
  match x with
  | c :: r => if Ascii.eqb c COLON then re_dashes r false else re_dashes x false
  | [] => false
  end.

Fixpoint sep_cell_re (x : str) : bool :=
  match x with
  | c :: r => if is_ws c then sep_cell_re r else re_colon x
  | [] => false
  end.

Definition isTableSeparator (line : str) : bool :=
  let t := trim line in
  if negb (startsWith t [PIPE]) || negb (endsWith t [PIPE]) then false
  else forallb sep_cell_re (split_on PIPE (slice_inner t)).

Definition parseTableRow (line : str) : list str :=
  map trim (split_on PIPE (slice_inner (trim line))).

Definition getAlignmentFromSeparator (cell : str) : ColumnAlignment :=
  let t := trim cell in
  let l := startsWith t [COLON] in
  let r := endsWith t [COLON] in
  if l && r then ACenter else if r then ARight else if l then ALeft else ANone.

Definition parseAlignments (row : list str) : list ColumnAlignment :=
  map getAlignmentFromSeparator row.

(** [findCodeBlockRanges]: the loop over the lines with its three state
    variables [inCodeBlock], [codeBlockStart] and [codeBlockDelimiter]. *)
Definition not_fence (c : ascii) : bool :=
  negb (Ascii.eqb c "`"%char) && negb (Ascii.eqb c "~"%char).

Fixpoint code_block_scan (i : nat) (ls : list str) (inb : bool) (start : Z)
    (delim : str) : list (Z * Z) :=
  match ls with
  | [] => if inb && negb (start =? -1)%Z then [(start, Z.of_nat i - 1)%Z] else []
  | l :: r =>
      let t := trim l in
      if negb inb then
        if startsWith t (lit "```") || startsWith t (lit "~~~")
        then code_block_scan (S i) r true (Z.of_nat i) (firstn 3 t)
        else code_block_scan (S i) r inb start delim
      else if startsWith t delim && is_nil (trim (filter not_fence t))
      then (start, Z.of_nat i) :: code_block_scan (S i) r false (-1)%Z []
      else code_block_scan (S i) r inb start delim
  end.

Definition findCodeBlockRanges (lines : list str) : list (Z * Z) :=
  code_block_scan 0 lines false (-1)%Z [].

Definition isLineInCodeBlock (n : Z) (ranges : list (Z * Z)) : bool :=
  existsb (fun r => (fst r <=? n)%Z && (n <=? snd r)%Z) ranges.

Section Locator.

Variable ignoreCodeBlocks : bool.
Variable codeBlockRanges : list (Z * Z).

Definition in_block (i : nat) : bool :=
  ignoreCodeBlocks && isLineInCodeBlock (Z.of_nat i) codeBlockRanges.

(** The inner [while] loop of [findTables]: it consumes the run of table
    rows starting at line [i] ([rest] is [lines] from [i] on) and returns
    the collected rows, [separatorIndex], [alignments], the new [i] and the
    lines left. *)
Fixpoint collect_run (i : nat) (rest : list str) (rws : list (list str))
    (sep : Z) (al : list ColumnAlignment)
    : list (list str) * Z * list ColumnAlignment * nat * list str :=
  match rest with
  | [] => (rws, sep, al, i, [])
  | l :: rest' =>
      if isTableRow l && negb (in_block i) then
        let cells := parseTableRow l in
        let rws' := rws ++ [cells] in
        if (sep =? -1)%Z && isTableSeparator l
        then collect_run (S i) rest' rws' (Z.of_nat (length rws') - 1)%Z
                         (parseAlignments cells)
        else collect_run (S i) rest' rws' sep al
      else (rws, sep, al, i, rest)
  end.

(** The outer [while] loop; [fuel] bounds the number of iterations, each of
    which consumes at least one line, so the number of lines is enough. *)
Fixpoint scan_tables (fuel : nat) (i : nat) (rest : list str)
    : list MarkdownTable :=
  match fuel with
  | O => []
  | S f =>
      match rest with
      | [] => []
      | l :: rest' =>
          if in_block i then scan_tables f (S i) rest'
          else if isTableRow l then
            match collect_run i rest [] (-1)%Z [] with
            | (rws, sep, al, j, rest'') =>
                (if (2 <=? length rws)%nat && (sep =? 1)%Z
                 then [mkTable (Z.of_nat i) (Z.of_nat j - 1) rws sep al]
                 else []) ++ scan_tables f j rest''
            end
          else scan_tables f (S i) rest'
      end
  end.

End Locator.

Definition findTables (lines : list str) (ignoreCodeBlocks : bool)
    : list MarkdownTable :=
  let ranges := if ignoreCodeBlocks then findCodeBlockRanges lines else [] in
  scan_tables ignoreCodeBlocks ranges (length lines) 0 lines.

(* ------------------------------------------------------------------ *)
(** ** Options *)

(** [CompactOptions]. *)
Record CompactOptions := mkCompactOptions {
  co_cellPadding : bool;
  co_separatorPadding : bool;
  co_alignSeparatorWithHeader : bool;
  co_keepSeparatorRatios : bool
}.

(** [FormatOptions]. *)
Record FormatOptions := mkFormatOptions {
  fo_maxWidth : Z;
  fo_cellPadding : bool;
  fo_separatorPadding : bool;
  fo_preserveAlignment : bool;
  fo_keepSeparatorRatios : bool
}.

Definition getDefaultCompactOptions : CompactOptions :=
  mkCompactOptions true true true false.

Definition getDefaultFormatOptions : FormatOptions :=
  mkFormatOptions 0 true true true false.

(* ------------------------------------------------------------------ *)
(** ** JavaScript idioms *)

(** [xs[i]] on an array: [None] is [undefined] (also for a negative [i]). *)
Definition js_at {A} (xs : list A) (i : Z) : option A :=
  if (i <? 0)%Z then None else nth_error xs (Z.to_nat i).

(** [n || d] for a number [n] read from an array: [d] when [n] is
    [undefined] or [0]. *)
Definition num_or (n : option Z) (d : Z) : Z :=
  match n with
  | Some w => if (w =? 0)%Z then d else w
  | None => d
  end.

(** [a || d] for a string or an alignment read from an array. *)
Definition val_or {A} (v : option A) (d : A) : A :=
  match v with Some x => x | None => d end.

(** [xs.map((x, i) => f(i, x))]. *)
Fixpoint mapi_from {A B} (f : Z -> A -> B) (i : Z) (xs : list A) : list B :=
  match xs with
  | [] => []
  | x :: r => f i x :: mapi_from f (i + 1)%Z r
  end.

Definition mapi {A B} (f : Z -> A -> B) (xs : list A) : list B := mapi_from f 0%Z xs.

(** ['|' + cells.join('|') + '|']. *)
Definition frame (cells : list str) : str := [PIPE] ++ join [PIPE] cells ++ [PIPE].

(** [' ' + x + ' '] when [b]. *)
Definition pad_if (b : bool) (x : str) : str := if b then [SPACE] ++ x ++ [SPACE] else x.

(* ------------------------------------------------------------------ *)
(** ** Width and padding engine *)

Definition padCell (content : str) (width : Z) (alignment : ColumnAlignment) : str :=
  let contentLength := zlen content in
  if (width <=? contentLength)%Z then content
  else
    let padding := (width - contentLength)%Z in
    match alignment with
    | ARight => repeat_ch SPACE padding ++ content
    | ACenter =>
        let leftPad := (padding / 2)%Z in
        let rightPad := (padding - leftPad)%Z in
        repeat_ch SPACE leftPad ++ content ++ repeat_ch SPACE rightPad
    | ALeft | ANone => content ++ repeat_ch SPACE padding
    end.

(** [createSeparatorCell].  Both option shapes it accepts carry
    [cellPadding] and [separatorPadding], so its ['cellPadding' in options]
    probes always succeed; the model takes the two flags. *)
Definition createSeparatorCell (cell : str) (width : Z)
    (cellPadding separatorPadding : bool) (alignment : option ColumnAlignment) : str :=
  let trimmed := trim cell in
  let leftAlign :=
    match alignment with Some ALeft | Some ACenter => true | _ => false end
    || startsWith trimmed [COLON] in
  let rightAlign :=
    match alignment with Some ARight | Some ACenter => true | _ => false end
    || endsWith trimmed [COLON] in
  let d0 := Z.max 3 width in
  let d1 := if leftAlign then (d0 - 1)%Z else d0 in
  let d2 := if rightAlign then (d1 - 1)%Z else d1 in
  let dashCount := Z.max 1 d2 in
  let dashes := repeat_ch DASH dashCount in
  let separator :=
    if leftAlign && rightAlign then [COLON] ++ dashes ++ [COLON]
    else if leftAlign then [COLON] ++ dashes
    else if rightAlign then dashes ++ [COLON]
    else repeat_ch DASH (Z.max 3 width) in
  if cellPadding && separatorPadding then [SPACE] ++ separator ++ [SPACE]
  else separator.

Definition sumZ (xs : list Z) : Z := fold_left Z.add xs 0%Z.

(** [Math.round(x)] for the rational [x = num / den], [den > 0].  The source
    computes [len / originalTotal * targetTotalWidth] in floating point; the
    model computes it exactly. *)
Definition round_div (num den : Z) : Z := ((2 * num + den) / (2 * den))%Z.

Definition calculateProportionalSeparatorWidths (originalSeparators : list str)
    (targetTotalWidth : Z) : list Z :=
  let originalLengths := map (fun c => zlen (trim c)) originalSeparators in
  let originalTotal := sumZ originalLengths in
  if (originalTotal =? 0)%Z then
    let perColumn :=
      Z.max 3 (targetTotalWidth / Z.of_nat (length originalSeparators)) in
    map (fun _ => perColumn) originalSeparators
  else
    map (fun len => Z.max 3 (round_div (len * targetTotalWidth) originalTotal))
        originalLengths.

Definition formatCompactSeparatorCell (cell : str) (alignment : ColumnAlignment)
    (co : CompactOptions) (headerWidth : Z) : str :=
  let separator :=
    if co_alignSeparatorWithHeader co then repeat_ch DASH (Z.max 3 headerWidth)
    else lit "---" in
  let separator :=
    match alignment with
    | ALeft => [COLON] ++ tl separator
    | ARight => removelast separator ++ [COLON]
    | ACenter => [COLON] ++ removelast (tl separator) ++ [COLON]
    | ANone => separator
    end in
  if co_separatorPadding co && co_cellPadding co then [SPACE] ++ separator ++ [SPACE]
  else separator.

(* ------------------------------------------------------------------ *)
(** ** formatTable *)

Section FormatTable.

Variable table : MarkdownTable.
Variable options : FormatOptions.
Variable compactOptions : CompactOptions.

(** [Math.max(...rows.map(row => row.length))].  For a table without rows
    the source throws ([new Array(-Infinity)]); every located table has rows. *)
Definition columnCount : nat := fold_left Nat.max (map (@length str) (rows table)) 0%nat.

(** One pass of the width loop over a row: [columnWidths[c] =
    Math.max(columnWidths[c], row[c].length)] for every cell of the row
    (the array has [columnCount] entries, at least the row's length). *)
Fixpoint bump_widths (ws : list Z) (row : list str) : list Z :=
  match ws, row with
  | w :: ws', c :: row' => Z.max w (zlen c) :: bump_widths ws' row'
  | ws, [] => ws
  | [], _ :: _ => []
  end.

Definition columnWidths : list Z :=
  fold_left (fun ws '(k, row) =>
               if (k =? separatorIndex table)%Z then ws else bump_widths ws row)
            (combine (map Z.of_nat (seq 0 (length (rows table)))) (rows table))
            (repeat 3%Z columnCount).

Definition fmt_alignments : list ColumnAlignment :=
  if fo_preserveAlignment options then alignments table else [].

Definition paddingPerCell : Z := if fo_cellPadding options then 2%Z else 0%Z.

(** The search loop for the break column: [Some (colIndex, accumulated)] at
    the first column that overflows [maxWidth]. *)
Fixpoint find_break (ws : list Z) (colIndex accumulated : Z) : option (Z * Z) :=
  match ws with
  | [] => None
  | w :: ws' =>
      let colWidth := num_or (Some w) 3 in
      let cellWidth := (colWidth + paddingPerCell + 1)%Z in
      if (fo_maxWidth options <? accumulated + cellWidth)%Z
      then Some (colIndex, accumulated)
      else find_break ws' (colIndex + 1)%Z (accumulated + cellWidth)%Z
  end.

(** [(breakColumnIndex, accumulatedBeforeBreak)]. *)
Definition breakColumn : Z * Z :=
  if (0 <? fo_maxWidth options)%Z then
    match find_break columnWidths 0 1 with
    | Some p => p
    | None => (Z.of_nat columnCount, 1%Z)
    end
  else (Z.of_nat columnCount, 1%Z).

Definition breakColumnIndex : Z := fst breakColumn.

Definition breakColumnFittingWidth : Z :=
  if (breakColumnIndex <? Z.of_nat columnCount)%Z && (0 <? fo_maxWidth options)%Z then
    let availableWidth :=
      (fo_maxWidth options - snd breakColumn - paddingPerCell - 1)%Z in
    fold_left (fun acc '(k, row) =>
                 if (k =? separatorIndex table)%Z then acc
                 else
                   let cell := val_or (js_at row breakColumnIndex) [] in
                   if (zlen cell <=? availableWidth)%Z then Z.max acc (zlen cell)
                   else acc)
              (combine (map Z.of_nat (seq 0 (length (rows table)))) (rows table))
              3%Z
  else 3%Z.

(** [table.rows[table.separatorIndex]]: the source reads it only for a
    non-negative index; an index past the rows (no located table has one)
    makes the source throw, and the model reads an empty row. *)
Definition proportionalSeparatorWidths : option (list Z) :=
  if fo_keepSeparatorRatios options && (0 <=? separatorIndex table)%Z then
    let separatorRow := val_or (js_at (rows table) (separatorIndex table)) [] in
    Some (calculateProportionalSeparatorWidths separatorRow (sumZ columnWidths))
  else None.

Definition separator_cells (row : list str) : list str :=
  match proportionalSeparatorWidths with
  | Some pw =>
      mapi (fun colIndex cell =>
              let width := num_or (js_at pw colIndex) 3 in
              let alignment := val_or (js_at fmt_alignments colIndex) ANone in
              createSeparatorCell cell width (fo_cellPadding options)
                (fo_separatorPadding options) (Some alignment)) row
  | None =>
      let headerRow := val_or (js_at (rows table) 0) [] in
      mapi (fun colIndex cell =>
              let colWidth := num_or (js_at columnWidths colIndex) 3 in
              let headerCell := val_or (js_at headerRow colIndex) [] in
              let alignment := val_or (js_at fmt_alignments colIndex) ANone in
              if (colIndex <? breakColumnIndex)%Z then
                createSeparatorCell cell colWidth (fo_cellPadding options)
                  (fo_separatorPadding options) (Some alignment)
              else if (colIndex =? breakColumnIndex)%Z then
                if (zlen headerCell <=? breakColumnFittingWidth)%Z then
                  createSeparatorCell cell breakColumnFittingWidth (fo_cellPadding options)
                    (fo_separatorPadding options) (Some alignment)
                else
                  formatCompactSeparatorCell cell alignment compactOptions
                    (num_or (Some (zlen headerCell)) 3)
              else
                formatCompactSeparatorCell cell alignment compactOptions
                  (num_or (Some (zlen headerCell)) 3)) row
  end.

(** One cell of a row under [maxWidth]: the per-cell body of
    [formatRowWithMaxWidth], which the header branch of [formatTable]
    repeats word for word. *)
Definition max_width_cell (colIndex : Z) (cell : str) : str :=
  let colWidth := num_or (js_at columnWidths colIndex) (zlen cell) in
  let alignment := val_or (js_at fmt_alignments colIndex) ALeft in
  if (colIndex <? breakColumnIndex)%Z then
    pad_if (fo_cellPadding options) (padCell cell colWidth alignment)
  else if (colIndex =? breakColumnIndex)%Z then
    if (zlen cell <=? breakColumnFittingWidth)%Z then
      pad_if (fo_cellPadding options) (padCell cell breakColumnFittingWidth alignment)
    else pad_if (co_cellPadding compactOptions) cell
  else pad_if (co_cellPadding compactOptions) cell.

Definition formatRowWithMaxWidth (row : list str) : str :=
  frame (mapi max_width_cell row).

(** A cell padded to its full column width (rows without [maxWidth]). *)
Definition full_width_cell (colIndex : Z) (cell : str) : str :=
  let width := num_or (js_at columnWidths colIndex) (zlen cell) in
  let alignment := val_or (js_at fmt_alignments colIndex) ALeft in
  pad_if (fo_cellPadding options) (padCell cell width alignment).

(** The rendered cells of row [rowIndex], by the branches of [formatTable]. *)
Definition format_row_cells (rowIndex : Z) (row : list str) : list str :=
  if (rowIndex =? separatorIndex table)%Z then separator_cells row
  else if (rowIndex =? 0)%Z && (0 <? fo_maxWidth options)%Z then mapi max_width_cell row
  else if (rowIndex =? 0)%Z then mapi full_width_cell row
  else if (0 <? fo_maxWidth options)%Z then mapi max_width_cell row
  else mapi full_width_cell row.

Definition formatTable : list str :=
  mapi (fun rowIndex row => frame (format_row_cells rowIndex row)) (rows table).

End FormatTable.

(* ------------------------------------------------------------------ *)
(** ** compactTable *)

(** [compactTableRow].  [headerWidths] and [alignments] are the optional
    arguments ([None] when not passed). *)
Definition compactTableRow (cells : list str) (isSeparator : bool)
    (options : CompactOptions) (headerWidths : option (list Z))
    (alignments : option (list ColumnAlignment)) : str :=
  if isSeparator then
    frame (mapi (fun index cell =>
                   let width :=
                     match co_alignSeparatorWithHeader options, headerWidths with
                     | true, Some hw => num_or (js_at hw index) 3
                     | _, _ => 3%Z
                     end in
                   let alignment :=
                     match alignments with Some al => js_at al index | None => None end in
                   createSeparatorCell cell width (co_cellPadding options)
                     (co_separatorPadding options) alignment) cells)
  else if co_cellPadding options then frame (map (fun cell => [SPACE] ++ cell ++ [SPACE]) cells)
  else frame cells.

(** [compactTable].  [table.rows[0]] and [table.rows[table.separatorIndex]]
    are read as an empty row when absent (the source throws on a table
    without rows; a located table has at least two). *)
Definition compactTable (table : MarkdownTable) (options : CompactOptions) : list str :=
  let headerRow := val_or (js_at (rows table) 0) [] in
  let headerWidths := map zlen headerRow in
  let separatorWidths :=
    if co_keepSeparatorRatios options && (0 <=? separatorIndex table)%Z then
      let separatorRow := val_or (js_at (rows table) (separatorIndex table)) [] in
      let totalContentWidth :=
        fold_left (fun acc w =>
                     (acc + if co_alignSeparatorWithHeader options then Z.max 3 w else 3)%Z)
                  headerWidths 0%Z in
      Some (calculateProportionalSeparatorWidths separatorRow totalContentWidth)
    else None in
  mapi (fun index row =>
          let isSeparator := (index =? separatorIndex table)%Z in
          match isSeparator, separatorWidths with
          | true, Some sw =>
              frame (mapi (fun colIndex cell =>
                             let width := num_or (js_at sw colIndex) 3 in
                             let alignment := js_at (alignments table) colIndex in
                             createSeparatorCell cell width (co_cellPadding options)
                               (co_separatorPadding options) alignment) row)
          | _, _ =>
              compactTableRow row isSeparator options (Some headerWidths)
                (Some (alignments table))
          end) (rows table).

(* ------------------------------------------------------------------ *)
(** ** CSV conversion *)

Definition QUOTE : ascii := ascii_of_nat 34.
Definition NL : ascii := ascii_of_nat 10.
Definition CR : ascii := ascii_of_nat 13.
Definition TAB : ascii := ascii_of_nat 9.
Definition COMMA : ascii := ","%char.
Definition SEMICOLON : ascii := ";"%char.

Fixpoint str_eqb (x y : str) : bool :=
  match x, y with
  | [], [] => true
  | a :: x', b :: y' => Ascii.eqb a b && str_eqb x' y'
  | _, _ => false
  end.

(** [x.includes(p)]. *)
Fixpoint includes (x p : str) : bool :=
  prefixb p x || match x with [] => false | _ :: r => includes r p end.

Inductive QuoteStrings := QAlways | QAuto | QNever.

(** [CsvOptions]; [delimiter] is a string, ['auto'] asking for detection. *)
Record CsvOptions := mkCsvOptions {
  csv_delimiter : str;
  csv_hasHeader : bool;
  csv_trimCells : bool;
  csv_quoteStrings : QuoteStrings;
  csv_includeHeader : bool
}.

Definition getDefaultCsvOptions : CsvOptions :=
  mkCsvOptions [COMMA] true true QAuto true.

(** [(text.match(/c/g) || []).length]. *)
Definition count_char (c : ascii) (x : str) : nat := length (filter (Ascii.eqb c) x).

(** [text.split(/\r?\n/)]: split at every line feed, a carriage return
    just before a line feed belonging to the separator. *)
Definition drop_cr (x : str) : str :=
  match rev x with
  | c :: r => if Ascii.eqb c CR then rev r else x
  | [] => x
  end.

Fixpoint drop_cr_but_last (ps : list str) : list str :=
  match ps with
  | [] => []
  | [p] => [p]
  | p :: ps' => drop_cr p :: drop_cr_but_last ps'
  end.

Definition split_lines (text : str) : list str := drop_cr_but_last (split_on NL text).

(** [parseCsvLine]: the loop over the characters with [current] and
    [inQuotes]; a quote inside quotes followed by a quote is an escaped
    quote, any other quote toggles [inQuotes]. *)
Fixpoint csv_cells (xs : str) (delimiter : str) (current : str) (inQuotes : bool)
    : list str :=
  match xs with
  | [] => [current]
  | c :: r =>
      if Ascii.eqb c QUOTE then
        match r with
        | c' :: r' =>
            if inQuotes && Ascii.eqb c' QUOTE
            then csv_cells r' delimiter (current ++ [QUOTE]) inQuotes
            else csv_cells r delimiter current (negb inQuotes)
        | [] => csv_cells r delimiter current (negb inQuotes)
        end
      else if str_eqb [c] delimiter && negb inQuotes
      then current :: csv_cells r delimiter [] inQuotes
      else csv_cells r delimiter (current ++ [c]) inQuotes
  end.

Definition parseCsvLine (line delimiter : str) : list str :=
  csv_cells line delimiter [] false.

Definition parseCsv (text : str) (options : CsvOptions) : MarkdownTable :=
  let delimiter :=
    if str_eqb (csv_delimiter options) (lit "auto") then
      let commaCount := count_char COMMA text in
      let semicolonCount := count_char SEMICOLON text in
      let tabCount := count_char TAB text in
      if (commaCount <? tabCount)%nat && (semicolonCount <? tabCount)%nat then [TAB]
      else if (commaCount <? semicolonCount)%nat then [SEMICOLON]
      else [COMMA]
    else csv_delimiter options in
  let lines := filter (fun line => negb (is_nil (trim line))) (split_lines text) in
  let rows0 :=
    map (fun line =>
           let cells := parseCsvLine line delimiter in
           if csv_trimCells options then map trim cells else cells) lines in
  let rows :=
    match rows0 with
    | header :: rest =>
        if csv_hasHeader options
        then header :: repeat (lit "---") (length header) :: rest
        else rows0
    | [] => []
    end in
  let alignments :=
    repeat ANone (match rows with r0 :: _ => length r0 | [] => 0%nat end) in
  mkTable 0 (Z.of_nat (length rows) - 1) rows
          (if csv_hasHeader options then 1 else -1)%Z alignments.

(** [xs.filter((_, i) => p(i))]. *)
Fixpoint filteri_from {A} (p : Z -> bool) (i : Z) (xs : list A) : list A :=
  match xs with
  | [] => []
  | x :: r => if p i then x :: filteri_from p (i + 1)%Z r else filteri_from p (i + 1)%Z r
  end.

Definition escape_quotes (x : str) : str :=
  flat_map (fun c => if Ascii.eqb c QUOTE then [QUOTE; QUOTE] else [c]) x.

Definition csv_cell (options : CsvOptions) (cell : str) : str :=
  let needsQuotes :=
    match csv_quoteStrings options with
    | QAlways => true
    | QAuto => includes cell (csv_delimiter options) || includes cell [NL]
               || includes cell [QUOTE]
    | QNever => false
    end in
  if needsQuotes then [QUOTE] ++ escape_quotes cell ++ [QUOTE] else cell.

Definition tableToCsv (table : MarkdownTable) (options : CsvOptions) : str :=
  let rowsToInclude :=
    if csv_includeHeader options
    then filteri_from (fun i => negb (i =? separatorIndex table)%Z) 0 (rows table)
    else filteri_from (fun i => negb (i =? 0)%Z && negb (i =? separatorIndex table)%Z)
                      0 (rows table) in
  join [NL] (map (fun row => join (csv_delimiter options) (map (csv_cell options) row))
                 rowsToInclude).

(* ------------------------------------------------------------------ *)
(** ** Row numbers *)

(** [String.prototype.toLowerCase] on ASCII. *)
Definition lower_char (c : ascii) : ascii :=
  let n := nat_of_ascii c in
  if ((65 <=? n) && (n <=? 90))%nat then ascii_of_nat (n + 32) else c.

Definition toLowerCase (x : str) : str := map lower_char x.

Definition is_digit (c : ascii) : bool :=
  let n := nat_of_ascii c in ((48 <=? n) && (n <=? 57))%nat.

(** [/^\d+$/.test(cell)]; an [undefined] cell is tested as the string
    ['undefined'] and fails. *)
Definition all_digits (cell : option str) : bool :=
  match cell with
  | Some x => negb (is_nil x) && forallb is_digit x
  | None => false
  end.

(** [String(n)] for an integer [n].  JavaScript writes the plain decimal
    digits only for [|n| < 10^21] (larger numbers get exponent notation), and
    the digits are exact for safe integers [|n| <= 2^53 - 1]; the row numbers
    and cells the proofs use stay in that range. *)
Definition digit_char (d : Z) : ascii := ascii_of_nat (48 + Z.to_nat d).

Fixpoint pos_digits (fuel : nat) (n : Z) (acc : str) : str :=
  match fuel with
  | O => acc
  | S f =>
      let acc' := digit_char (n mod 10) :: acc in
      if (n <? 10)%Z then acc' else pos_digits f (n / 10) acc'
  end.

Definition string_of_Z (n : Z) : str :=
  match n with
  | Z0 => [digit_char 0]
  | Zpos p => pos_digits (Pos.size_nat p) n []
  | Zneg p => DASH :: pos_digits (Pos.size_nat p) (Zpos p) []
  end.

Record RowNumberOptions := mkRowNumberOptions {
  rn_startNumber : Z;
  rn_headerText : str;
  rn_alignment : ColumnAlignment
}.

Definition getDefaultRowNumberOptions : RowNumberOptions :=
  mkRowNumberOptions 1 (lit "#") ARight.

(** [hasRowNumbers]; [table.rows[0]] is read as an empty row when absent
    (the source throws there). *)
Definition hasRowNumbers (table : MarkdownTable) (headerText : str) : bool :=
  let knownHeaders :=
    [lit "#"; lit "no"; lit "no."; lit "nr"; lit "nr."; lit "num"; lit "row";
     toLowerCase headerText] in
  let firstHeader :=
    option_map (fun h => trim (toLowerCase h))
               (js_at (val_or (js_at (rows table) 0) []) 0) in
  match firstHeader with
  | Some h =>
      if existsb (str_eqb h) knownHeaders
      then forallb (fun row => all_digits (option_map trim (js_at row 0)))
                   (skipn 2 (rows table))
      else false
  | None => false
  end.

(** [row[0] = v] on a copy of [row]. *)
Definition set_first (row : list str) (v : str) : list str :=
  match row with [] => [v] | _ :: r => v :: r end.

Definition alignment_marker (a : ColumnAlignment) : str :=
  match a with
  | ARight => lit "---:"
  | ACenter => lit ":---:"
  | _ => lit ":---"
  end.

(** The loop of [addRowNumbers] from row [i] on, [dataRowIndex] being the
    next number. *)
Fixpoint number_rows (hasNumbers : bool) (options : RowNumberOptions) (sep : Z)
    (i dataRowIndex : Z) (rs : list (list str)) : list (list str) :=
  match rs with
  | [] => []
  | row :: rest =>
      let put v := if hasNumbers then set_first row v else v :: row in
      if (i =? 0)%Z then
        put (rn_headerText options)
          :: number_rows hasNumbers options sep (i + 1) dataRowIndex rest
      else if (i =? sep)%Z then
        put (alignment_marker (rn_alignment options))
          :: number_rows hasNumbers options sep (i + 1) dataRowIndex rest
      else
        put (string_of_Z dataRowIndex)
          :: number_rows hasNumbers options sep (i + 1) (dataRowIndex + 1) rest
  end.

Definition addRowNumbers (table : MarkdownTable) (options : RowNumberOptions)
    : MarkdownTable :=
  let hasNumbers := hasRowNumbers table (rn_headerText options) in
  let newRows :=
    number_rows hasNumbers options (separatorIndex table) 0 (rn_startNumber options)
                (rows table) in
  let newAlignments :=
    if hasNumbers then rn_alignment options :: skipn 1 (alignments table)
    else rn_alignment options :: alignments table in
  mkTable (startLine table) (endLine table) newRows (separatorIndex table) newAlignments.

(* ------------------------------------------------------------------ *)
(** ** Sorting *)

Inductive SortDirection := Ascending | Descending.
Inductive SortType := SortText | SortNumeric | SortDate.

Record SortOptions := mkSortOptions {
  so_columnIndex : Z;
  so_direction : SortDirection;
  so_sortType : SortType;
  so_caseSensitive : bool;
  so_keepHeaderRow : bool
}.

Definition getDefaultSortOptions : SortOptions :=
  mkSortOptions 0 Ascending SortText false true.

(** [{ ...options, keepHeaderRow: b }]. *)
Definition with_keepHeaderRow (options : SortOptions) (b : bool) : SortOptions :=
  mkSortOptions (so_columnIndex options) (so_direction options) (so_sortType options)
                (so_caseSensitive options) b.

Definition DOT : ascii := "."%char.

(** The characters [replace(/[^0-9.-]/g, '')] keeps. *)
Definition is_num_char (c : ascii) : bool :=
  is_digit c || Ascii.eqb c DOT || Ascii.eqb c DASH.

Fixpoint span_digits (xs : str) : str * str :=
  match xs with
  | c :: r =>
      if is_digit c then let '(d, rest) := span_digits r in (c :: d, rest)
      else ([], xs)
  | [] => ([], [])
  end.

Definition digits_value (ds : str) : Z :=
  fold_left (fun acc c => acc * 10 + (Z.of_nat (nat_of_ascii c) - 48))%Z ds 0%Z.

(** [parseFloat] on a string whose characters are digits, ['.'] and ['-']
    (white space, ['+'], exponents and ['Infinity'] cannot occur after the
    [replace]): the longest prefix made of an optional minus sign, digits,
    and optionally a dot and more digits, with at least one digit, read as
    an exact decimal; [None] is [NaN]. *)
Definition parseFloat_num (x : str) : option Q :=
  let '(negative, body) :=
    match x with
    | c :: r => if Ascii.eqb c DASH then (true, r) else (false, x)
    | [] => (false, x)
    end in
  let '(intDigits, rest) := span_digits body in
  let fracDigits :=
    match rest with
    | c :: r => if Ascii.eqb c DOT then fst (span_digits r) else []
    | [] => []
    end in
  if is_nil intDigits && is_nil fracDigits then None
  else
    let v := (inject_Z (digits_value intDigits)
              + inject_Z (digits_value fracDigits)
                / inject_Z (10 ^ Z.of_nat (length fracDigits)))%Q in
    Some (if negative then Qopp v else v).

(** [parseFloat(v.replace(/[^0-9.-]/g, '')) || 0]. *)
Definition numericKey (v : str) : Q :=
  match parseFloat_num (filter is_num_char v) with
  | Some q => if Qeq_bool q 0 then 0 else q
  | None => 0
  end.

(** The key the spec describes for numeric sorting: the value of the first
    signed decimal numeral in the cell, [0] when there is none. *)
Fixpoint firstRunKey (v : str) : Q :=
  match v with
  | [] => 0
  | _ :: r => match parseFloat_num v with Some q => q | None => firstRunKey r end
  end.

Section Sorting.

(** [String.prototype.localeCompare], [new Date(v).getTime()] ([None] for
    [NaN]) and [Array.prototype.sort] with a comparator, which the language
    leaves to the host. *)
Variable localeCompare : str -> str -> Z.
Variable dateGetTime : str -> option Q.
Variable array_sort : (list str -> list str -> Q) -> list (list str) -> list (list str).

Definition dateKey (v : str) : Q :=
  match dateGetTime v with
  | Some q => if Qeq_bool q 0 then 0 else q
  | None => 0
  end.

(** The comparator of [sortTable]; [a[columnIndex] || ''] reads an absent
    cell as the empty string. *)
Definition sort_compare (options : SortOptions) (a b : list str) : Q :=
  let aVal := val_or (js_at a (so_columnIndex options)) [] in
  let bVal := val_or (js_at b (so_columnIndex options)) [] in
  let comparison :=
    match so_sortType options with
    | SortNumeric => (numericKey aVal - numericKey bVal)%Q
    | SortDate => (dateKey aVal - dateKey bVal)%Q
    | SortText =>
        let aText := if so_caseSensitive options then aVal else toLowerCase aVal in
        let bText := if so_caseSensitive options then bVal else toLowerCase bVal in
        inject_Z (localeCompare aText bText)
    end in
  match so_direction options with
  | Descending => Qopp comparison
  | Ascending => comparison
  end.

(** [sortTable]; an absent header or separator row is read as an empty row
    (the source places [undefined] there). *)
Definition sortTable (table : MarkdownTable) (options : SortOptions) : MarkdownTable :=
  let headerRow := val_or (js_at (rows table) 0) [] in
  let separatorRow := val_or (js_at (rows table) (separatorIndex table)) [] in
  let dataRows :=
    filteri_from (fun i => negb (i =? 0)%Z && negb (i =? separatorIndex table)%Z)
                 0 (rows table) in
  let sortedDataRows := array_sort (sort_compare options) dataRows in
  let newRows :=
    if so_keepHeaderRow options
    then headerRow :: separatorRow :: sortedDataRows
    else headerRow :: separatorRow :: sortedDataRows in
  mkTable (startLine table) (endLine table) newRows (separatorIndex table)
          (alignments table).

End Sorting.

(* ------------------------------------------------------------------ *)
(** ** Column and row operations *)

(** The outcome of a call: its value, or a thrown [TypeError]. *)
Inductive outcome (A : Type) := Returns (a : A) | Throws.
Arguments Returns {A} a.
Arguments Throws {A}.

(** The start index [splice(start, ...)] uses on an array of length [len]. *)
Definition splice_start (len : nat) (start : Z) : nat :=
  if (start <? 0)%Z then Z.to_nat (Z.max (Z.of_nat len + start) 0)
  else Z.to_nat (Z.min start (Z.of_nat len)).

(** [xs.splice(start, 0, x)] and [xs.splice(start, 1)]. *)
Definition splice_insert {A} (xs : list A) (start : Z) (x : A) : list A :=
  let k := splice_start (length xs) start in firstn k xs ++ x :: skipn k xs.

Definition splice_remove1 {A} (xs : list A) (start : Z) : list A :=
  let k := splice_start (length xs) start in firstn k xs ++ skipn (S k) xs.

(** [xs[i] = v]: past the end the array grows, the holes in between
    holding [hole]; a negative [i] names a property, not an element. *)
Definition js_set {A} (hole : A) (xs : list A) (i : Z) (v : A) : list A :=
  if (i <? 0)%Z then xs
  else
    let k := Z.to_nat i in
    if (k <? length xs)%nat then firstn k xs ++ v :: skipn (S k) xs
    else xs ++ repeat hole (k - length xs) ++ [v].

(** [[xs[i], xs[j]] = [xs[j], xs[i]]]; an [undefined] read is [hole]. *)
Definition js_swap {A} (hole : A) (xs : list A) (i j : Z) : list A :=
  let vj := val_or (js_at xs j) hole in
  let vi := val_or (js_at xs i) hole in
  js_set hole (js_set hole xs i vj) j vi.

Inductive ColumnDirection := MoveLeft | MoveRight.
Inductive RowDirection := MoveUp | MoveDown.

(** [moveColumn]; an [undefined] cell moved by the swap is the empty
    string and an [undefined] alignment is ['none']. *)
Definition moveColumn (table : MarkdownTable) (columnIndex : Z)
    (direction : ColumnDirection) : outcome MarkdownTable :=
  match rows table with
  | [] => Throws
  | row0 :: _ =>
      let targetIndex :=
        match direction with
        | MoveLeft => (columnIndex - 1)%Z
        | MoveRight => (columnIndex + 1)%Z
        end in
      if (targetIndex <? 0)%Z || (Z.of_nat (length row0) <=? targetIndex)%Z
      then Returns table
      else
        Returns (mkTable (startLine table) (endLine table)
                   (map (fun row => js_swap [] row columnIndex targetIndex) (rows table))
                   (separatorIndex table)
                   (js_swap ANone (alignments table) columnIndex targetIndex))
  end.

(** [insertRow]; [cells] is the optional argument. *)
Definition insertRow (table : MarkdownTable) (rowIndex : Z) (cells : option (list str))
    : outcome MarkdownTable :=
  match rows table with
  | [] => Throws
  | row0 :: _ =>
      let columnCount := length row0 in
      let newCells0 := match cells with Some c => c | None => repeat [] columnCount end in
      let newCells := newCells0 ++ repeat [] (columnCount - length newCells0) in
      let newRows := splice_insert (rows table) rowIndex newCells in
      let newSeparatorIndex :=
        if (rowIndex <=? separatorIndex table)%Z
        then (separatorIndex table + 1)%Z else separatorIndex table in
      Returns (mkTable (startLine table) (endLine table + 1) newRows newSeparatorIndex
                       (alignments table))
  end.

Definition removeRow (table : MarkdownTable) (rowIndex : Z) : option MarkdownTable :=
  if (rowIndex =? 0)%Z || (rowIndex =? separatorIndex table)%Z then None
  else
    let newRows := splice_remove1 (rows table) rowIndex in
    let newSeparatorIndex :=
      if (rowIndex <? separatorIndex table)%Z
      then (separatorIndex table - 1)%Z else separatorIndex table in
    Some (mkTable (startLine table) (endLine table - 1) newRows newSeparatorIndex
                  (alignments table)).

(** [moveRow]; an [undefined] row moved by the swap is an empty row. *)
Definition moveRow (table : MarkdownTable) (rowIndex : Z) (direction : RowDirection)
    : option MarkdownTable :=
  if (rowIndex =? 0)%Z || (rowIndex =? separatorIndex table)%Z then None
  else
    let targetIndex :=
      match direction with
      | MoveUp => (rowIndex - 1)%Z
      | MoveDown => (rowIndex + 1)%Z
      end in
    if (targetIndex =? 0)%Z || (targetIndex =? separatorIndex table)%Z
       || (targetIndex <? 0)%Z || (Z.of_nat (length (rows table)) <=? targetIndex)%Z
    then None
    else Some (mkTable (startLine table) (endLine table)
                       (js_swap [] (rows table) rowIndex targetIndex)
                       (separatorIndex table) (alignments table)).

(** [duplicateRow]; spreading an [undefined] row throws. *)
Definition duplicateRow (table : MarkdownTable) (rowIndex : Z)
    : outcome (option MarkdownTable) :=
  if (rowIndex =? 0)%Z || (rowIndex =? separatorIndex table)%Z then Returns None
  else
    match js_at (rows table) rowIndex with
    | None => Throws
    | Some row =>
        match insertRow table (rowIndex + 1) (Some row) with
        | Returns t => Returns (Some t)
        | Throws => Throws
        end
    end.

(** [insertColumn]: the header row receives [headerText], the separator row
    the marker of [alignment] and every other row [defaultValue]. *)
Definition insertColumn (table : MarkdownTable) (columnIndex : Z)
    (headerText defaultValue : str) (alignment : ColumnAlignment) : MarkdownTable :=
  let newRows :=
    mapi (fun rowIndex row =>
            if (rowIndex =? 0)%Z then splice_insert row columnIndex headerText
            else if (rowIndex =? separatorIndex table)%Z
            then splice_insert row columnIndex (alignment_marker alignment)
            else splice_insert row columnIndex defaultValue)
         (rows table) in
  let newAlignments := splice_insert (alignments table) columnIndex alignment in
  mkTable (startLine table) (endLine table) newRows (separatorIndex table) newAlignments.

Definition removeColumn (table : MarkdownTable) (columnIndex : Z) : MarkdownTable :=
  let newRows := map (fun row => splice_remove1 row columnIndex) (rows table) in
  let newAlignments := splice_remove1 (alignments table) columnIndex in
  mkTable (startLine table) (endLine table) newRows (separatorIndex table) newAlignments.

(** The separator marker of [setColumnAlignment]. *)
Definition setColumnAlignment_marker (a : ColumnAlignment) : str :=
  match a with
  | ARight => lit "---:"
  | ACenter => lit ":---:"
  | ALeft => lit ":---"
  | ANone => lit "---"
  end.

(** [setColumnAlignment]; a hole the assignment leaves in the alignments is
    ['none'] and one left in the separator row is the empty string. *)
Definition setColumnAlignment (table : MarkdownTable) (columnIndex : Z)
    (alignment : ColumnAlignment) : MarkdownTable :=
  let newAlignments := js_set ANone (alignments table) columnIndex alignment in
  let newRows :=
    mapi (fun rowIndex row =>
            if negb (rowIndex =? separatorIndex table)%Z then row
            else js_set [] row columnIndex (setColumnAlignment_marker alignment))
         (rows table) in
  mkTable (startLine table) (endLine table) newRows (separatorIndex table) newAlignments.

(** [removeRowNumbers]; it calls [hasRowNumbers] with the default header
    text ['#']. *)
Definition removeRowNumbers (table : MarkdownTable) : option MarkdownTable :=
  if negb (hasRowNumbers table (lit "#")) then None
  else
    let newRows := map (skipn 1) (rows table) in
    let newAlignments := skipn 1 (alignments table) in
    Some (mkTable (startLine table) (endLine table) newRows (separatorIndex table)
                  newAlignments).

(** [transposeTable]; reading [headerRow[0]] throws when the table has no
    row; an [undefined] first cell is the empty string. *)
Definition transposeTable (table : MarkdownTable) : outcome MarkdownTable :=
  match rows table with
  | [] => Throws
  | headerRow :: _ =>
      let dataRows :=
        filteri_from (fun i => negb (i =? 0)%Z && negb (i =? separatorIndex table)%Z)
                     0 (rows table) in
      let cell row col := val_or (js_at row (Z.of_nat col)) [] in
      let newHeader := cell headerRow 0%nat :: map (fun row => cell row 0%nat) dataRows in
      let newDataRows :=
        map (fun col => cell headerRow col :: map (fun row => cell row col) dataRows)
            (seq 1 (length headerRow - 1)) in
      let newSeparator := repeat (lit "---") (length newHeader) in
      let newRows := newHeader :: newSeparator :: newDataRows in
      let newAlignments := repeat ANone (length newHeader) in
      Returns (mkTable (startLine table)
                       (startLine table + Z.of_nat (length newRows) - 1)
                       newRows 1 newAlignments)
  end.

(* ------------------------------------------------------------------ *)
(** ** Cursor position *)

(** [findTableAtPosition]: [find] over the tables [findTables] returns. *)
Definition findTableAtPosition (lines : list str) (lineNumber : Z)
    (ignoreCodeBlocks : bool) : option MarkdownTable :=
  find (fun table => (startLine table <=? lineNumber)%Z && (lineNumber <=? endLine table)%Z)
       (findTables lines ignoreCodeBlocks).

(** The loop of [getColumnAtPosition] from index [i] on ([xs] is [line]
    from [i] on); it stops at [charPosition] or at the end of the line. *)
Fixpoint column_scan (i charPosition : Z) (xs : str) (columnIndex : Z) : Z :=
  match xs with
  | [] => columnIndex
  | c :: r =>
      if (i <=? charPosition)%Z
      then column_scan (i + 1) charPosition r
             (if Ascii.eqb c PIPE then columnIndex + 1 else columnIndex)
      else columnIndex
  end.

Definition getColumnAtPosition (line : str) (charPosition : Z) : Z :=
  Z.max 0 (column_scan 0 charPosition line (-1)).

Definition getRowIndexInTable (table : MarkdownTable) (lineNumber : Z) : Z :=
  (lineNumber - startLine table)%Z.

(* ------------------------------------------------------------------ *)
(** ** Column widths *)

(** [calculateColumnWidths]: [new Array(-Infinity)] throws for a table
    without rows; otherwise one width per column, starting at [0], bumped
    by every cell of every row (the separator row included). *)
Definition calculateColumnWidths (table : MarkdownTable) : outcome (list Z) :=
  match rows table with
  | [] => Throws
  | _ => Returns (fold_left bump_widths (rows table) (repeat 0%Z (columnCount table)))
  end.

(* ------------------------------------------------------------------ *)
(** ** HTML, new tables and table lines *)

Definition AMP : ascii := "&"%char.
Definition LT : ascii := "<"%char.
Definition GT : ascii := ">"%char.
Definition APOS : ascii := "'"%char.

(** [text.replace(/c/g, rep)] for a one-character pattern [c]. *)
Definition replace_all (c : ascii) (rep : str) (text : str) : str :=
  flat_map (fun d => if Ascii.eqb d c then rep else [d]) text.

Definition escapeHtml (text : str) : str :=
  replace_all APOS (lit "&#39;")
    (replace_all QUOTE (lit "&quot;")
       (replace_all GT (lit "&gt;")
          (replace_all LT (lit "&lt;")
             (replace_all AMP (lit "&amp;") text)))).

(** [`Column ${c + 1}`]. *)
Definition column_title (c : nat) : str := lit "Column " ++ string_of_Z (Z.of_nat c + 1).

(** [createEmptyTable]; its separator marker is the one of
    [addRowNumbers]. *)
Definition createEmptyTable (rows columns : Z) (alignment : ColumnAlignment)
    : MarkdownTable :=
  let headerRow := map column_title (seq 0 (Z.to_nat columns)) in
  let separatorRow := repeat (alignment_marker alignment) (Z.to_nat columns) in
  let dataRows := repeat (repeat [] (Z.to_nat columns)) (Z.to_nat (rows - 1)) in
  mkTable 0 rows (headerRow :: separatorRow :: dataRows) 1
          (repeat alignment (Z.to_nat columns)).

Definition tableToLines (table : MarkdownTable) : list str := map frame (rows table).

(* ------------------------------------------------------------------ *)
(** ** Formatted or compact (the extension's [isTableFormatted]) *)

(** The cells of one line with their white space: [[]] unless the trimmed
    line starts and ends with a pipe, else [trimmed.slice(1, -1).split('|')]. *)
Definition original_cells (line : str) : list str :=
  let trimmed := trim line in
  if negb (startsWith trimmed [PIPE]) || negb (endsWith trimmed [PIPE]) then []
  else split_on PIPE (slice_inner trimmed).

(** [cell.replace(/[:\s]/g, '').length]. *)
Definition dash_count (cell : str) : nat :=
  length (filter (fun c => negb (is_ws c || Ascii.eqb c COLON)) cell).

(** One turn of the column loop: whether the widths of the column's cells
    over the data rows are within one of each other, and whether one of
    those cells ends in a space.  With no data row the loop [continue]s,
    which counts nothing either. *)
Definition column_stats (originalCells : list (list str)) (dataRowIndices : list Z)
    (col : nat) : bool * bool :=
  let cell r := match js_at originalCells r with
                | Some row => nth_error row col
                | None => None
                end in
  let widths := map (fun r => match cell r with Some c => zlen c | None => 0%Z end)
                    dataRowIndices in
  let isConsistent :=
    match widths with
    | [] => false
    | w :: ws => (fold_left Z.max ws w - fold_left Z.min ws w <=? 1)%Z
    end in
  let hasPaddingInColumn :=
    existsb (fun r => match cell r with
                      | Some c => negb (is_nil c) && endsWith c [SPACE]
                      | None => false
                      end) dataRowIndices in
  (isConsistent, hasPaddingInColumn).

(** The body of [isTableFormatted] once the table's lines are read.  The
    ratio test [consistentColumns / columnCount >= 0.7] is taken exactly,
    as [7 * columnCount <= 10 * consistentColumns]. *)
Definition formatted_verdict (table : MarkdownTable) (tableLines : list str) : bool :=
  let originalCells := map original_cells tableLines in
  if (length originalCells <? 2)%nat then false
  else
    let dataRowIndices :=
      filter (fun i => negb (i =? separatorIndex table)%Z)
             (map Z.of_nat (seq 0 (length originalCells))) in
    if (length dataRowIndices <? 2)%nat then
      match js_at tableLines (separatorIndex table) with
      | Some separatorLine =>
          if is_nil separatorLine then false
          else existsb (fun cell => (3 <? dash_count cell)%nat)
                       (split_on PIPE (slice_inner separatorLine))
      | None => false
      end
    else
      let columnCount := fold_left Nat.max (map (@length str) originalCells) 0%nat in
      let stats := map (column_stats originalCells dataRowIndices) (seq 0 columnCount) in
      let consistentColumns := length (filter fst stats) in
      let hasAnyPadding := existsb snd stats in
      let hasConsistentWidths :=
        if (0 <? columnCount)%nat
        then (7 * Z.of_nat columnCount <=? 10 * Z.of_nat consistentColumns)%Z
        else false in
      if hasConsistentWidths && hasAnyPadding then true
      else
        existsb (fun r => match js_at originalCells r with
                          | Some row =>
                              existsb (fun cell => negb (is_nil cell) &&
                                         (2 <=? length cell - length (rstrip cell))%nat) row
                          | None => false
                          end) dataRowIndices.

(** [Some] of all the values when none is [undefined]. *)
Fixpoint all_defined {A} (xs : list (option A)) : option (list A) :=
  match xs with
  | [] => Some []
  | None :: _ => None
  | Some x :: r => option_map (cons x) (all_defined r)
  end.

(** [isTableFormatted]: the lines [startLine..endLine] are read from
    [lines]; an [undefined] one makes [line.trim()] throw. *)
Definition isTableFormatted (table : MarkdownTable) (lines : list str) : outcome bool :=
  match all_defined
          (map (fun k => js_at lines (startLine table + Z.of_nat k))
               (seq 0 (Z.to_nat (endLine table - startLine table + 1)))) with
  | None => Throws
  | Some tableLines => Returns (formatted_verdict table tableLines)
  end.

(* ------------------------------------------------------------------ *)
(** ** Sample documents *)

(** The document of the spec's first example, with a row whose last cell
    does not fit a 40-character line. *)
Definition sample_lines : list str :=
  [lit "| Name       |   Age   |    City        |";
   lit "|------------|---------|----------------|";
   lit "| John Doe   |   30    | New York       |";
   lit "| A | 7 | a very very long city name that does not fit |"].

Definition empty_table : MarkdownTable := mkTable 0 0 [] 0 [].

Definition sample_table : MarkdownTable := hd empty_table (findTables sample_lines false).

Definition sample_long_row : list str :=
  [lit "A"; lit "7"; lit "a very very long city name that does not fit"].

Definition width40 : FormatOptions := mkFormatOptions 40 true true true false.

(** Two option sets that keep [maxWidth = 0]: separator widths kept in
    the ratio of the existing dashes, and cell padding without separator
    padding. *)
Definition ratio_options : FormatOptions := mkFormatOptions 0 true true true true.
Definition nosep_padding_options : FormatOptions := mkFormatOptions 0 true false true false.

(** The rendered cells of every row: [formatTable] frames each of them. *)
Definition rendered_cells (t : MarkdownTable) (fo : FormatOptions)
    (co : CompactOptions) : list (list str) :=
  mapi (format_row_cells t fo co) (rows t).

(** The rendered width of column [i] on each row. *)
Definition column_cell_widths (i : nat) (t : MarkdownTable) (fo : FormatOptions)
    (co : CompactOptions) : list (option Z) :=
  map (fun cells => option_map zlen (nth_error cells i)) (rendered_cells t fo co).

(** The table of the repository's first [compactTable] test. *)
Definition compact_test_lines : list str :=
  [lit "| Header1   | Header2   |";
   lit "|-----------|-----------|";
   lit "| Cell1     | Cell2     |"].

Definition compact_test_table : MarkdownTable :=
  hd empty_table (findTables compact_test_lines false).

(** Numeric ascending sort on the first column. *)
Definition numeric_sort_options : SortOptions :=
  mkSortOptions 0 Ascending SortNumeric false true.

(** A table whose two columns are equal. *)
Definition twin_table : MarkdownTable :=
  mkTable 0 2 [[lit "a"; lit "a"]; [lit "---"; lit "---"]; [lit "x"; lit "x"]] 1
          [ANone; ANone].

(** A table with an empty cell and columns of uneven widths. *)
Definition empty_cell_table : MarkdownTable :=
  mkTable 0 3 [[lit "a"; lit "b"]; [lit "---"; lit "---"]; [lit "xxxxxx"; []];
               [lit "y"; lit "zzzzzzzz"]] 1 [ANone; ANone].

(** [twin_table] numbered under the header text 'Index'. *)
Definition index_numbered_table : MarkdownTable :=
  addRowNumbers twin_table (mkRowNumberOptions 1 (lit "Index") ARight).

(** A header and separator without data rows, the first header being a
    known row-number header. *)
Definition numbered_header_table : MarkdownTable :=
  mkTable 0 1 [[lit " No. "; lit "Name"]; [lit "---"; lit "---"]] 1 [ANone; ANone].

(* ------------------------------------------------------------------ *)
(** ** Shapes used by the proofs *)

Definition no_pipe (x : str) : Prop := ~ In PIPE x.

(** The four shapes of the text [createSeparatorCell] builds before its
    padding: an optional colon, dashes, an optional colon. *)
Definition sep_core (l r : bool) (k : nat) : str :=
  (if l then COLON else DASH) :: repeat DASH k ++ [if r then COLON else DASH].

Definition alignment_of (l r : bool) : ColumnAlignment :=
  if l && r then ACenter else if r then ARight else if l then ALeft else ANone.

(** What [escapeHtml] writes for one character. *)
Definition html_char (c : ascii) : str :=
  if Ascii.eqb c AMP then lit "&amp;"
  else if Ascii.eqb c LT then lit "&lt;"
  else if Ascii.eqb c GT then lit "&gt;"
  else if Ascii.eqb c QUOTE then lit "&quot;"
  else if Ascii.eqb c APOS then lit "&#39;"
  else [c].

(** A table as the Locator returns it: the parsed lines of a run of
    table rows whose first separator line is the second line. *)
Definition located (t : MarkdownTable) : Prop :=
  exists l0 l1 ls,
    rows t = map parseTableRow (l0 :: l1 :: ls) /\
    Forall (fun l => isTableRow l = true) (l0 :: l1 :: ls) /\
    separatorIndex t = 1%Z /\
    isTableSeparator l0 = false /\ isTableSeparator l1 = true /\
    alignments t = parseAlignments (parseTableRow l1).

(** A separator cell [s] written for the original cell [c]: once trimmed
    it matches the separator pattern and gives the alignment of [c], and it
    holds no pipe. *)
Definition sep_cell_ok (s c : str) : Prop :=
  sep_cell_re (trim s) = true /\
  getAlignmentFromSeparator (trim s) = getAlignmentFromSeparator c /\
  no_pipe s.

(** *** CSV round trip *)

(** The data rows [parseCsv] reads under [getDefaultCsvOptions], before
    the separator row is added. *)
Definition csv_rows (text : str) : list (list str) :=
  map (fun line => map trim (parseCsvLine line [COMMA]))
      (filter (fun line => negb (is_nil (trim line))) (split_lines text)).

(** The table [parseCsv] builds from its data rows when [hasHeader] is set. *)
Definition csv_table (rows0 : list (list str)) : MarkdownTable :=
  let rows := match rows0 with
              | header :: rest => header :: repeat (lit "---") (length header) :: rest
              | [] => []
              end in
  mkTable 0 (Z.of_nat (length rows) - 1) rows 1
          (repeat ANone (match rows with r0 :: _ => length r0 | [] => 0%nat end)).

(** One line of [tableToCsv] under [getDefaultCsvOptions]. *)
Definition csv_line (row : list str) : str :=
  join [COMMA] (map (csv_cell getDefaultCsvOptions) row).

(** A header line and a line holding a lone quote, which [parseCsv] reads
    as a row with one empty cell. *)
Definition csv_lone_quote_text : str := lit "h" ++ [NL; QUOTE].

(** A small document: a quoted cell holding the delimiter and an escaped
    quote, a blank line written with a carriage return, padded cells. *)
Definition csv_sample_text : str :=
  lit "name, note" ++ [NL] ++ lit "Ann, " ++ [QUOTE] ++ lit "a," ++ [QUOTE; QUOTE]
  ++ lit "b" ++ [QUOTE; CR; NL; CR; NL] ++ lit "Bo,x ".

(* ================================================================== *)
(** * Proofs *)
(* ================================================================== *)

Example findTables_test_single :
  map (fun t => (startLine t, endLine t, separatorIndex t))
    (findTables [lit "| Header1 | Header2 |"; lit "|---------|---------|";
                 lit "| Cell1   | Cell2   |"] false) = [(0, 2, 1)%Z].
Proof. vm_compute. reflexivity. Qed.

(* ------------------------------------------------------------------ *)
(** ** The Locator *)

Section LocatorFacts.

Variable ign : bool.
Variable cbr : list (Z * Z).

Lemma collect_run_spec i rest rws sep al rws' sep' al' j rest'' :
  collect_run ign cbr i rest rws sep al = (rws', sep', al', j, rest'') ->
  exists taken, rest = taken ++ rest'' /\ j = (i + length taken)%nat /\
                length rws' = (length rws + length taken)%nat.
Proof.
  revert i rws sep al.
  induction rest as [|l rest IH]; intros i rws sep al H; simpl in H.
  - inversion H; subst. exists []. simpl. repeat split; lia.
  - destruct (isTableRow l && negb (in_block ign cbr i)).
    + destruct ((sep =? -1)%Z && isTableSeparator l);
        destruct (IH _ _ _ _ H) as (taken & -> & -> & Hl);
        exists (l :: taken); rewrite length_app in Hl; simpl in *;
        repeat split; lia.
    + inversion H; subst. exists []. simpl. repeat split; lia.
Qed.

Definition span_ok (i n : nat) (t : MarkdownTable) : Prop :=
  (2 <= length (rows t))%nat /\ separatorIndex t = 1%Z /\
  (Z.of_nat i <= startLine t)%Z /\ (startLine t <= endLine t)%Z /\
  (endLine t < Z.of_nat (i + n))%Z.

Definition before (a b : MarkdownTable) : Prop := (endLine a < startLine b)%Z.

Lemma scan_tables_inv f i rest :
  Forall (span_ok i (length rest)) (scan_tables ign cbr f i rest) /\
  StronglySorted before (scan_tables ign cbr f i rest).
Proof.
  revert i rest. induction f as [|f IH]; intros i rest; simpl.
  { split; constructor. }
  destruct rest as [|l rest]; [split; constructor|].
  destruct (in_block ign cbr i) eqn:Hb.
  { destruct (IH (S i) rest) as [HF HS]. split; [|exact HS].
    eapply Forall_impl; [|exact HF].
    intros t (H1 & H2 & H3 & H4 & H5); repeat split; simpl in *; lia. }
  destruct (isTableRow l) eqn:Hr.
  2:{ destruct (IH (S i) rest) as [HF HS]. split; [|exact HS].
      eapply Forall_impl; [|exact HF].
      intros t (H1 & H2 & H3 & H4 & H5); repeat split; simpl in *; lia. }
  destruct (collect_run ign cbr i (l :: rest) [] (-1)%Z []) as
      [[[[rws sep] al] j] rest''] eqn:Hc.
  pose proof Hc as Hc'.
  simpl in Hc'. rewrite Hr, Hb in Hc'. simpl in Hc'.
  assert (Hj : exists taken, l :: rest = taken ++ rest'' /\ j = (i + length taken)%nat
                             /\ length rws = length taken /\ taken <> []).
  { destruct (collect_run_spec _ _ _ _ _ _ _ _ _ _ Hc) as (taken & E & Ej & El).
    exists taken. simpl in El. repeat split; auto.
    destruct (isTableSeparator l);
      destruct (collect_run_spec _ _ _ _ _ _ _ _ _ _ Hc') as (tk & _ & Ej' & _);
      intros ->; simpl in Ej; lia. }
  destruct Hj as (taken & E & Ej & El & Hne).
  assert (Hlen : length (l :: rest) = (length taken + length rest'')%nat)
    by (rewrite E, length_app; reflexivity).
  destruct (IH j rest'') as [HF HS].
  assert (HF' : Forall (span_ok i (length (l :: rest))) (scan_tables ign cbr f j rest'')).
  { eapply Forall_impl; [|exact HF].
    intros t (H1 & H2 & H3 & H4 & H5); repeat split; simpl in *; lia. }
  assert (Hok : (2 <=? length rws)%nat && (sep =? 1)%Z =
                match length rws with S (S _) => true | _ => false end
                && (sep =? 1)%Z) by reflexivity.
  rewrite <- Hok. clear Hok.
  destruct ((2 <=? length rws)%nat && (sep =? 1)%Z) eqn:Hok.
  - apply andb_true_iff in Hok as [H2 H1].
    apply Nat.leb_le in H2. apply Z.eqb_eq in H1.
    simpl. split.
    + constructor; [|exact HF'].
      unfold span_ok; simpl. simpl in Hlen. repeat split; lia.
    + constructor; [exact HS|].
      eapply Forall_impl; [|exact HF].
      intros t (_ & _ & H3 & _ & _). unfold before; simpl. lia.
  - simpl. split; assumption.
Qed.

Lemma scan_tables_no_rows f i rest :
  Forall (fun l => isTableRow l = false) rest ->
  scan_tables ign cbr f i rest = [].
Proof.
  revert i rest. induction f as [|f IH]; intros i rest H; simpl; [reflexivity|].
  destruct rest as [|l rest]; [reflexivity|].
  inversion H as [|? ? Hl Hrest]; subst.
  destruct (in_block ign cbr i); [apply IH; exact Hrest|].
  rewrite Hl. apply IH. exact Hrest.
Qed.

End LocatorFacts.

(** C2: every table returned by [findTables] has at least two rows and its
    separator at index 1; the tables come in strictly ascending order with
    disjoint line ranges ([endLine] of one before [startLine] of the next);
    and a document without pipe-delimited rows yields no table. *)
Theorem findTables_sorted_disjoint (lines : list str) (ignoreCodeBlocks : bool) :
  Forall (fun t => (2 <= length (rows t))%nat /\ separatorIndex t = 1%Z /\
                   (startLine t <= endLine t)%Z)
         (findTables lines ignoreCodeBlocks) /\
  StronglySorted (fun a b => (endLine a < startLine b)%Z)
                 (findTables lines ignoreCodeBlocks) /\
  (Forall (fun l => isTableRow l = false) lines ->
   findTables lines ignoreCodeBlocks = []).
Proof.
  unfold findTables.
  destruct (scan_tables_inv ignoreCodeBlocks
              (if ignoreCodeBlocks then findCodeBlockRanges lines else [])
              (length lines) 0 lines) as [HF HS].
  repeat split.
  - eapply Forall_impl; [|exact HF].
    intros t (H1 & H2 & _ & H4 & _). auto.
  - exact HS.
  - intros H. apply scan_tables_no_rows. exact H.
Qed.

(* ------------------------------------------------------------------ *)
(** ** Generic facts about the JavaScript idioms *)

Lemma nth_error_mapi_from {A B} (f : Z -> A -> B) i xs k :
  nth_error (mapi_from f i xs) k = option_map (f (i + Z.of_nat k)%Z) (nth_error xs k).
Proof.
  revert i k. induction xs as [|x xs IH]; intros i k; destruct k; simpl; auto.
  - f_equal. f_equal. lia.
  - rewrite IH. f_equal. f_equal. lia.
Qed.

Lemma js_at_nat {A} (xs : list A) (i : nat) : js_at xs (Z.of_nat i) = nth_error xs i.
Proof.
  unfold js_at. destruct (Z.of_nat i <? 0)%Z eqn:H; [apply Z.ltb_lt in H; lia|].
  now rewrite Nat2Z.id.
Qed.

Lemma js_at_mapi {A B} (f : Z -> A -> B) xs i :
  js_at (mapi f xs) i = option_map (f i) (js_at xs i).
Proof.
  unfold js_at, mapi. destruct (i <? 0)%Z eqn:Hi; [reflexivity|].
  rewrite nth_error_mapi_from. f_equal. apply Z.ltb_ge in Hi. f_equal. lia.
Qed.

Lemma length_mapi_from {A B} (f : Z -> A -> B) i xs :
  length (mapi_from f i xs) = length xs.
Proof. revert i. induction xs; intros; simpl; auto. Qed.

Lemma Forall2_mapi_from {A B} (P : B -> A -> Prop) (f : Z -> A -> B) i xs :
  (forall j x, P (f j x) x) -> Forall2 P (mapi_from f i xs) xs.
Proof.
  intros H. revert i. induction xs; intros; simpl; constructor; auto.
Qed.

Lemma repeat_ch_length c n : (0 <= n)%Z -> length (repeat_ch c n) = Z.to_nat n.
Proof. intros _. unfold repeat_ch. apply repeat_length. Qed.

Lemma zlen_app x y : zlen (x ++ y) = (zlen x + zlen y)%Z.
Proof. unfold zlen. rewrite length_app. lia. Qed.

Lemma zlen_repeat_ch c n : (0 <= n)%Z -> zlen (repeat_ch c n) = n.
Proof. intros H. unfold zlen. rewrite repeat_ch_length by lia. lia. Qed.

Lemma zlen_nonneg x : (0 <= zlen x)%Z.
Proof. unfold zlen. lia. Qed.

(* ------------------------------------------------------------------ *)
(** ** Cells are never truncated *)

Definition all_spaces (x : str) : Prop := forallb (fun c => Ascii.eqb c SPACE) x = true.

(** [r] is the cell text [c] with white space only around it. *)
Definition keeps (r c : str) : Prop :=
  exists l r', all_spaces l /\ all_spaces r' /\ r = l ++ c ++ r'.

Lemma all_spaces_nil : all_spaces [].
Proof. reflexivity. Qed.

Lemma all_spaces_repeat n : all_spaces (repeat_ch SPACE n).
Proof.
  unfold all_spaces, repeat_ch. induction (Z.to_nat n); simpl; auto.
Qed.

Lemma all_spaces_space : all_spaces [SPACE].
Proof. reflexivity. Qed.

Lemma all_spaces_app x y : all_spaces x -> all_spaces y -> all_spaces (x ++ y).
Proof. unfold all_spaces. rewrite forallb_app. intros -> ->. reflexivity. Qed.

Lemma padCell_keeps c w a : keeps (padCell c w a) c.
Proof.
  unfold padCell, keeps.
  destruct (w <=? zlen c)%Z.
  { exists [], []. rewrite app_nil_r. repeat split; apply all_spaces_nil. }
  destruct a.
  - exists [], (repeat_ch SPACE (w - zlen c)).
    repeat split; auto using all_spaces_nil, all_spaces_repeat.
  - exists (repeat_ch SPACE ((w - zlen c) / 2)),
      (repeat_ch SPACE (w - zlen c - (w - zlen c) / 2)).
    split; [apply all_spaces_repeat|]. split; [apply all_spaces_repeat|]. reflexivity.
  - exists (repeat_ch SPACE (w - zlen c)), []. rewrite app_nil_r.
    repeat split; auto using all_spaces_nil, all_spaces_repeat.
  - exists [], (repeat_ch SPACE (w - zlen c)).
    repeat split; auto using all_spaces_nil, all_spaces_repeat.
Qed.

Lemma pad_if_keeps b x c : keeps x c -> keeps (pad_if b x) c.
Proof.
  intros (l & r & Hl & Hr & ->). destruct b; simpl; [|exists l, r; auto].
  exists (SPACE :: l), (r ++ [SPACE]). repeat split.
  - apply (all_spaces_app [SPACE] l); auto using all_spaces_space.
  - apply all_spaces_app; auto using all_spaces_space.
  - rewrite <- !app_assoc. reflexivity.
Qed.

Lemma keeps_refl c : keeps c c.
Proof. exists [], []. rewrite app_nil_r. repeat split; apply all_spaces_nil. Qed.

Lemma max_width_cell_keeps t fo co j c : keeps (max_width_cell t fo co j c) c.
Proof.
  unfold max_width_cell.
  destruct (j <? breakColumnIndex t fo)%Z; [apply pad_if_keeps, padCell_keeps|].
  destruct (j =? breakColumnIndex t fo)%Z;
    [destruct (zlen c <=? breakColumnFittingWidth t fo)%Z|];
    apply pad_if_keeps; auto using padCell_keeps, keeps_refl.
Qed.

Lemma full_width_cell_keeps t fo j c : keeps (full_width_cell t fo j c) c.
Proof. unfold full_width_cell. apply pad_if_keeps, padCell_keeps. Qed.

Lemma nth_error_formatTable t fo co k :
  nth_error (formatTable t fo co) k =
  option_map (fun row => frame (format_row_cells t fo co (Z.of_nat k) row))
             (nth_error (rows t) k).
Proof. unfold formatTable, mapi. rewrite nth_error_mapi_from. reflexivity. Qed.

(** C1: on every non-separator row, [formatTable] renders a line
    ['|' + cells.join('|') + '|'] whose i-th rendered cell is the i-th cell
    text of the row, unchanged, with only spaces around it; and under a
    positive [maxWidth], a cell of the break column longer than the fitting
    width is rendered at its natural width (the cell, with the compact
    padding), so the row may exceed [maxWidth]. *)
Theorem formatTable_never_truncates (t : MarkdownTable) (fo : FormatOptions)
    (co : CompactOptions) (k : nat) (row : list str)
    (Hk : Z.of_nat k <> separatorIndex t) (Hrow : nth_error (rows t) k = Some row) :
  exists cells,
    nth_error (formatTable t fo co) k = Some (frame cells) /\
    Forall2 keeps cells row /\
    ((0 < fo_maxWidth fo)%Z ->
     forall c, js_at row (breakColumnIndex t fo) = Some c ->
     (breakColumnFittingWidth t fo < zlen c)%Z ->
     js_at cells (breakColumnIndex t fo) = Some (pad_if (co_cellPadding co) c)).
Proof.
  exists (format_row_cells t fo co (Z.of_nat k) row).
  rewrite nth_error_formatTable, Hrow. split; [reflexivity|].
  unfold format_row_cells.
  apply Z.eqb_neq in Hk. rewrite Hk.
  split.
  - destruct ((Z.of_nat k =? 0)%Z && (0 <? fo_maxWidth fo)%Z);
      [|destruct (Z.of_nat k =? 0)%Z; [|destruct (0 <? fo_maxWidth fo)%Z]];
      apply Forall2_mapi_from; auto using max_width_cell_keeps, full_width_cell_keeps.
  - intros Hm c Hc Hlong.
    apply Z.ltb_lt in Hm. rewrite Hm, andb_true_r.
    assert (E : (if (Z.of_nat k =? 0)%Z then mapi (max_width_cell t fo co) row
                 else if (Z.of_nat k =? 0)%Z then mapi (full_width_cell t fo) row
                 else mapi (max_width_cell t fo co) row)
                = mapi (max_width_cell t fo co) row)
      by (destruct (Z.of_nat k =? 0)%Z; reflexivity).
    rewrite E, js_at_mapi, Hc. simpl.
    unfold max_width_cell.
    rewrite Z.ltb_irrefl, Z.eqb_refl.
    apply Z.ltb_lt in Hlong.
    destruct (zlen c <=? breakColumnFittingWidth t fo)%Z eqn:Hle;
      [apply Z.leb_le in Hle; apply Z.ltb_lt in Hlong; lia | reflexivity].
Qed.

Example sample_long_row_exceeds :
  map (fun l => length l) (formatTable sample_table width40 getDefaultCompactOptions)
  = [29%nat; 29%nat; 29%nat; 65%nat].
Proof. vm_compute. reflexivity. Qed.

Lemma formatTable_never_truncates_witness :
  exists cells,
    nth_error (formatTable sample_table width40 getDefaultCompactOptions) 3
      = Some (frame cells) /\
    Forall2 keeps cells sample_long_row /\
    ((0 < fo_maxWidth width40)%Z ->
     forall c, js_at sample_long_row (breakColumnIndex sample_table width40) = Some c ->
     (breakColumnFittingWidth sample_table width40 < zlen c)%Z ->
     js_at cells (breakColumnIndex sample_table width40)
       = Some (pad_if (co_cellPadding getDefaultCompactOptions) c)).
Proof.
  apply formatTable_never_truncates.
  - vm_compute. discriminate.
  - vm_compute. reflexivity.
Defined.

(* ------------------------------------------------------------------ *)
(** ** Column widths *)

Lemma fold_max_ge_init l a : (a <= fold_left Nat.max l a)%nat.
Proof. revert a. induction l; intros; simpl; [lia|]. specialize (IHl (Nat.max a0 a)). lia. Qed.

Lemma fold_max_ge l a x : In x l -> (x <= fold_left Nat.max l a)%nat.
Proof.
  revert a. induction l as [|y l IH]; intros a Hin; simpl in *; [tauto|].
  destruct Hin as [->|Hin]; [|auto].
  pose proof (fold_max_ge_init l (Nat.max a x)). lia.
Qed.

Lemma row_length_le_columnCount t k row :
  nth_error (rows t) k = Some row -> (length row <= columnCount t)%nat.
Proof.
  intros H. unfold columnCount. apply fold_max_ge.
  apply in_map. eapply nth_error_In. exact H.
Qed.

Lemma in_combine_index {A} (f : nat -> Z) (s : nat) (l : list A) a b :
  In (a, b) (combine (map f (seq s (length l))) l) ->
  exists k, a = f (s + k)%nat /\ nth_error l k = Some b.
Proof.
  revert s. induction l as [|x l IH]; intros s Hin; simpl in *; [tauto|].
  destruct Hin as [E|Hin].
  - inversion E; subst. exists 0%nat. rewrite Nat.add_0_r. auto.
  - destruct (IH (S s) Hin) as (k & -> & Hk). exists (S k).
    rewrite <- plus_n_Sm. auto.
Qed.

Lemma in_combine_index_rev {A} (f : nat -> Z) (s : nat) (l : list A) k b :
  nth_error l k = Some b -> In (f (s + k)%nat, b) (combine (map f (seq s (length l))) l).
Proof.
  revert s k. induction l as [|x l IH]; intros s [|k] H; simpl in *; try discriminate.
  - injection H as ->. left. rewrite Nat.add_0_r. reflexivity.
  - right. replace (s + S k)%nat with (S s + k)%nat by lia. apply IH. exact H.
Qed.

Lemma bump_widths_length ws row :
  (length row <= length ws)%nat -> length (bump_widths ws row) = length ws.
Proof.
  revert row. induction ws as [|w ws IH]; intros [|c row] H; simpl in *; auto; try lia.
  rewrite IH; auto. lia.
Qed.

Lemma bump_widths_nth ws row i :
  nth_error (bump_widths ws row) i =
  match nth_error ws i with
  | Some w => Some (match nth_error row i with Some c => Z.max w (zlen c) | None => w end)
  | None => None
  end.
Proof.
  revert row i. induction ws as [|w ws IH]; intros [|c row] [|i]; simpl; auto.
  destruct (nth_error ws i); reflexivity.
Qed.

Section ColumnWidths.

Variable sep : Z.
Variable n : nat.

Definition widths_inv (ws : list Z) (L : list (Z * list str)) : Prop :=
  length ws = n /\
  forall i w, nth_error ws i = Some w ->
    (3 <= w)%Z /\
    (forall kz row c, In (kz, row) L -> kz <> sep -> nth_error row i = Some c ->
                      (zlen c <= w)%Z) /\
    (w = 3%Z \/ exists kz row c, In (kz, row) L /\ kz <> sep /\
                                 nth_error row i = Some c /\ zlen c = w).

Definition widths_step (ws : list Z) (p : Z * list str) : list Z :=
  let '(k, row) := p in if (k =? sep)%Z then ws else bump_widths ws row.

Lemma widths_fold_inv (L acc : list (Z * list str)) ws :
  (forall kz row, In (kz, row) L -> (length row <= n)%nat) ->
  widths_inv ws acc -> widths_inv (fold_left widths_step L ws) (acc ++ L).
Proof.
  revert acc ws. induction L as [|[kz row] L IH]; intros acc ws Hlen Hinv; simpl.
  { rewrite app_nil_r. exact Hinv. }
  replace (acc ++ (kz, row) :: L) with ((acc ++ [(kz, row)]) ++ L)
    by (rewrite <- app_assoc; reflexivity).
  apply IH; [intros; apply (Hlen kz0 row0); simpl; auto|].
  destruct Hinv as [Hn Hws].
  assert (Hrow : (length row <= n)%nat) by (apply (Hlen kz row); simpl; auto).
  destruct (kz =? sep)%Z eqn:Hk.
  - apply Z.eqb_eq in Hk. split; [exact Hn|].
    intros i w Hw. destruct (Hws i w Hw) as (H3 & Hle & Hex). split; [exact H3|]. split.
    + intros kz' row' c Hin Hne Hc. apply in_app_or in Hin as [Hin|[E|[]]].
      * eapply Hle; eauto.
      * inversion E; subst. contradiction.
    + destruct Hex as [E|(kz' & row' & c & Hin & Hne & Hc & Hz)]; [left; exact E|right].
      exists kz', row', c. repeat split; auto. apply in_or_app. left. exact Hin.
  - apply Z.eqb_neq in Hk. split.
    { rewrite bump_widths_length; lia. }
    intros i w Hw. rewrite bump_widths_nth in Hw.
    destruct (nth_error ws i) as [w0|] eqn:Hw0; [|discriminate].
    injection Hw as Hw.
    destruct (Hws i w0 Hw0) as (H3 & Hle & Hex).
    destruct (nth_error row i) as [c0|] eqn:Hc0; subst w.
    + split; [lia|]. split.
      * intros kz' row' c Hin Hne Hc. apply in_app_or in Hin as [Hin|[E|[]]].
        -- pose proof (Hle _ _ _ Hin Hne Hc). lia.
        -- inversion E; subst. rewrite Hc0 in Hc. injection Hc as ->. lia.
      * destruct (Z.max_spec w0 (zlen c0)) as [[Hlt Hm]|[Hge Hm]]; rewrite Hm.
        -- right. exists kz, row, c0. repeat split; auto.
           apply in_or_app. right. simpl. auto.
        -- destruct Hex as [E|(kz' & row' & c & Hin & Hne & Hc & Hz)]; [left; exact E|right].
           exists kz', row', c. repeat split; auto. apply in_or_app. left. exact Hin.
    + split; [exact H3|]. split.
      * intros kz' row' c Hin Hne Hc. apply in_app_or in Hin as [Hin|[E|[]]].
        -- eapply Hle; eauto.
        -- inversion E; subst. rewrite Hc0 in Hc. discriminate.
      * destruct Hex as [E|(kz' & row' & c & Hin & Hne & Hc & Hz)]; [left; exact E|right].
        exists kz', row', c. repeat split; auto. apply in_or_app. left. exact Hin.
Qed.

End ColumnWidths.

Lemma columnWidths_spec t :
  length (columnWidths t) = columnCount t /\
  forall i w, nth_error (columnWidths t) i = Some w ->
    (3 <= w)%Z /\
    (forall k row c, Z.of_nat k <> separatorIndex t -> nth_error (rows t) k = Some row ->
                     nth_error row i = Some c -> (zlen c <= w)%Z) /\
    (w = 3%Z \/ exists k row c, Z.of_nat k <> separatorIndex t /\
                                nth_error (rows t) k = Some row /\
                                nth_error row i = Some c /\ zlen c = w).
Proof.
  pose (L := combine (map Z.of_nat (seq 0 (length (rows t)))) (rows t)).
  assert (HL : forall kz row, In (kz, row) L ->
                 exists k, kz = Z.of_nat k /\ nth_error (rows t) k = Some row).
  { intros kz row Hin. destruct (in_combine_index Z.of_nat 0 (rows t) kz row Hin)
      as (k & -> & Hk). exists k. auto. }
  assert (Hinv : widths_inv (separatorIndex t) (columnCount t)
                   (fold_left (widths_step (separatorIndex t)) L (repeat 3%Z (columnCount t)))
                   ([] ++ L)).
  { apply widths_fold_inv.
    - intros kz row Hin. destruct (HL kz row Hin) as (k & _ & Hk).
      eapply row_length_le_columnCount; eauto.
    - split; [apply repeat_length|].
      intros i w Hw. apply nth_error_In, repeat_spec in Hw. subst w.
      repeat split; [lia| |left; reflexivity].
      intros kz row c []. }
  replace (columnWidths t) with
      (fold_left (widths_step (separatorIndex t)) L (repeat 3%Z (columnCount t)))
    by reflexivity.
  destruct Hinv as [Hn Hws]. split; [exact Hn|].
  intros i w Hw. destruct (Hws i w Hw) as (H3 & Hle & Hex). split; [exact H3|]. split.
  - intros k row c Hk Hrow Hc. apply (Hle (Z.of_nat k) row c); auto.
    apply (in_combine_index_rev Z.of_nat 0 (rows t) k row Hrow).
  - destruct Hex as [E|(kz & row & c & Hin & Hne & Hc & Hz)]; [left; exact E|right].
    destruct (HL kz row Hin) as (k & -> & Hk). exists k, row, c. auto.
Qed.

(* ------------------------------------------------------------------ *)
(** ** Full alignment without a width limit *)

Lemma zlen_padCell c w a : zlen (padCell c w a) = Z.max (zlen c) w.
Proof.
  unfold padCell. cbv zeta. destruct (w <=? zlen c)%Z eqn:Hw.
  { apply Z.leb_le in Hw. lia. }
  apply Z.leb_gt in Hw.
  pose proof (Z.div_pos (w - zlen c) 2).
  pose proof (Z.mul_div_le (w - zlen c) 2).
  destruct a; rewrite !zlen_app, !zlen_repeat_ch; lia.
Qed.

Lemma zlen_pad_if b x : zlen (pad_if b x) = (zlen x + if b then 2 else 0)%Z.
Proof.
  destruct b; simpl; [|lia]. unfold zlen. simpl. rewrite length_app. simpl. lia.
Qed.

Lemma zlen_createSeparatorCell cell w cp sp al :
  (3 <= w)%Z ->
  zlen (createSeparatorCell cell w cp sp al) = (w + if cp && sp then 2 else 0)%Z.
Proof.
  intros Hw. unfold createSeparatorCell. cbv zeta.
  rewrite (Z.max_r 3 w) by lia.
  set (l := _ || startsWith _ _). set (r := _ || endsWith _ _).
  clearbody l r.
  assert (Hc : zlen [COLON] = 1%Z) by reflexivity.
  assert (Hs : zlen [SPACE] = 1%Z) by reflexivity.
  destruct l, r, (cp && sp); cbn [andb];
    rewrite ?zlen_app, ?Hc, ?Hs, ?zlen_repeat_ch; lia.
Qed.

Lemma breakColumnIndex_unlimited t fo :
  fo_maxWidth fo = 0%Z -> breakColumnIndex t fo = Z.of_nat (columnCount t).
Proof.
  intros H. unfold breakColumnIndex, breakColumn. rewrite H. reflexivity.
Qed.

(** C3 (as amended): with [maxWidth = 0] and [keepSeparatorRatios] off, each
    column [i] has one width [w] — the largest content length over the
    non-separator rows, or 3 when that is smaller, so never below 3 — and
    every rendered cell of column [i]
    is [w] wide plus its padding: two spaces on header and data rows when
    [cellPadding] is on, and on the separator row only when [cellPadding]
    and [separatorPadding] are both on. *)
Theorem formatTable_unlimited_aligned (t : MarkdownTable) (fo : FormatOptions)
    (co : CompactOptions) (Hmax : fo_maxWidth fo = 0%Z)
    (Hratio : fo_keepSeparatorRatios fo = false) (i : nat) :
  let w := nth i (columnWidths t) 3%Z in
  (forall k row c, Z.of_nat k <> separatorIndex t -> nth_error (rows t) k = Some row ->
                   nth_error row i = Some c -> (zlen c <= w)%Z) /\
  (3 <= w)%Z /\
  (w = 3%Z \/ exists k row c, Z.of_nat k <> separatorIndex t /\
                              nth_error (rows t) k = Some row /\
                              nth_error row i = Some c /\ zlen c = w) /\
  (forall k line, nth_error (formatTable t fo co) k = Some line ->
   exists cells, line = frame cells /\
     forall r, nth_error cells i = Some r ->
       zlen r = (w + if (Z.of_nat k =? separatorIndex t)%Z
                     then (if fo_cellPadding fo && fo_separatorPadding fo then 2 else 0)
                     else (if fo_cellPadding fo then 2 else 0))%Z).
Proof.
  intros w.
  destruct (columnWidths_spec t) as [Hlen Hws].
  assert (Hin : forall row, In row (rows t) -> (i < length row)%nat ->
                nth_error (columnWidths t) i = Some w).
  { intros row Hrow Hi.
    apply In_nth_error in Hrow as (k & Hk).
    pose proof (row_length_le_columnCount t k row Hk).
    unfold w. apply nth_error_nth'. lia. }
  split; [|split; [|split]].
  - intros k row c Hk Hrow Hc.
    assert (Hi : (i < length row)%nat) by (apply nth_error_Some; congruence).
    pose proof (Hin row (nth_error_In _ _ Hrow) Hi) as Hw.
    destruct (Hws i w Hw) as (_ & Hle & _). eapply Hle; eauto.
  - destruct (nth_error (columnWidths t) i) as [w'|] eqn:Hw.
    + unfold w. rewrite (nth_error_nth _ _ _ Hw).
      destruct (Hws i w' Hw) as (H3 & _ & _). exact H3.
    + unfold w. rewrite nth_overflow by (apply nth_error_None; exact Hw). lia.
  - destruct (nth_error (columnWidths t) i) as [w'|] eqn:Hw.
    + unfold w. rewrite (nth_error_nth _ _ _ Hw).
      destruct (Hws i w' Hw) as (_ & _ & Hex). exact Hex.
    + left. unfold w. apply nth_overflow. apply nth_error_None. exact Hw.
  - intros k line Hline.
    rewrite nth_error_formatTable in Hline.
    destruct (nth_error (rows t) k) as [row|] eqn:Hrow; [|discriminate].
    injection Hline as <-.
    exists (format_row_cells t fo co (Z.of_nat k) row). split; [reflexivity|].
    intros r Hr.
    assert (Hi : (i < length row)%nat).
    { unfold format_row_cells in Hr.
      destruct (Z.of_nat k =? separatorIndex t)%Z;
        [unfold separator_cells in Hr; destruct (proportionalSeparatorWidths t fo)|
         destruct ((Z.of_nat k =? 0)%Z && (0 <? fo_maxWidth fo)%Z);
         [|destruct (Z.of_nat k =? 0)%Z; [|destruct (0 <? fo_maxWidth fo)%Z]]];
        unfold mapi in Hr; rewrite nth_error_mapi_from in Hr;
        destruct (nth_error row i) eqn:E; try discriminate;
        apply nth_error_Some; congruence. }
    pose proof (Hin row (nth_error_In _ _ Hrow) Hi) as Hw.
    destruct (Hws i w Hw) as (H3 & Hle & _).
    assert (Hbi : (Z.of_nat i < breakColumnIndex t fo)%Z).
    { rewrite breakColumnIndex_unlimited by exact Hmax.
      pose proof (row_length_le_columnCount t k row Hrow). lia. }
    assert (Hcw : num_or (js_at (columnWidths t) (Z.of_nat i)) 3 = w).
    { rewrite js_at_nat, Hw. simpl.
      destruct (w =? 0)%Z eqn:E; [apply Z.eqb_eq in E; lia | reflexivity]. }
    unfold format_row_cells in Hr.
    destruct (Z.of_nat k =? separatorIndex t)%Z eqn:Hks.
    + unfold separator_cells, proportionalSeparatorWidths in Hr.
      rewrite Hratio in Hr. simpl in Hr.
      unfold mapi in Hr. rewrite nth_error_mapi_from in Hr.
      destruct (nth_error row i) as [c|] eqn:Hc; [|discriminate].
      injection Hr as <-. simpl.
      apply Z.ltb_lt in Hbi. rewrite Hbi, Hcw.
      apply zlen_createSeparatorCell. exact H3.
    + assert (Hc' : forall c, nth_error row i = Some c -> (zlen c <= w)%Z).
      { intros c Hc. eapply Hle; eauto. apply Z.eqb_neq. exact Hks. }
      rewrite Hmax in Hr. simpl in Hr. rewrite andb_false_r in Hr.
      assert (E : (if (Z.of_nat k =? 0)%Z then mapi (full_width_cell t fo) row
                   else mapi (full_width_cell t fo) row) = mapi (full_width_cell t fo) row)
        by (destruct (Z.of_nat k =? 0)%Z; reflexivity).
      rewrite E in Hr.
      unfold mapi in Hr. rewrite nth_error_mapi_from in Hr.
      destruct (nth_error row i) as [c|] eqn:Hc; [|discriminate].
      injection Hr as <-. simpl.
      unfold full_width_cell.
      assert (Hcw' : num_or (js_at (columnWidths t) (Z.of_nat i)) (zlen c) = w).
      { rewrite js_at_nat, Hw. simpl.
        destruct (w =? 0)%Z eqn:E0; [apply Z.eqb_eq in E0; lia | reflexivity]. }
      rewrite Hcw', zlen_pad_if, zlen_padCell.
      pose proof (Hc' c eq_refl). lia.
Qed.

Lemma formatTable_unlimited_aligned_witness :
  let w := nth 2 (columnWidths sample_table) 3%Z in
  (forall k row c, Z.of_nat k <> separatorIndex sample_table ->
                   nth_error (rows sample_table) k = Some row ->
                   nth_error row 2 = Some c -> (zlen c <= w)%Z) /\
  (3 <= w)%Z /\
  (w = 3%Z \/ exists k row c, Z.of_nat k <> separatorIndex sample_table /\
                              nth_error (rows sample_table) k = Some row /\
                              nth_error row 2 = Some c /\ zlen c = w) /\
  (forall k line,
   nth_error (formatTable sample_table getDefaultFormatOptions getDefaultCompactOptions) k
     = Some line ->
   exists cells, line = frame cells /\
     forall r, nth_error cells 2 = Some r ->
       zlen r = (w + if (Z.of_nat k =? separatorIndex sample_table)%Z
                     then (if fo_cellPadding getDefaultFormatOptions
                              && fo_separatorPadding getDefaultFormatOptions then 2 else 0)
                     else (if fo_cellPadding getDefaultFormatOptions then 2 else 0))%Z).
Proof.
  apply formatTable_unlimited_aligned; vm_compute; reflexivity.
Defined.

Lemma formatTable_frames_rendered_cells t fo co :
  formatTable t fo co = map frame (rendered_cells t fo co).
Proof.
  unfold formatTable, rendered_cells, mapi.
  generalize 0%Z. induction (rows t) as [|r rs IH]; intros z; simpl; [reflexivity|].
  f_equal. apply IH.
Qed.

(** C3, the other option values: with [maxWidth = 0] the separator cells
    of the sample table are not as wide as the other cells of their column
    when [keepSeparatorRatios] is on (20 against 10 in column 0, the
    separator keeping the ratio of its old dashes), nor when [cellPadding]
    is on and [separatorPadding] off (8 against 10). *)
Lemma formatTable_separator_width_differs :
  fo_maxWidth ratio_options = 0%Z /\ fo_maxWidth nosep_padding_options = 0%Z /\
  column_cell_widths 0 sample_table ratio_options getDefaultCompactOptions
    = [Some 10%Z; Some 20%Z; Some 10%Z; Some 10%Z] /\
  column_cell_widths 0 sample_table nosep_padding_options getDefaultCompactOptions
    = [Some 10%Z; Some 8%Z; Some 10%Z; Some 10%Z] /\
  nth_error (formatTable sample_table ratio_options getDefaultCompactOptions) 1
    = Some (lit "| ------------------ | ------------- | ------------------------ |") /\
  nth_error (formatTable sample_table nosep_padding_options getDefaultCompactOptions) 1
    = Some (lit "|--------|---|--------------------------------------------|").
Proof. vm_compute. repeat split. Qed.

(* ------------------------------------------------------------------ *)
(** ** Trimming, splitting and joining *)

Lemma is_ws_PIPE : is_ws PIPE = false.
Proof. reflexivity. Qed.

Lemma is_ws_COLON : is_ws COLON = false.
Proof. reflexivity. Qed.

Lemma is_ws_DASH : is_ws DASH = false.
Proof. reflexivity. Qed.

Lemma is_ws_SPACE : is_ws SPACE = true.
Proof. reflexivity. Qed.

Lemma rstrip_all_ws ws : forallb is_ws ws = true -> rstrip ws = [].
Proof.
  induction ws as [|c ws IH]; simpl; [reflexivity|].
  intros H. apply andb_true_iff in H as [Hc Hw]. rewrite IH, Hc by exact Hw.
  reflexivity.
Qed.

Lemma rstrip_app_ws x ws : forallb is_ws ws = true -> rstrip (x ++ ws) = rstrip x.
Proof.
  intros Hw. induction x as [|c x IH]; simpl; [apply rstrip_all_ws, Hw|].
  rewrite IH. reflexivity.
Qed.

Lemma rstrip_cons_nonws a x : is_ws a = false -> rstrip (a :: x) = a :: rstrip x.
Proof. intros H. simpl. rewrite H. reflexivity. Qed.

Lemma rstrip_snoc_nonws x b : is_ws b = false -> rstrip (x ++ [b]) = x ++ [b].
Proof.
  intros Hb. induction x as [|c x IH]; simpl.
  - rewrite Hb. reflexivity.
  - rewrite IH. destruct x; simpl; rewrite andb_false_r; reflexivity.
Qed.

Lemma rstrip_split x : exists ws, x = rstrip x ++ ws /\ forallb is_ws ws = true.
Proof.
  induction x as [|c x (ws & E & Hw)]; simpl; [exists []; auto|].
  destruct (is_ws c && is_nil (rstrip x)) eqn:H.
  - apply andb_true_iff in H as [Hc Hn].
    destruct (rstrip x); [|discriminate].
    exists (c :: ws). simpl in E. rewrite E. simpl. rewrite Hc, Hw. auto.
  - exists ws. simpl. rewrite <- E. auto.
Qed.

Lemma rstrip_idem x : rstrip (rstrip x) = rstrip x.
Proof.
  destruct (rstrip_split x) as (ws & E & Hw).
  pose proof (rstrip_app_ws (rstrip x) ws Hw) as H.
  rewrite <- E in H. symmetry. exact H.
Qed.

Lemma lstrip_cases x : lstrip x = [] \/ exists a r, lstrip x = a :: r /\ is_ws a = false.
Proof.
  induction x as [|c x IH]; simpl; [auto|].
  destruct (is_ws c) eqn:Hc; [exact IH|]. right. eauto.
Qed.

Lemma lstrip_app x y :
  lstrip (x ++ y) = if is_nil (lstrip x) then lstrip y else lstrip x ++ y.
Proof.
  induction x as [|c x IH]; simpl; [reflexivity|].
  destruct (is_ws c); [exact IH|reflexivity].
Qed.

Lemma trim_idem x : trim (trim x) = trim x.
Proof.
  unfold trim. destruct (lstrip_cases x) as [-> | (a & r & -> & Ha)]; [reflexivity|].
  rewrite rstrip_cons_nonws by exact Ha. simpl. rewrite Ha.
  rewrite rstrip_cons_nonws by exact Ha. rewrite rstrip_idem. reflexivity.
Qed.

(** [(' ' + s + ' ').trim() === s.trim()]. *)
Lemma trim_pad s : trim ([SPACE] ++ s ++ [SPACE]) = trim s.
Proof.
  unfold trim. simpl. rewrite lstrip_app.
  destruct (lstrip_cases s) as [-> | (a & r & -> & Ha)]; [reflexivity|].
  simpl. apply (rstrip_app_ws (a :: r) [SPACE]). reflexivity.
Qed.

Lemma trim_ends a y b :
  is_ws a = false -> is_ws b = false -> trim (a :: y ++ [b]) = a :: y ++ [b].
Proof.
  intros Ha Hb. unfold trim. simpl. rewrite Ha.
  apply (rstrip_snoc_nonws (a :: y) b Hb).
Qed.

Lemma In_lstrip c x : In c (lstrip x) -> In c x.
Proof.
  induction x as [|d x IH]; simpl; [tauto|].
  destruct (is_ws d); simpl; auto.
Qed.

Lemma In_rstrip c x : In c (rstrip x) -> In c x.
Proof.
  induction x as [|d x IH]; simpl; [tauto|].
  destruct (is_ws d && is_nil (rstrip x)); simpl; [tauto|].
  intros [H|H]; auto.
Qed.

Lemma In_trim c x : In c (trim x) -> In c x.
Proof. unfold trim. intros H. apply In_lstrip, In_rstrip, H. Qed.

Lemma split_on_cons_ex d x : exists p ps, split_on d x = p :: ps.
Proof.
  induction x as [|c x (p & ps & IH)]; simpl; [eauto|].
  rewrite IH. destruct (Ascii.eqb c d); eauto.
Qed.

Lemma split_on_no_sep d x : Forall (fun p => ~ In d p) (split_on d x).
Proof.
  induction x as [|c x IH]; simpl.
  - constructor; [intros []|constructor].
  - destruct (split_on_cons_ex d x) as (p & ps & E). rewrite E in *.
    inversion IH as [|? ? Hp Hps]; subst.
    destruct (Ascii.eqb c d) eqn:Hc.
    + constructor; [intros []|constructor; assumption].
    + constructor; [|assumption].
      intros [H|H]; [subst; rewrite Ascii.eqb_refl in Hc; discriminate|exact (Hp H)].
Qed.

Lemma split_on_prefix d x y :
  ~ In d x ->
  split_on d (x ++ y) =
  match split_on d y with p :: ps => (x ++ p) :: ps | [] => [x] end.
Proof.
  intros Hx. destruct (split_on_cons_ex d y) as (q & qs & Ey).
  induction x as [|c x IH]; simpl.
  - rewrite Ey. reflexivity.
  - assert (Hc : Ascii.eqb c d = false).
    { destruct (Ascii.eqb c d) eqn:E; [|reflexivity].
      apply Ascii.eqb_eq in E. subst. exfalso. apply Hx. left. reflexivity. }
    rewrite Hc, IH by (intros H; apply Hx; right; exact H).
    rewrite Ey. reflexivity.
Qed.

Lemma split_join d xs :
  xs <> [] -> Forall (fun x => ~ In d x) xs -> split_on d (join [d] xs) = xs.
Proof.
  induction xs as [|x xs IH]; intros Hne Hf; [congruence|].
  inversion Hf as [|? ? Hx Hxs]; subst.
  destruct xs as [|y ys].
  - simpl. rewrite <- (app_nil_r x) at 1. rewrite split_on_prefix by exact Hx.
    simpl. rewrite app_nil_r. reflexivity.
  - change (join [d] (x :: y :: ys)) with (x ++ [d] ++ join [d] (y :: ys)).
    rewrite split_on_prefix by exact Hx.
    change ([d] ++ join [d] (y :: ys)) with (d :: join [d] (y :: ys)).
    cbn [split_on]. rewrite Ascii.eqb_refl, IH by (congruence || exact Hxs).
    rewrite app_nil_r. reflexivity.
Qed.

Lemma frame_shape xs : frame xs = PIPE :: join [PIPE] xs ++ [PIPE].
Proof. reflexivity. Qed.

Lemma trim_frame xs : trim (frame xs) = frame xs.
Proof. rewrite frame_shape. apply trim_ends; reflexivity. Qed.

Lemma isTableRow_frame xs : isTableRow (frame xs) = true.
Proof.
  unfold isTableRow. rewrite trim_frame, frame_shape. unfold startsWith, endsWith.
  simpl. rewrite rev_app_distr. reflexivity.
Qed.

Lemma parseTableRow_frame xs :
  xs <> [] -> Forall no_pipe xs -> parseTableRow (frame xs) = map trim xs.
Proof.
  intros Hne Hf. unfold parseTableRow. rewrite trim_frame, frame_shape.
  unfold slice_inner. simpl. rewrite removelast_last, split_join; auto.
Qed.

Lemma parseTableRow_no_pipe l : Forall no_pipe (parseTableRow l).
Proof.
  unfold parseTableRow. apply Forall_map.
  eapply Forall_impl; [|apply split_on_no_sep].
  intros x Hx H. apply Hx, In_trim, H.
Qed.

Lemma parseTableRow_trimmed l : Forall (fun c => trim c = c) (parseTableRow l).
Proof.
  unfold parseTableRow. apply Forall_map. apply Forall_forall. intros. apply trim_idem.
Qed.

Lemma parseTableRow_nonnil l : parseTableRow l <> [].
Proof.
  unfold parseTableRow. destruct (split_on_cons_ex PIPE (slice_inner (trim l))) as (p & ps & ->).
  discriminate.
Qed.

(* ------------------------------------------------------------------ *)
(** ** The separator-cell pattern *)

Lemma ws_not_colon c : is_ws c = true -> Ascii.eqb c COLON = false.
Proof.
  intros H. destruct (Ascii.eqb c COLON) eqn:E; [|reflexivity].
  apply Ascii.eqb_eq in E. subst. discriminate.
Qed.

Lemma ws_not_dash c : is_ws c = true -> Ascii.eqb c DASH = false.
Proof.
  intros H. destruct (Ascii.eqb c DASH) eqn:E; [|reflexivity].
  apply Ascii.eqb_eq in E. subst. discriminate.
Qed.

Lemma re_tail_app_ws x ws : forallb is_ws ws = true -> re_tail (x ++ ws) = re_tail x.
Proof. intros H. unfold re_tail. rewrite forallb_app, H, andb_true_r. reflexivity. Qed.

Lemma re_after_dashes_app_ws x ws :
  forallb is_ws ws = true -> re_after_dashes (x ++ ws) = re_after_dashes x.
Proof.
  intros H. unfold re_after_dashes. destruct x as [|c x]; cbn [app].
  - destruct ws as [|d ws]; [reflexivity|].
    simpl in H. apply andb_true_iff in H as [Hd Hw].
    rewrite ws_not_colon by exact Hd. unfold re_tail. cbn [forallb]. rewrite Hd, Hw.
    reflexivity.
  - destruct (Ascii.eqb c COLON); [apply re_tail_app_ws, H|].
    apply (re_tail_app_ws (c :: x)), H.
Qed.

Lemma re_dashes_app_ws x ws seen :
  forallb is_ws ws = true -> re_dashes (x ++ ws) seen = re_dashes x seen.
Proof.
  intros H. revert seen. induction x as [|c x IH]; intros seen; cbn [app re_dashes].
  - destruct ws as [|d ws]; [reflexivity|]. cbn [re_dashes].
    simpl in H. apply andb_true_iff in H as [Hd Hw].
    rewrite ws_not_dash by exact Hd. unfold re_after_dashes.
    rewrite ws_not_colon by exact Hd. unfold re_tail. cbn [forallb]. rewrite Hd, Hw.
    apply andb_true_r.
  - destruct (Ascii.eqb c DASH); [apply IH|].
    change (c :: x ++ ws) with ((c :: x) ++ ws).
    rewrite (re_after_dashes_app_ws (c :: x)) by exact H. reflexivity.
Qed.

Lemma re_colon_app_ws x ws :
  forallb is_ws ws = true -> re_colon (x ++ ws) = re_colon x.
Proof.
  intros H. unfold re_colon. destruct x as [|c x]; cbn [app].
  - destruct ws as [|d ws]; [reflexivity|]. simpl in *.
    apply andb_true_iff in H as [Hd _].
    rewrite ws_not_colon, ws_not_dash by exact Hd. reflexivity.
  - destruct (Ascii.eqb c COLON); [apply re_dashes_app_ws, H|].
    change (c :: x ++ ws) with ((c :: x) ++ ws).
    apply (re_dashes_app_ws (c :: x)), H.
Qed.

Lemma sep_cell_re_app_ws x ws :
  forallb is_ws ws = true -> sep_cell_re (x ++ ws) = sep_cell_re x.
Proof.
  intros H. induction x as [|c x IH]; cbn [app sep_cell_re].
  - induction ws as [|d ws IHw]; [reflexivity|]. simpl in *.
    apply andb_true_iff in H as [Hd Hw]. rewrite Hd. apply IHw, Hw.
  - destruct (is_ws c); [exact IH|].
    change (c :: x ++ ws) with ((c :: x) ++ ws). apply (re_colon_app_ws (c :: x)), H.
Qed.

Lemma sep_cell_re_lstrip x : sep_cell_re (lstrip x) = sep_cell_re x.
Proof.
  induction x as [|c x IH]; simpl; [reflexivity|].
  destruct (is_ws c) eqn:Hc; [exact IH|]. simpl. rewrite Hc. reflexivity.
Qed.

(** The pattern [/^\s*:?-+:?\s*$/] ignores the white space around a cell. *)
Lemma sep_cell_re_trim x : sep_cell_re (trim x) = sep_cell_re x.
Proof.
  unfold trim. destruct (rstrip_split (lstrip x)) as (ws & E & Hw).
  transitivity (sep_cell_re (lstrip x)); [|apply sep_cell_re_lstrip].
  rewrite E at 2. rewrite (sep_cell_re_app_ws _ _ Hw). reflexivity.
Qed.

Lemma isTableSeparator_cells l :
  isTableSeparator l = isTableRow l && forallb sep_cell_re (parseTableRow l).
Proof.
  unfold isTableSeparator, isTableRow, parseTableRow.
  destruct (startsWith (trim l) [PIPE]), (endsWith (trim l) [PIPE]); simpl; try reflexivity.
  induction (split_on PIPE (slice_inner (trim l))) as [|c cs IH]; simpl; [reflexivity|].
  rewrite sep_cell_re_trim, IH. reflexivity.
Qed.

Lemma re_dashes_repeat k x seen :
  re_dashes (repeat DASH k ++ x) seen = re_dashes x (seen || (0 <? k)%nat).
Proof.
  revert seen. induction k as [|k IH]; intros seen; simpl.
  - rewrite orb_false_r. reflexivity.
  - rewrite IH. simpl. rewrite orb_true_r. reflexivity.
Qed.

Lemma sep_core_facts l r k :
  (l && r = true -> (1 <= k)%nat) ->
  sep_cell_re (sep_core l r k) = true /\
  getAlignmentFromSeparator (sep_core l r k) = alignment_of l r /\
  no_pipe (sep_core l r k).
Proof.
  intros Hk. unfold sep_core. split; [|split].
  - destruct l; simpl.
    + rewrite re_dashes_repeat. simpl.
      destruct r; simpl; [|reflexivity].
      destruct k; [specialize (Hk eq_refl); lia|reflexivity].
    + rewrite re_dashes_repeat. simpl. destruct r; reflexivity.
  - unfold getAlignmentFromSeparator.
    rewrite trim_ends by (destruct l, r; reflexivity).
    unfold startsWith, endsWith. rewrite app_comm_cons, rev_app_distr.
    destruct l, r; reflexivity.
  - intros H. destruct H as [H|H]; [destruct l; discriminate|].
    apply in_app_or in H as [H|[H|[]]].
    + apply repeat_spec in H. discriminate.
    + destruct r; discriminate.
Qed.

Lemma getAlignmentFromSeparator_trim x :
  getAlignmentFromSeparator (trim x) = getAlignmentFromSeparator x.
Proof. unfold getAlignmentFromSeparator. rewrite trim_idem. reflexivity. Qed.

Lemma repeat_snoc_pred (a : ascii) n : (1 <= n)%nat -> repeat a n = repeat a (n - 1) ++ [a].
Proof.
  intros H. destruct n as [|m]; [lia|]. simpl. rewrite Nat.sub_0_r. apply repeat_cons.
Qed.

Lemma repeat_cons_pred (a : ascii) n : (1 <= n)%nat -> repeat a n = a :: repeat a (n - 1).
Proof. intros H. destruct n as [|m]; [lia|]. simpl. rewrite Nat.sub_0_r. reflexivity. Qed.

Lemma repeat_ends_pred (a : ascii) n :
  (2 <= n)%nat -> repeat a n = a :: repeat a (n - 2) ++ [a].
Proof.
  intros H. rewrite repeat_cons_pred by lia. f_equal.
  rewrite repeat_snoc_pred by lia. f_equal. f_equal. lia.
Qed.

(** The text of [createSeparatorCell] for the alignment its own cell
    denotes: one of the four shapes, padded with a space on both sides when
    both padding options are on. *)
Lemma createSeparatorCell_shape cell w cp sp :
  let l := startsWith (trim cell) [COLON] in
  let r := endsWith (trim cell) [COLON] in
  exists k, (l && r = true -> (1 <= k)%nat) /\
    createSeparatorCell cell w cp sp (Some (getAlignmentFromSeparator cell))
    = pad_if (cp && sp) (sep_core l r k).
Proof.
  intros l r. unfold createSeparatorCell, getAlignmentFromSeparator. fold l r.
  cbv zeta. fold l r.
  destruct (cp && sp); cbn [pad_if]; destruct l, r; cbn [andb orb];
    unfold repeat_ch, sep_core;
    match goal with
    | |- context [repeat DASH ?N] =>
        first [ exists N; split; [intros _; lia | reflexivity]
              | exists (N - 1)%nat; split;
                [intros _; lia | rewrite (repeat_snoc_pred DASH N) by lia; reflexivity]
              | exists (N - 1)%nat; split;
                [intros _; lia | rewrite (repeat_cons_pred DASH N) by lia; reflexivity]
              | exists (N - 2)%nat; split;
                [intros _; lia | rewrite (repeat_ends_pred DASH N) by lia; reflexivity] ]
    end.
Qed.

Lemma createSeparatorCell_own_alignment cell w cp sp :
  let s := createSeparatorCell cell w cp sp (Some (getAlignmentFromSeparator cell)) in
  sep_cell_re (trim s) = true /\
  getAlignmentFromSeparator (trim s) = getAlignmentFromSeparator cell /\
  no_pipe s.
Proof.
  intros s. subst s.
  pose proof (createSeparatorCell_shape cell w cp sp) as Hs. cbv zeta in Hs.
  destruct Hs as (k & Hk & ->).
  rewrite sep_cell_re_trim, getAlignmentFromSeparator_trim.
  set (l := startsWith (trim cell) [COLON]) in *.
  set (r := endsWith (trim cell) [COLON]) in *.
  assert (Ha : getAlignmentFromSeparator cell = alignment_of l r) by reflexivity.
  destruct (sep_core_facts l r k Hk) as (H1 & H2 & H3).
  rewrite Ha. destruct (cp && sp); cbn [pad_if]; [|auto].
  split; [|split].
  - cbn [app sep_cell_re]. rewrite is_ws_SPACE.
    rewrite (sep_cell_re_app_ws _ [SPACE]) by reflexivity. exact H1.
  - unfold getAlignmentFromSeparator. rewrite trim_pad. exact H2.
  - unfold no_pipe. intros H. destruct H as [H|H]; [discriminate|].
    rewrite app_nil_l in H. apply in_app_or in H as [H|[H|[]]]; [exact (H3 H)|discriminate].
Qed.

(* ------------------------------------------------------------------ *)
(** ** What the Locator reads from the lines of a table *)

Section LocatorContent.

Variable ign : bool.
Variable cbr : list (Z * Z).

Lemma collect_run_content i rest rws sep al rws' sep' al' j rest'' :
  collect_run ign cbr i rest rws sep al = (rws', sep', al', j, rest'') ->
  exists taken,
    rest = taken ++ rest'' /\ j = (i + length taken)%nat /\
    Forall (fun l => isTableRow l = true) taken /\
    rws' = rws ++ map parseTableRow taken /\
    (match rest'' with
     | [] => True
     | l :: _ => isTableRow l && negb (in_block ign cbr j) = false
     end) /\
    ((sep' = sep /\ al' = al /\
      (sep = (-1)%Z -> Forall (fun l => isTableSeparator l = false) taken)) \/
     (sep = (-1)%Z /\ exists k l,
        nth_error taken k = Some l /\ isTableSeparator l = true /\
        (forall k' l', (k' < k)%nat -> nth_error taken k' = Some l' ->
                       isTableSeparator l' = false) /\
        sep' = Z.of_nat (length rws + k) /\ al' = parseAlignments (parseTableRow l))).
Proof.
  revert i rws sep al.
  induction rest as [|l rest IH]; intros i rws sep al H; simpl in H.
  - inversion H; subst. exists []. simpl. rewrite app_nil_r, Nat.add_0_r.
    repeat split; auto.
  - destruct (isTableRow l && negb (in_block ign cbr i)) eqn:Hl.
    + apply andb_true_iff in Hl as [Hrow _].
      destruct ((sep =? -1)%Z && isTableSeparator l) eqn:Hs.
      * apply andb_true_iff in Hs as [Hs1 Hs2]. apply Z.eqb_eq in Hs1. subst sep.
        destruct (IH _ _ _ _ H) as (taken & E & Ej & Hf & Hr & Hrest & Hcase).
        exists (l :: taken). simpl. rewrite <- app_assoc in Hr. simpl in Hr.
        repeat split; auto; [rewrite E; reflexivity|lia|].
        destruct Hcase as [(-> & -> & _)|(Habs & _)]; [|rewrite length_app in Habs; simpl in Habs; lia].
        right. split; [reflexivity|]. exists 0%nat, l. repeat split; auto.
        -- intros k' l' Hk'. lia.
        -- rewrite length_app. simpl. lia.
      * destruct (IH _ _ _ _ H) as (taken & E & Ej & Hf & Hr & Hrest & Hcase).
        exists (l :: taken). simpl. rewrite <- app_assoc in Hr. simpl in Hr.
        repeat split; auto; [rewrite E; reflexivity|lia|].
        destruct Hcase as [(-> & -> & Hn)|(-> & k & l0 & Hk & Hsep & Hbefore & -> & ->)].
        -- left. repeat split; auto. intros ->.
           constructor; [|apply Hn; reflexivity].
           rewrite Z.eqb_refl in Hs. exact Hs.
        -- right. split; [reflexivity|]. exists (S k), l0. repeat split; auto.
           ++ intros k' l' Hk' Hl'. destruct k' as [|k']; simpl in Hl'.
              ** injection Hl' as <-. rewrite Z.eqb_refl in Hs. exact Hs.
              ** apply (Hbefore k'); [lia|exact Hl'].
           ++ rewrite length_app. simpl. f_equal. lia.
    + inversion H; subst. exists []. simpl. rewrite app_nil_r, Nat.add_0_r.
      repeat split; auto.
Qed.

Lemma first_separator_at_1 taken rws' sep' al' :
  rws' = map parseTableRow taken ->
  Forall (fun l => isTableRow l = true) taken ->
  ((sep' = (-1)%Z /\ al' = []) \/
   (exists k l,
      nth_error taken k = Some l /\ isTableSeparator l = true /\
      (forall k' l', (k' < k)%nat -> nth_error taken k' = Some l' ->
                     isTableSeparator l' = false) /\
      sep' = Z.of_nat (0 + k) /\ al' = parseAlignments (parseTableRow l))) ->
  (2 <=? length rws')%nat && (sep' =? 1)%Z = true ->
  located (mkTable 0 0 rws' sep' al').
Proof.
  intros Hr Hf Hcase Hok.
  apply andb_true_iff in Hok as [H2 H1]. apply Nat.leb_le in H2. apply Z.eqb_eq in H1.
  destruct Hcase as [(-> & _)|(k & l1 & Hk & Hsep & Hbefore & Hs & Ha)]; [discriminate|].
  assert (k = 1%nat) as -> by lia.
  subst rws'. rewrite length_map in H2.
  destruct taken as [|l0 [|l1' ls]]; simpl in H2; try lia.
  simpl in Hk. injection Hk as <-.
  exists l0, l1', ls. simpl. repeat split; auto.
  apply (Hbefore 0%nat l0); [lia|reflexivity].
Qed.

Lemma scan_tables_located f i rest : Forall located (scan_tables ign cbr f i rest).
Proof.
  revert i rest. induction f as [|f IH]; intros i rest; simpl; [constructor|].
  destruct rest as [|l rest]; [constructor|].
  destruct (in_block ign cbr i) eqn:Hb; [apply IH|].
  destruct (isTableRow l) eqn:Hr; [|apply IH].
  destruct (collect_run ign cbr i (l :: rest) [] (-1)%Z []) as
      [[[[rws sep] al] j] rest''] eqn:Hc.
  apply Forall_app. split; [|apply IH].
  change (match length rws with S (S _) => true | _ => false end)
    with (2 <=? length rws)%nat.
  destruct ((2 <=? length rws)%nat && (sep =? 1)%Z) eqn:Hok; [|constructor].
  constructor; [|constructor].
  destruct (collect_run_content _ _ _ _ _ _ _ _ _ _ Hc)
    as (taken & _ & _ & Hf & Hrws & _ & Hcase).
  assert (Hl : located (mkTable 0 0 rws sep al)).
  { apply (first_separator_at_1 taken); auto.
    destruct Hcase as [(-> & -> & _)|(_ & Hc2)]; [left; auto|right; exact Hc2]. }
  destruct Hl as (l0 & l1 & ls & H1 & H2 & H3 & H4 & H5 & H6).
  exists l0, l1, ls. simpl in *. repeat split; auto.
Qed.

End LocatorContent.

Lemma findTables_located lines ign t :
  In t (findTables lines ign) -> located t.
Proof.
  intros H. unfold findTables in H.
  eapply Forall_forall; [apply scan_tables_located|exact H].
Qed.

(* ------------------------------------------------------------------ *)
(** ** Compacting a located table *)

Lemma Forall2_mapi_from_nth {A B} (P : B -> A -> Prop) (f : Z -> A -> B) i xs :
  (forall n x, nth_error xs n = Some x -> P (f (i + Z.of_nat n)%Z x) x) ->
  Forall2 P (mapi_from f i xs) xs.
Proof.
  revert i. induction xs as [|x xs IH]; intros i H; simpl; constructor.
  - specialize (H 0%nat x eq_refl). rewrite Z.add_0_r in H. exact H.
  - apply IH. intros n y Hy. specialize (H (S n) y Hy).
    replace (i + 1 + Z.of_nat n)%Z with (i + Z.of_nat (S n))%Z by lia. exact H.
Qed.

Lemma Forall2_mapi_nth {A B} (P : B -> A -> Prop) (f : Z -> A -> B) xs :
  (forall n x, nth_error xs n = Some x -> P (f (Z.of_nat n) x) x) ->
  Forall2 P (mapi f xs) xs.
Proof. intros H. apply Forall2_mapi_from_nth. intros n x Hx. apply H, Hx. Qed.

Lemma Forall2_nonnil {A B} (P : A -> B -> Prop) xs ys :
  Forall2 P xs ys -> ys <> [] -> xs <> [].
Proof. intros H Hy. destruct H; congruence. Qed.

Lemma Forall2_map_eq {A B C} (P : A -> B -> Prop) (f : A -> C) (g : B -> C) xs ys :
  (forall x y, P x y -> f x = g y) -> Forall2 P xs ys -> map f xs = map g ys.
Proof. intros H HF. induction HF; simpl; f_equal; auto. Qed.

Lemma padded_no_pipe c : no_pipe c -> no_pipe ([SPACE] ++ c ++ [SPACE]).
Proof.
  unfold no_pipe. intros Hc H. cbn [app In] in H. destruct H as [H|H]; [discriminate|].
  apply in_app_or in H as [H|[H|[]]]; [exact (Hc H)|discriminate].
Qed.

Lemma nth_error_compactTable t co k :
  nth_error (compactTable t co) k =
  option_map (fun row =>
    let isSeparator := (Z.of_nat k =? separatorIndex t)%Z in
    let headerWidths := map zlen (val_or (js_at (rows t) 0) []) in
    match isSeparator,
          (if co_keepSeparatorRatios co && (0 <=? separatorIndex t)%Z then
             Some (calculateProportionalSeparatorWidths
                     (val_or (js_at (rows t) (separatorIndex t)) [])
                     (fold_left (fun acc w =>
                        (acc + if co_alignSeparatorWithHeader co then Z.max 3 w else 3)%Z)
                        headerWidths 0%Z))
           else None) with
    | true, Some sw =>
        frame (mapi (fun colIndex cell =>
                       createSeparatorCell cell (num_or (js_at sw colIndex) 3)
                         (co_cellPadding co) (co_separatorPadding co)
                         (js_at (alignments t) colIndex)) row)
    | _, _ => compactTableRow row isSeparator co (Some headerWidths) (Some (alignments t))
    end) (nth_error (rows t) k).
Proof. unfold compactTable, mapi. rewrite nth_error_mapi_from. reflexivity. Qed.

Lemma compactTable_length t co : length (compactTable t co) = length (rows t).
Proof. unfold compactTable, mapi. apply length_mapi_from. Qed.

(** Every line [compactTable] writes for a located table is framed by
    pipes; a non-separator line parses back to the row it came from, and
    the separator line parses to separator cells carrying the alignments of
    the original separator cells. *)
Lemma compactTable_lines t co :
  located t ->
  (forall k line, nth_error (compactTable t co) k = Some line ->
     exists cells, line = frame cells /\ cells <> [] /\ Forall no_pipe cells) /\
  (forall k line row, k <> 1%nat -> nth_error (compactTable t co) k = Some line ->
     nth_error (rows t) k = Some row -> parseTableRow line = row) /\
  (forall line row, nth_error (compactTable t co) 1 = Some line ->
     nth_error (rows t) 1 = Some row ->
     Forall2 (fun s c => sep_cell_re s = true /\
                         getAlignmentFromSeparator s = getAlignmentFromSeparator c)
             (parseTableRow line) row).
Proof.
  intros (l0 & l1 & ls & Hrows & Hf & Hsep & H0 & H1 & Hal).
  (* the separator line *)
  assert (Hsepline : forall row, nth_error (rows t) 1 = Some row ->
    forall W : Z -> Z,
    Forall2 sep_cell_ok
      (mapi (fun colIndex cell =>
               createSeparatorCell cell (W colIndex) (co_cellPadding co)
                 (co_separatorPadding co) (js_at (alignments t) colIndex)) row) row).
  { intros row Hrow W. rewrite Hrows in Hrow. simpl in Hrow. injection Hrow as <-.
    apply Forall2_mapi_nth. intros n x Hx.
    rewrite Hal, js_at_nat. unfold parseAlignments. rewrite nth_error_map, Hx. simpl.
    apply createSeparatorCell_own_alignment. }
  assert (Hrow_ok : forall k row, nth_error (rows t) k = Some row ->
            row <> [] /\ Forall no_pipe row /\ map trim row = row).
  { intros k row Hk. rewrite Hrows, nth_error_map in Hk.
    destruct (nth_error (l0 :: l1 :: ls) k) as [l|]; [|discriminate].
    injection Hk as <-. split; [apply parseTableRow_nonnil|split; [apply parseTableRow_no_pipe|]].
    rewrite <- map_id. apply map_ext_in. intros c Hc.
    pose proof (parseTableRow_trimmed l) as HT. rewrite Forall_forall in HT. auto. }
  (* a line, by the row index *)
  assert (Hline : forall k line, nth_error (compactTable t co) k = Some line ->
    exists row, nth_error (rows t) k = Some row /\
      ((k <> 1%nat /\ line = frame (if co_cellPadding co
                                    then map (fun c => [SPACE] ++ c ++ [SPACE]) row
                                    else row)) \/
       (k = 1%nat /\ exists W, line = frame (mapi (fun colIndex cell =>
               createSeparatorCell cell (W colIndex) (co_cellPadding co)
                 (co_separatorPadding co) (js_at (alignments t) colIndex)) row)))).
  { intros k line Hk. rewrite nth_error_compactTable in Hk.
    destruct (nth_error (rows t) k) as [row|] eqn:Hr; [|discriminate].
    exists row. split; [reflexivity|]. simpl in Hk. injection Hk as <-.
    rewrite Hsep. destruct (Z.of_nat k =? 1)%Z eqn:Ek.
    - apply Z.eqb_eq in Ek. right. split; [lia|].
      destruct (co_keepSeparatorRatios co && (0 <=? 1)%Z).
      + eexists. reflexivity.
      + unfold compactTableRow.
        eexists (fun index => match co_alignSeparatorWithHeader co with
                              | true => num_or (js_at (map zlen (val_or (js_at (rows t) 0) []))
                                                      index) 3
                              | false => 3%Z end).
        reflexivity.
    - apply Z.eqb_neq in Ek. left. split; [lia|].
      destruct (co_keepSeparatorRatios co && (0 <=? 1)%Z);
        unfold compactTableRow; destruct (co_cellPadding co); reflexivity. }
  split; [|split].
  - intros k line Hk. destruct (Hline k line Hk) as (row & Hr & [(_ & ->)|(-> & W & ->)]).
    + destruct (Hrow_ok k row Hr) as (Hne & Hnp & _).
      exists (if co_cellPadding co then map (fun c => [SPACE] ++ c ++ [SPACE]) row else row).
      split; [reflexivity|]. destruct (co_cellPadding co); [|auto].
      split; [destruct row; [congruence|discriminate]|].
      apply Forall_map. eapply Forall_impl; [|exact Hnp]. apply padded_no_pipe.
    + assert (H2 := Hsepline row Hr W).
      destruct (Hrow_ok 1%nat row Hr) as (Hne & _ & _).
      eexists. split; [reflexivity|]. split; [eapply Forall2_nonnil; eauto|].
      clear -H2. induction H2 as [|s c ss cs (_ & _ & Hs) _ IH]; constructor; auto.
  - intros k line row Hk1 Hk Hr.
    destruct (Hline k line Hk) as (row' & Hr' & [(_ & ->)|(Habs & _)]); [|congruence].
    rewrite Hr in Hr'. injection Hr' as <-.
    destruct (Hrow_ok k row Hr) as (Hne & Hnp & Htr).
    destruct (co_cellPadding co).
    + rewrite parseTableRow_frame.
      * rewrite map_map. rewrite <- Htr at 2. apply map_ext. intros c. apply trim_pad.
      * destruct row; [congruence|discriminate].
      * apply Forall_map. eapply Forall_impl; [|exact Hnp]. apply padded_no_pipe.
    + rewrite parseTableRow_frame by assumption. exact Htr.
  - intros line row Hk Hr.
    destruct (Hline 1%nat line Hk) as (row' & Hr' & [(Habs & _)|(_ & W & ->)]); [congruence|].
    rewrite Hr in Hr'. injection Hr' as <-.
    assert (H2 := Hsepline row Hr W).
    destruct (Hrow_ok 1%nat row Hr) as (Hne & _ & _).
    rewrite parseTableRow_frame.
    + clear -H2. induction H2 as [|s c ss cs (Hs1 & Hs2 & _) _ IH]; constructor; auto.
    + eapply Forall2_nonnil; eauto.
    + clear -H2. induction H2 as [|s c ss cs (_ & _ & Hs) _ IH]; constructor; auto.
Qed.

Lemma code_block_scan_frames i ls :
  Forall (fun l => exists cells, l = frame cells) ls ->
  code_block_scan i ls false (-1)%Z [] = [].
Proof.
  revert i. induction ls as [|l ls IH]; intros i H; [reflexivity|].
  inversion H as [|? ? (cells & ->) Hls]; subst.
  change (code_block_scan i (frame cells :: ls) false (-1)%Z [])
    with (if startsWith (trim (frame cells)) (lit "```")
             || startsWith (trim (frame cells)) (lit "~~~")
          then code_block_scan (S i) ls true (Z.of_nat i) (firstn 3 (trim (frame cells)))
          else code_block_scan (S i) ls false (-1)%Z []).
  rewrite trim_frame, frame_shape. apply IH, Hls.
Qed.

Lemma scan_tables_nil ign cbr f i : scan_tables ign cbr f i [] = [].
Proof. destruct f; reflexivity. Qed.

Lemma scan_tables_step ign cbr f i l rest :
  scan_tables ign cbr (S f) i (l :: rest) =
  if in_block ign cbr i then scan_tables ign cbr f (S i) rest
  else if isTableRow l then
    match collect_run ign cbr i (l :: rest) [] (-1)%Z [] with
    | (rws, sep, al, j, rest'') =>
        (if (2 <=? length rws)%nat && (sep =? 1)%Z
         then [mkTable (Z.of_nat i) (Z.of_nat j - 1) rws sep al]
         else []) ++ scan_tables ign cbr f j rest''
    end
  else scan_tables ign cbr f (S i) rest.
Proof. reflexivity. Qed.

(** Re-locating the lines of a run of table rows, none of them inside a
    code block, whose first separator is the second line. *)
Lemma findTables_run lines ign l0 l1 ls :
  lines = l0 :: l1 :: ls ->
  Forall (fun l => exists cells, l = frame cells) lines ->
  isTableSeparator l0 = false -> isTableSeparator l1 = true ->
  findTables lines ign =
  [mkTable 0 (Z.of_nat (length lines) - 1) (map parseTableRow lines) 1
           (parseAlignments (parseTableRow l1))].
Proof.
  intros Hl Hfr H0 H1.
  assert (Hrow : Forall (fun l => isTableRow l = true) lines).
  { eapply Forall_impl; [|exact Hfr]. intros l (cells & ->). apply isTableRow_frame. }
  unfold findTables.
  set (R := if ign then findCodeBlockRanges lines else []).
  assert (HR : forall i, in_block ign R i = false).
  { intros i. unfold in_block, R. destruct ign; [|reflexivity].
    unfold findCodeBlockRanges. rewrite code_block_scan_frames by exact Hfr. reflexivity. }
  destruct (collect_run ign R 0 lines [] (-1)%Z []) as [[[[rws sep] al] j] rest''] eqn:Hc.
  destruct (collect_run_content _ _ _ _ _ _ _ _ _ _ _ _ Hc)
    as (taken & E & Ej & Hf & Hrws & Hrest & Hcase).
  assert (rest'' = []) as ->.
  { destruct rest'' as [|l rest]; [reflexivity|].
    assert (Hin : In l lines) by (rewrite E; apply in_or_app; right; left; reflexivity).
    rewrite Forall_forall in Hrow. rewrite Hrow, HR in Hrest by exact Hin. discriminate. }
  rewrite app_nil_r in E. subst taken. simpl in Hrws. subst rws.
  assert (Hsep : sep = 1%Z /\ al = parseAlignments (parseTableRow l1)).
  { destruct Hcase as [(-> & _ & Hn)|(_ & k & l & Hk & Hs & Hb & -> & ->)].
    - specialize (Hn eq_refl). rewrite Hl in Hn.
      inversion Hn as [|? ? _ Hn']. inversion Hn'. congruence.
    - rewrite Hl in Hk, Hb. destruct k as [|[|k]].
      + simpl in Hk. congruence.
      + simpl in Hk. injection Hk as <-. auto.
      + specialize (Hb 1%nat l1 ltac:(lia) eq_refl). congruence. }
  destruct Hsep as [-> ->].
  subst lines. change (length (l0 :: l1 :: ls)) with (S (length (l1 :: ls))).
  rewrite scan_tables_step, HR.
  rewrite Forall_forall in Hrow. rewrite Hrow by (left; reflexivity).
  rewrite Hc, scan_tables_nil, app_nil_r. rewrite Ej. reflexivity.
Qed.

(** C4: compacting a table the Locator found and locating tables again in
    the compacted lines gives exactly one table, with as many rows, its
    separator at index 1 and the same alignments; every row but the
    separator row comes back cell for cell (trimmed) as it was.  The
    separator row itself is regenerated: its cells are new runs of dashes
    and colons, so its text is not preserved (see the counterexample
    below). *)
Theorem compactTable_relocate (lines : list str) (ign ign' : bool)
    (t : MarkdownTable) (co : CompactOptions) (Ht : In t (findTables lines ign)) :
  exists t',
    findTables (compactTable t co) ign' = [t'] /\
    length (rows t') = length (rows t) /\
    separatorIndex t' = 1%Z /\
    alignments t' = alignments t /\
    (forall k, k <> 1%nat -> nth_error (rows t') k = nth_error (rows t) k).
Proof.
  pose proof (findTables_located _ _ _ Ht) as Hloc.
  destruct (compactTable_lines t co Hloc) as (Hfr & Hnon & Hsepl).
  destruct Hloc as (l0 & l1 & ls & Hrows & Hf & Hsep & H0 & H1 & Hal).
  assert (Hlen := compactTable_length t co).
  assert (Hfr' : Forall (fun l => exists cells, l = frame cells) (compactTable t co)).
  { apply Forall_forall. intros l Hl. apply In_nth_error in Hl as (k & Hk).
    destruct (Hfr k l Hk) as (cells & -> & _). eauto. }
  destruct (compactTable t co) as [|m0 [|m1 ms]] eqn:Ec;
    rewrite Hrows in Hlen; simpl in Hlen; try lia.
  assert (Hr0 : parseTableRow m0 = parseTableRow l0).
  { apply (Hnon 0%nat); [lia|reflexivity|rewrite Hrows; reflexivity]. }
  assert (Hs1 := Hsepl m1 (parseTableRow l1) eq_refl ltac:(rewrite Hrows; reflexivity)).
  assert (Hrow_m : forall m, In m (m0 :: m1 :: ms) -> isTableRow m = true).
  { intros m Hm. rewrite Forall_forall in Hfr'. destruct (Hfr' m Hm) as (cells & ->).
    apply isTableRow_frame. }
  assert (Hm0 : isTableSeparator m0 = false).
  { rewrite isTableSeparator_cells, Hr0, Hrow_m by (left; reflexivity).
    rewrite isTableSeparator_cells in H0.
    inversion Hf as [|? ? Hl0 _]. rewrite Hl0 in H0. exact H0. }
  assert (Hm1 : isTableSeparator m1 = true).
  { rewrite isTableSeparator_cells, Hrow_m by (right; left; reflexivity). simpl.
    apply forallb_forall. intros s Hs. clear -Hs Hs1.
    induction Hs1 as [|s' c ss cs (Hs' & _) _ IH]; destruct Hs; subst; auto. }
  rewrite (findTables_run _ ign' m0 m1 ms eq_refl Hfr' Hm0 Hm1).
  eexists. split; [reflexivity|]. cbn [rows separatorIndex alignments].
  split; [|split; [reflexivity|split]].
  - rewrite length_map, Hrows. simpl. lia.
  - rewrite Hal. unfold parseAlignments.
    eapply Forall2_map_eq; [|exact Hs1]. intros x y (_ & H). exact H.
  - intros k Hk. rewrite nth_error_map.
    destruct (nth_error (m0 :: m1 :: ms) k) as [line|] eqn:El.
    + destruct (nth_error (rows t) k) as [row|] eqn:Er.
      * simpl. f_equal. apply (Hnon k line row Hk); [exact El|exact Er].
      * exfalso. apply nth_error_None in Er. assert (k < length (m0 :: m1 :: ms))%nat
          by (apply nth_error_Some; congruence).
        rewrite Hrows in Er. simpl in *. lia.
    + simpl. symmetry. apply nth_error_None in El. apply nth_error_None.
      rewrite Hrows. simpl in *. lia.
Qed.

Lemma compactTable_relocate_witness :
  exists t',
    findTables (compactTable compact_test_table getDefaultCompactOptions) true = [t'] /\
    length (rows t') = length (rows compact_test_table) /\
    separatorIndex t' = 1%Z /\
    alignments t' = alignments compact_test_table /\
    (forall k, k <> 1%nat -> nth_error (rows t') k = nth_error (rows compact_test_table) k).
Proof.
  apply (compactTable_relocate compact_test_lines false true).
  vm_compute. left. reflexivity.
Defined.

(** C4, the separator row: compacting the repository's test table under the
    default options rewrites its separator cells [-----------] as
    [-------], and locating the table again reads the new cells. *)
Lemma compactTable_separator_regenerated :
  compactTable compact_test_table getDefaultCompactOptions =
    [lit "| Header1 | Header2 |"; lit "| ------- | ------- |"; lit "| Cell1 | Cell2 |"] /\
  nth_error (rows compact_test_table) 1 = Some [lit "-----------"; lit "-----------"] /\
  map (fun t' => nth_error (rows t') 1)
      (findTables (compactTable compact_test_table getDefaultCompactOptions) false)
    = [Some [lit "-------"; lit "-------"]].
Proof. vm_compute. split; [|split]; reflexivity. Qed.

(* ------------------------------------------------------------------ *)
(** ** CSV round trip *)

Lemma parseCsv_default text :
  parseCsv text getDefaultCsvOptions = csv_table (csv_rows text).
Proof. reflexivity. Qed.

Lemma filteri_from_all {A} (p : Z -> bool) i (xs : list A) :
  (forall j, (i <= j)%Z -> p j = true) -> filteri_from p i xs = xs.
Proof.
  revert i. induction xs as [|x xs IH]; intros i Hp; simpl; [reflexivity|].
  rewrite Hp by lia. f_equal. apply IH. intros j Hj. apply Hp. lia.
Qed.

Lemma tableToCsv_csv_table R :
  tableToCsv (csv_table R) getDefaultCsvOptions = join [NL] (map csv_line R).
Proof.
  destruct R as [|h rest]; [reflexivity|].
  unfold tableToCsv, csv_table. cbn [csv_includeHeader getDefaultCsvOptions rows
    separatorIndex filteri_from].
  change (negb (0 =? 1)%Z) with true. change (negb (0 + 1 =? 1)%Z) with false.
  cbn iota. rewrite filteri_from_all by (intros j Hj; apply negb_true_iff, Z.eqb_neq; lia).
  reflexivity.
Qed.

Lemma filter_Forall_id {A} (p : A -> bool) l :
  Forall (fun x => p x = true) l -> filter p l = l.
Proof.
  induction 1 as [|x l Hx _ IH]; simpl; [reflexivity|]. rewrite Hx, IH. reflexivity.
Qed.

Lemma lstrip_nil_ws x : lstrip x = [] -> forallb is_ws x = true.
Proof.
  induction x as [|c x IH]; simpl; [auto|].
  destruct (is_ws c); simpl; [exact IH|discriminate].
Qed.

Lemma trim_nil_ws x : trim x = [] -> forallb is_ws x = true.
Proof.
  unfold trim. destruct (lstrip_cases x) as [E | (a & r & E & Ha)].
  - intros _. apply lstrip_nil_ws, E.
  - rewrite E, rstrip_cons_nonws by exact Ha. discriminate.
Qed.

Lemma rstrip_fixed_trim x : rstrip x = x -> x <> [] -> trim x <> [].
Proof.
  intros Hx Hne Ht. apply trim_nil_ws in Ht.
  rewrite rstrip_all_ws in Hx by exact Ht. congruence.
Qed.

Lemma rstrip_length x : (length (rstrip x) <= length x)%nat.
Proof.
  destruct (rstrip_split x) as (ws & E & _). rewrite E at 2. rewrite length_app. lia.
Qed.

Lemma drop_cr_fixed x : rstrip x = x -> drop_cr x = x.
Proof.
  intros Hx. unfold drop_cr. destruct (rev x) as [|c r] eqn:E; [reflexivity|].
  destruct (Ascii.eqb c CR) eqn:Hc; [|reflexivity].
  apply Ascii.eqb_eq in Hc. subst c.
  assert (Ex : x = rev r ++ [CR]).
  { apply (f_equal (@rev ascii)) in E. rewrite rev_involutive in E. exact E. }
  rewrite Ex, (rstrip_app_ws (rev r) [CR]) in Hx by reflexivity.
  pose proof (rstrip_length (rev r)) as Hl. rewrite Hx, length_app in Hl. simpl in Hl. lia.
Qed.

Lemma drop_cr_but_last_fixed ls :
  Forall (fun l => rstrip l = l) ls -> drop_cr_but_last ls = ls.
Proof.
  induction ls as [|l ls IH]; intros H; [reflexivity|]. inversion H; subst.
  destruct ls as [|l' ls']; [reflexivity|].
  change (drop_cr_but_last (l :: l' :: ls')) with (drop_cr l :: drop_cr_but_last (l' :: ls')).
  rewrite drop_cr_fixed, IH by assumption. reflexivity.
Qed.

Lemma In_drop_cr z x : In z (drop_cr x) -> In z x.
Proof.
  unfold drop_cr. destruct (rev x) as [|c r] eqn:E; [auto|].
  destruct (Ascii.eqb c CR); [|auto]. intros H.
  apply in_rev. rewrite E. right. apply in_rev. exact H.
Qed.

Lemma In_drop_cr_but_last p ps :
  In p (drop_cr_but_last ps) -> exists p', In p' ps /\ (forall z, In z p -> In z p').
Proof.
  induction ps as [|q ps IH]; [intros []|].
  destruct ps as [|q' ps'].
  - intros [<-|[]]. exists q. split; [left; reflexivity|auto].
  - intros [<-|H].
    + exists q. split; [left; reflexivity|]. exact (fun z => In_drop_cr z q).
    + destruct (IH H) as (p' & Hp' & Hz). exists p'. split; [right; exact Hp'|exact Hz].
Qed.

Lemma rstrip_app_nonnil x y : rstrip y <> [] -> rstrip (x ++ y) = x ++ rstrip y.
Proof.
  intros Hy. induction x as [|c x IH]; [reflexivity|].
  cbn [app rstrip]. rewrite IH. destruct (x ++ rstrip y) eqn:E.
  - apply app_eq_nil in E as [_ E]. contradiction.
  - cbn [is_nil]. rewrite andb_false_r. reflexivity.
Qed.

Lemma includes_single_false x a : includes x [a] = false -> ~ In a x.
Proof.
  induction x as [|c x IH]; [intros _ []|].
  cbn [includes prefixb]. intros H. apply orb_false_iff in H as [H1 H2].
  rewrite andb_true_r in H1.
  intros [E|E]; [subst; rewrite Ascii.eqb_refl in H1; discriminate|exact (IH H2 E)].
Qed.

Lemma csv_cells_cons c r d cur q :
  csv_cells (c :: r) d cur q =
  if Ascii.eqb c QUOTE then
    match r with
    | c' :: r' =>
        if q && Ascii.eqb c' QUOTE
        then csv_cells r' d (cur ++ [QUOTE]) q
        else csv_cells r d cur (negb q)
    | [] => csv_cells r d cur (negb q)
    end
  else if str_eqb [c] d && negb q
  then cur :: csv_cells r d [] q
  else csv_cells r d (cur ++ [c]) q.
Proof. reflexivity. Qed.

Lemma csv_cells_quote_open xs d cur :
  csv_cells (QUOTE :: xs) d cur false = csv_cells xs d cur true.
Proof. rewrite csv_cells_cons, Ascii.eqb_refl. destruct xs; reflexivity. Qed.

Lemma csv_cells_plain c r cur :
  ~ In QUOTE c -> ~ In COMMA c ->
  csv_cells (c ++ r) [COMMA] cur false = csv_cells r [COMMA] (cur ++ c) false.
Proof.
  revert cur. induction c as [|x c IH]; intros cur Hq Hd.
  - rewrite app_nil_r. reflexivity.
  - cbn [app]. rewrite csv_cells_cons.
    assert (Ex : Ascii.eqb x QUOTE = false)
      by (apply Ascii.eqb_neq; intros ->; apply Hq; left; reflexivity).
    assert (Ed : str_eqb [x] [COMMA] = false).
    { cbn [str_eqb]. rewrite andb_true_r.
      apply Ascii.eqb_neq; intros ->; apply Hd; left; reflexivity. }
    rewrite Ex, Ed. cbn [andb].
    rewrite IH by (intros H; first [apply Hq; right; exact H | apply Hd; right; exact H]).
    rewrite <- app_assoc. reflexivity.
Qed.

Lemma csv_cells_escaped d c r cur :
  hd_error r <> Some QUOTE ->
  csv_cells (escape_quotes c ++ QUOTE :: r) d cur true = csv_cells r d (cur ++ c) false.
Proof.
  intros Hr. revert cur. induction c as [|x c IH]; intros cur.
  - cbn [escape_quotes flat_map app]. rewrite csv_cells_cons, Ascii.eqb_refl, app_nil_r.
    destruct r as [|y r]; [reflexivity|].
    assert (Ey : Ascii.eqb y QUOTE = false)
      by (apply Ascii.eqb_neq; intros ->; apply Hr; reflexivity).
    rewrite Ey. reflexivity.
  - unfold escape_quotes. cbn [flat_map]. fold (escape_quotes c).
    rewrite <- app_assoc.
    destruct (Ascii.eqb x QUOTE) eqn:Ex.
    + apply Ascii.eqb_eq in Ex. subst x. cbn [app].
      rewrite csv_cells_cons, Ascii.eqb_refl. cbn [andb].
      rewrite IH, <- app_assoc. reflexivity.
    + cbn [app]. rewrite csv_cells_cons, Ex. cbn [negb]. rewrite andb_false_r.
      rewrite IH, <- app_assoc. reflexivity.
Qed.

Lemma csv_cell_dflt c :
  csv_cell getDefaultCsvOptions c =
  if includes c [COMMA] || includes c [NL] || includes c [QUOTE]
  then [QUOTE] ++ escape_quotes c ++ [QUOTE] else c.
Proof. reflexivity. Qed.

Lemma csv_cells_cell c r cur :
  hd_error r <> Some QUOTE ->
  csv_cells (csv_cell getDefaultCsvOptions c ++ r) [COMMA] cur false =
  csv_cells r [COMMA] (cur ++ c) false.
Proof.
  intros Hr. rewrite csv_cell_dflt.
  destruct (includes c [COMMA] || includes c [NL] || includes c [QUOTE]) eqn:Hq.
  - rewrite <- !app_assoc. cbn [app].
    rewrite csv_cells_quote_open. apply csv_cells_escaped, Hr.
  - apply orb_false_iff in Hq as [Hq Hq3]. apply orb_false_iff in Hq as [Hq1 _].
    apply csv_cells_plain; apply includes_single_false; assumption.
Qed.

Lemma COMMA_not_QUOTE : COMMA <> QUOTE.
Proof. discriminate. Qed.

Lemma parseCsvLine_csv_line row :
  row <> [] -> parseCsvLine (csv_line row) [COMMA] = row.
Proof.
  unfold parseCsvLine, csv_line. induction row as [|c row IH]; intros Hne; [congruence|].
  destruct row as [|d row].
  - cbn [map join]. rewrite <- (app_nil_r (csv_cell _ c)).
    rewrite csv_cells_cell by discriminate. reflexivity.
  - change (join [COMMA] (map (csv_cell getDefaultCsvOptions) (c :: d :: row)))
      with (csv_cell getDefaultCsvOptions c ++
            [COMMA] ++ join [COMMA] (map (csv_cell getDefaultCsvOptions) (d :: row))).
    rewrite csv_cells_cell
      by (cbn [app hd_error]; intros H; apply COMMA_not_QUOTE; congruence).
    cbn [app]. rewrite csv_cells_cons.
    change (Ascii.eqb COMMA QUOTE) with false. change (str_eqb [COMMA] [COMMA]) with true.
    cbn [andb negb]. rewrite IH by discriminate. reflexivity.
Qed.

Lemma csv_cells_chars z xs d cur q :
  ~ In z xs -> ~ In z cur -> z <> QUOTE ->
  csv_cells xs d cur q <> [] /\ Forall (fun cell => ~ In z cell) (csv_cells xs d cur q).
Proof.
  intros Hx Hc Hz. remember (length xs) as n eqn:En.
  revert xs cur q Hx Hc En. induction n as [n IH] using lt_wf_ind.
  intros [|c r] cur q Hx Hc En.
  - split; [discriminate|constructor; [exact Hc|constructor]].
  - rewrite csv_cells_cons. simpl in En.
    assert (Hr : ~ In z r) by (intros H; apply Hx; right; exact H).
    destruct (Ascii.eqb c QUOTE).
    + destruct r as [|c' r'].
      * apply (IH (length (@nil ascii))); [simpl; lia|exact Hr|exact Hc|reflexivity].
      * destruct (q && Ascii.eqb c' QUOTE).
        -- apply (IH (length r')); [simpl in En; lia| |  |reflexivity].
           ++ intros H; apply Hr; right; exact H.
           ++ intros H; apply in_app_or in H as [H|[H|[]]]; [exact (Hc H)|].
              apply Hz. symmetry. exact H.
        -- apply (IH (length (c' :: r'))); [lia|exact Hr|exact Hc|reflexivity].
    + destruct (str_eqb [c] d && negb q).
      * destruct (IH (length r) ltac:(lia) r [] q Hr (fun H => H) eq_refl) as [_ Hf].
        split; [discriminate|constructor; assumption].
      * apply (IH (length r)); [lia|exact Hr| |reflexivity].
        intros H; apply in_app_or in H as [H|[H|[]]]; [exact (Hc H)|].
        apply Hx. left. exact H.
Qed.

Lemma csv_rows_shape text :
  Forall (fun row => row <> [] /\ Forall (fun c => trim c = c /\ ~ In NL c) row)
         (csv_rows text).
Proof.
  unfold csv_rows. apply Forall_forall. intros row Hrow.
  apply in_map_iff in Hrow as (line & <- & Hline).
  apply filter_In in Hline as [Hline _].
  assert (Hnl : ~ In NL line).
  { unfold split_lines in Hline. apply In_drop_cr_but_last in Hline as (p' & Hp' & Hz).
    pose proof (split_on_no_sep NL text) as Hs. rewrite Forall_forall in Hs.
    intros H. exact (Hs p' Hp' (Hz NL H)). }
  destruct (csv_cells_chars NL line [COMMA] [] false Hnl (fun H => H) ltac:(discriminate))
    as [Hne Hf].
  unfold parseCsvLine. split.
  - destruct (csv_cells line [COMMA] [] false); [congruence|discriminate].
  - apply Forall_map. eapply Forall_impl; [|exact Hf].
    intros c Hc. split; [apply trim_idem|]. intros H. apply Hc, In_trim, H.
Qed.

Lemma In_escape_quotes z c : In z (escape_quotes c) -> z = QUOTE \/ In z c.
Proof.
  unfold escape_quotes. intros H. apply in_flat_map in H as (x & Hx & Hz).
  destruct (Ascii.eqb x QUOTE).
  - left. destruct Hz as [<-|[<-|[]]]; reflexivity.
  - right. destruct Hz as [<-|[]]. exact Hx.
Qed.

Lemma In_csv_line z row :
  In z (csv_line row) -> z = COMMA \/ z = QUOTE \/ exists c, In c row /\ In z c.
Proof.
  unfold csv_line. induction row as [|c row IH]; [intros []|].
  assert (Hc : In z (csv_cell getDefaultCsvOptions c) -> z = QUOTE \/ In z c).
  { rewrite csv_cell_dflt.
    destruct (includes c [COMMA] || includes c [NL] || includes c [QUOTE]); [|auto].
    intros H. apply in_app_or in H as [[<-|[]]|H]; [auto|].
    apply in_app_or in H as [H|[<-|[]]]; [apply In_escape_quotes, H|auto]. }
  destruct row as [|d row].
  - intros H. destruct (Hc H) as [E|E]; [auto|]. right; right. exists c. split; [left|]; auto.
  - change (join [COMMA] (map (csv_cell getDefaultCsvOptions) (c :: d :: row)))
      with (csv_cell getDefaultCsvOptions c ++
            [COMMA] ++ join [COMMA] (map (csv_cell getDefaultCsvOptions) (d :: row))).
    intros H. apply in_app_or in H as [H|[<-|H]].
    + destruct (Hc H) as [E|E]; [auto|]. right; right. exists c. split; [left|]; auto.
    + auto.
    + destruct (IH H) as [E|[E|(c' & Hc' & Hz)]]; [auto|auto|].
      right; right. exists c'. split; [right|]; auto.
Qed.

Lemma csv_line_shape row :
  row <> [] -> Forall (fun c => trim c = c) row ->
  rstrip (csv_line row) = csv_line row /\ (csv_line row = [] -> row = [[]]).
Proof.
  unfold csv_line. induction row as [|c row IH]; intros Hne Hf; [congruence|].
  inversion Hf as [|? ? Htc Hrest]; subst.
  destruct row as [|d row].
  - cbn [map join]. rewrite csv_cell_dflt.
    destruct (includes c [COMMA] || includes c [NL] || includes c [QUOTE]).
    + rewrite app_assoc. split; [apply rstrip_snoc_nonws; reflexivity|].
      intros H. apply app_eq_nil in H as [_ H]. discriminate.
    + split.
      * assert (E : rstrip (trim c) = trim c) by (unfold trim; apply rstrip_idem).
        rewrite Htc in E. exact E.
      * intros ->. reflexivity.
  - change (join [COMMA] (map (csv_cell getDefaultCsvOptions) (c :: d :: row)))
      with (csv_cell getDefaultCsvOptions c ++
            [COMMA] ++ join [COMMA] (map (csv_cell getDefaultCsvOptions) (d :: row))).
    destruct (IH ltac:(discriminate) Hrest) as [Hr _].
    split.
    + rewrite rstrip_app_nonnil; cbn [app]; rewrite rstrip_cons_nonws, Hr by reflexivity;
        [reflexivity|discriminate].
    + intros H. apply app_eq_nil in H as [_ H]. discriminate.
Qed.

Lemma csv_rows_join R :
  Forall (fun row => row <> [] /\ row <> [[]] /\
                     Forall (fun c => trim c = c /\ ~ In NL c) row) R ->
  csv_rows (join [NL] (map csv_line R)) = R.
Proof.
  intros HR. destruct R as [|r0 R'] eqn:ER; [reflexivity|]. rewrite <- ER in *.
  assert (Hl : Forall (fun l => rstrip l = l /\ l <> []) (map csv_line R)).
  { apply Forall_map. eapply Forall_impl; [|exact HR].
    intros row (Hne & Hnn & Hc).
    destruct (csv_line_shape row Hne) as [Hr He];
      [eapply Forall_impl; [|exact Hc]; intros c [H _]; exact H|].
    split; [exact Hr|intros H; exact (Hnn (He H))]. }
  unfold csv_rows, split_lines. rewrite split_join.
  - rewrite drop_cr_but_last_fixed by (eapply Forall_impl; [|exact Hl]; intros l [H _]; exact H).
    rewrite filter_Forall_id.
    + rewrite map_map. rewrite <- (map_id R) at 2. apply map_ext_in.
      intros row Hrow. rewrite Forall_forall in HR. destruct (HR row Hrow) as (Hne & _ & Hc).
      rewrite parseCsvLine_csv_line by exact Hne.
      rewrite <- (map_id row) at 2. apply map_ext_in. intros c Hin.
      rewrite Forall_forall in Hc. apply (Hc c Hin).
    + eapply Forall_impl; [|exact Hl]. intros l [Hr Hne].
      apply negb_true_iff. destruct (trim l) eqn:Et; [|reflexivity].
      exfalso. exact (rstrip_fixed_trim l Hr Hne Et).
  - subst R. discriminate.
  - apply Forall_map. eapply Forall_impl; [|exact HR].
    intros row (_ & _ & Hc) H. apply In_csv_line in H as [E|[E|(c & Hin & Hz)]].
    + discriminate E.
    + discriminate E.
    + rewrite Forall_forall in Hc. exact (proj2 (Hc c Hin) Hz).
Qed.

(** C5, amended: under the default options, emitting the table of
    [parseCsv text] as CSV and parsing that again gives the same table
    (header row kept, the synthetic separator stripped and rebuilt), as long
    as no row of the table is a single empty cell. *)
Theorem parseCsv_tableToCsv_roundtrip text :
  ~ In [[]] (rows (parseCsv text getDefaultCsvOptions)) ->
  parseCsv (tableToCsv (parseCsv text getDefaultCsvOptions) getDefaultCsvOptions)
           getDefaultCsvOptions
  = parseCsv text getDefaultCsvOptions.
Proof.
  rewrite !parseCsv_default. intros H.
  rewrite tableToCsv_csv_table. f_equal. apply csv_rows_join.
  pose proof (csv_rows_shape text) as Hs.
  apply Forall_forall. intros row Hrow. rewrite Forall_forall in Hs.
  destruct (Hs row Hrow) as [Hne Hc]. split; [exact Hne|split; [|exact Hc]].
  intros ->. apply H. unfold csv_table.
  destruct (csv_rows text) as [|r0 R']; [destruct Hrow|].
  cbn [rows]. destruct Hrow as [<-|Hin]; [left; reflexivity|right; right; exact Hin].
Qed.

Lemma parseCsv_tableToCsv_roundtrip_witness :
  ~ In [[]] (rows (parseCsv csv_sample_text getDefaultCsvOptions)) /\
  parseCsv (tableToCsv (parseCsv csv_sample_text getDefaultCsvOptions) getDefaultCsvOptions)
           getDefaultCsvOptions
  = parseCsv csv_sample_text getDefaultCsvOptions.
Proof.
  assert (H : ~ In [[]] (rows (parseCsv csv_sample_text getDefaultCsvOptions))).
  { vm_compute. intros [H|[H|[H|[H|[]]]]]; discriminate H. }
  split; [exact H|apply parseCsv_tableToCsv_roundtrip, H].
Defined.

(** C5, a row holding one empty cell: the text [h], line feed, lone quote
    parses to the rows [h], [---] and one empty cell; [tableToCsv] writes
    that last row as an empty line, which [parseCsv] drops. *)
Lemma parseCsv_tableToCsv_drops_empty_row :
  rows (parseCsv csv_lone_quote_text getDefaultCsvOptions) =
    [[lit "h"]; [lit "---"]; [[]]] /\
  rows (parseCsv (tableToCsv (parseCsv csv_lone_quote_text getDefaultCsvOptions)
                             getDefaultCsvOptions) getDefaultCsvOptions) =
    [[lit "h"]; [lit "---"]].
Proof. vm_compute. split; reflexivity. Qed.

(* ------------------------------------------------------------------ *)
(** ** Row and column operations *)

(** C6, amended: at the header row or the separator row, [removeRow] and
    [moveRow] return [null] and [duplicateRow] returns [null] without
    throwing; [insertRow] has no such guard and returns a table whenever the
    table has a header row. *)
Theorem row_mutators_reject_header_separator t i d cells :
  (i = 0 \/ i = separatorIndex t)%Z ->
  removeRow t i = None /\ moveRow t i d = None /\ duplicateRow t i = Returns None /\
  (rows t <> [] -> exists t', insertRow t i cells = Returns t').
Proof.
  intros H.
  assert (G : ((i =? 0)%Z || (i =? separatorIndex t)%Z) = true).
  { destruct H as [-> | ->]; [reflexivity|]. apply orb_true_iff. right. apply Z.eqb_refl. }
  unfold removeRow, moveRow, duplicateRow. rewrite G.
  split; [reflexivity|split; [reflexivity|split; [reflexivity|]]].
  intros Hne. unfold insertRow. destruct (rows t); [congruence|eauto].
Qed.

Lemma row_mutators_reject_header_separator_witness :
  (0 = 0 \/ 0 = separatorIndex sample_table)%Z /\
  removeRow sample_table 0 = None /\ moveRow sample_table 0 MoveDown = None /\
  duplicateRow sample_table 0 = Returns None /\
  (rows sample_table <> [] -> exists t', insertRow sample_table 0 None = Returns t').
Proof.
  split; [left; reflexivity|].
  apply row_mutators_reject_header_separator. left. reflexivity.
Defined.

(** C6, [insertRow] at the header row and at the separator row: both calls
    return a table, the first one with a new empty row above the header. *)
Lemma insertRow_not_rejected :
  (exists t', insertRow sample_table 0 None = Returns t' /\
              hd_error (rows t') = Some [[]; []; []]) /\
  (exists t', insertRow sample_table 1 None = Returns t').
Proof. vm_compute. split; eexists; [split; reflexivity|reflexivity]. Qed.

(** C7, amended: when the target column of [moveColumn] is out of bounds
    of the header row, the input table itself is returned; there is no
    rejection value besides it. *)
Theorem moveColumn_out_of_bounds t c d row0 rs :
  rows t = row0 :: rs ->
  ((match d with MoveLeft => c - 1 | MoveRight => c + 1 end) < 0 \/
   Z.of_nat (length row0) <= (match d with MoveLeft => c - 1 | MoveRight => c + 1 end))%Z ->
  moveColumn t c d = Returns t.
Proof.
  intros Hr H. unfold moveColumn. rewrite Hr.
  destruct d; cbn iota zeta in *;
    (destruct H as [H|H];
     [rewrite (proj2 (Z.ltb_lt _ _) H)
     |rewrite (proj2 (Z.leb_le _ _) H), orb_true_r]); reflexivity.
Qed.

Lemma moveColumn_out_of_bounds_witness :
  rows sample_table = hd [] (rows sample_table) :: tl (rows sample_table) /\
  ((2 + 1) < 0 \/ Z.of_nat (length (hd [] (rows sample_table))) <= 2 + 1)%Z /\
  moveColumn sample_table 2 MoveRight = Returns sample_table.
Proof.
  assert (Hr : rows sample_table = hd [] (rows sample_table) :: tl (rows sample_table))
    by (vm_compute; reflexivity).
  assert (Hb : ((2 + 1) < 0 \/ Z.of_nat (length (hd [] (rows sample_table))) <= 2 + 1)%Z)
    by (right; vm_compute; intros H; discriminate H).
  split; [exact Hr|split; [exact Hb|]].
  exact (moveColumn_out_of_bounds sample_table 2 MoveRight _ _ Hr Hb).
Defined.

(** C7, no rejection value: moving the first column of a table with two
    equal columns to the right is carried out, moving the second one to the
    right is out of bounds, and both calls return the input table. *)
Lemma moveColumn_no_sentinel :
  moveColumn twin_table 0 MoveRight = Returns twin_table /\
  moveColumn twin_table 1 MoveRight = Returns twin_table.
Proof. vm_compute. split; reflexivity. Qed.

(* ------------------------------------------------------------------ *)
(** ** Sorting *)

Lemma filter_none {A} (f : A -> bool) l :
  forallb (fun c => negb (f c)) l = true -> filter f l = [].
Proof.
  induction l as [|x l IH]; [reflexivity|]. cbn [forallb filter].
  intros H. apply andb_true_iff in H as [Hx Hl].
  apply negb_true_iff in Hx. rewrite Hx. apply IH, Hl.
Qed.

(** C8, amended: the numeric key of a cell is [parseFloat] of the cell with
    every character other than digits, ['.'] and ['-'] deleted ([0] for
    [NaN] and [0]); text before and after a block free of those characters
    does not change the key, so it is the value of the leading numeral of
    the block only when the cell has a single such block. *)
Theorem numericKey_single_block p r s :
  forallb (fun c => negb (is_num_char c)) p = true ->
  forallb (fun c => negb (is_num_char c)) s = true ->
  numericKey (p ++ r ++ s) = numericKey r.
Proof.
  intros Hp Hs. unfold numericKey.
  rewrite !filter_app, (filter_none _ p Hp), (filter_none _ s Hs), app_nil_r.
  reflexivity.
Qed.

Lemma numericKey_single_block_witness :
  forallb (fun c => negb (is_num_char c)) (lit "USD ") = true /\
  forallb (fun c => negb (is_num_char c)) (lit " net") = true /\
  numericKey (lit "USD " ++ lit "-12.50" ++ lit " net") = numericKey (lit "-12.50").
Proof.
  split; [reflexivity|split; [reflexivity|]].
  apply numericKey_single_block; reflexivity.
Defined.

(** C8, two numerals in a cell: the key of ['1 of 2'] is [12], not the
    value [1] of its first numeral, and an ascending numeric sort places it
    after ['5']. *)
Lemma numericKey_joins_numerals :
  (numericKey (lit "1 of 2") == 12)%Q /\ (firstRunKey (lit "1 of 2") == 1)%Q /\
  (0 < sort_compare (fun _ _ => 0%Z) (fun _ => None) numeric_sort_options
                    [lit "1 of 2"] [lit "5"])%Q.
Proof. vm_compute. split; [reflexivity|split; reflexivity]. Qed.

(** C9: the [keepHeaderRow] flag of [sortTable] has no effect; whatever the
    host's [localeCompare], date parsing and sort, the result is the header
    row, the separator row, then the sorted data rows. *)
Theorem sortTable_keepHeaderRow_no_effect localeCompare dateGetTime array_sort t o :
  sortTable localeCompare dateGetTime array_sort t (with_keepHeaderRow o true) =
  sortTable localeCompare dateGetTime array_sort t (with_keepHeaderRow o false) /\
  rows (sortTable localeCompare dateGetTime array_sort t o) =
    val_or (js_at (rows t) 0) []
    :: val_or (js_at (rows t) (separatorIndex t)) []
    :: array_sort (sort_compare localeCompare dateGetTime o)
         (filteri_from (fun i => negb (i =? 0)%Z && negb (i =? separatorIndex t)%Z)
                       0 (rows t)).
Proof.
  split.
  - destruct o. reflexivity.
  - unfold sortTable. destruct (so_keepHeaderRow o); reflexivity.
Qed.

(* ------------------------------------------------------------------ *)
(** ** Row numbers *)

Lemma is_ws_lower c : is_ws (lower_char c) = is_ws c.
Proof. destruct c as [[] [] [] [] [] [] [] []]; reflexivity. Qed.

Lemma lstrip_lower x : lstrip (toLowerCase x) = toLowerCase (lstrip x).
Proof.
  unfold toLowerCase. induction x as [|c x IH]; [reflexivity|].
  cbn [map lstrip]. rewrite is_ws_lower. destruct (is_ws c); [exact IH|reflexivity].
Qed.

Lemma rstrip_lower x : rstrip (toLowerCase x) = toLowerCase (rstrip x).
Proof.
  unfold toLowerCase. induction x as [|c x IH]; [reflexivity|].
  cbn [map rstrip]. rewrite IH, is_ws_lower.
  destruct (rstrip x); destruct (is_ws c); reflexivity.
Qed.

Lemma trim_lower x : trim (toLowerCase x) = toLowerCase (trim x).
Proof. unfold trim. rewrite lstrip_lower, rstrip_lower. reflexivity. Qed.

Lemma str_eqb_refl x : str_eqb x x = true.
Proof. induction x as [|c x IH]; [reflexivity|]. cbn [str_eqb]. rewrite Ascii.eqb_refl. exact IH. Qed.

Lemma existsb_str_eqb_In x l : In x l -> existsb (str_eqb x) l = true.
Proof. intros H. apply existsb_exists. exists x. split; [exact H|apply str_eqb_refl]. Qed.

(** C10: for a table made of a header row and a separator row only, whose
    first header cell, trimmed and lowercased, is a known row-number header
    or the lowercased configured header text, [hasRowNumbers] holds (there is
    no data row to check) and [addRowNumbers] overwrites the first column:
    the header cell becomes the header text and the separator cell the
    alignment marker, no column being inserted. *)
Theorem addRowNumbers_overwrites_without_data t o h0 hs s0 ss :
  rows t = [h0 :: hs; s0 :: ss] ->
  separatorIndex t = 1%Z ->
  In (toLowerCase (trim h0))
     [lit "#"; lit "no"; lit "no."; lit "nr"; lit "nr."; lit "num"; lit "row";
      toLowerCase (rn_headerText o)] ->
  hasRowNumbers t (rn_headerText o) = true /\
  rows (addRowNumbers t o) =
    [rn_headerText o :: hs; alignment_marker (rn_alignment o) :: ss] /\
  alignments (addRowNumbers t o) = rn_alignment o :: skipn 1 (alignments t).
Proof.
  intros Hr Hs Hin.
  assert (Hh : hasRowNumbers t (rn_headerText o) = true).
  { unfold hasRowNumbers. rewrite Hr.
    change (js_at [h0 :: hs; s0 :: ss] 0) with (Some (h0 :: hs)).
    cbn [val_or skipn forallb].
    change (js_at (h0 :: hs) 0) with (Some h0). cbn [option_map].
    rewrite trim_lower, existsb_str_eqb_In by exact Hin. reflexivity. }
  split; [exact Hh|].
  unfold addRowNumbers. rewrite Hh, Hr, Hs. split; reflexivity.
Qed.

Lemma addRowNumbers_overwrites_without_data_witness :
  rows numbered_header_table = [[lit " No. "; lit "Name"]; [lit "---"; lit "---"]] /\
  separatorIndex numbered_header_table = 1%Z /\
  In (toLowerCase (trim (lit " No. ")))
     [lit "#"; lit "no"; lit "no."; lit "nr"; lit "nr."; lit "num"; lit "row";
      toLowerCase (rn_headerText getDefaultRowNumberOptions)] /\
  hasRowNumbers numbered_header_table (rn_headerText getDefaultRowNumberOptions) = true /\
  rows (addRowNumbers numbered_header_table getDefaultRowNumberOptions) =
    [rn_headerText getDefaultRowNumberOptions :: [lit "Name"];
     alignment_marker (rn_alignment getDefaultRowNumberOptions) :: [lit "---"]] /\
  alignments (addRowNumbers numbered_header_table getDefaultRowNumberOptions) =
    rn_alignment getDefaultRowNumberOptions :: skipn 1 (alignments numbered_header_table).
Proof.
  assert (Hin : In (toLowerCase (trim (lit " No. ")))
     [lit "#"; lit "no"; lit "no."; lit "nr"; lit "nr."; lit "num"; lit "row";
      toLowerCase (rn_headerText getDefaultRowNumberOptions)])
    by (vm_compute; right; right; left; reflexivity).
  split; [reflexivity|split; [reflexivity|split; [exact Hin|]]].
  apply (addRowNumbers_overwrites_without_data numbered_header_table
           getDefaultRowNumberOptions (lit " No. ") [lit "Name"] (lit "---") [lit "---"]);
    [reflexivity|reflexivity|exact Hin].
Defined.

(* ------------------------------------------------------------------ *)
(** ** Inserting, removing and aligning columns *)

Lemma splice_start_in len ci :
  (0 <= ci)%Z -> (Z.to_nat ci <= len)%nat -> splice_start len ci = Z.to_nat ci.
Proof.
  intros H0 Hl. unfold splice_start.
  destruct (ci <? 0)%Z eqn:E; [apply Z.ltb_lt in E; lia|]. lia.
Qed.

Lemma splice_remove1_insert {A} (xs : list A) ci x :
  (0 <= ci)%Z -> (ci <= Z.of_nat (length xs))%Z ->
  splice_remove1 (splice_insert xs ci x) ci = xs.
Proof.
  intros H0 Hl. unfold splice_remove1, splice_insert.
  rewrite (splice_start_in (length xs)) by lia.
  assert (Hk : length (firstn (Z.to_nat ci) xs) = Z.to_nat ci)
    by (rewrite length_firstn; lia).
  rewrite length_app, Hk. cbn [length].
  rewrite (splice_start_in (Z.to_nat ci + S (length (skipn (Z.to_nat ci) xs)))) by lia.
  rewrite firstn_app, Hk, Nat.sub_diag, firstn_O, app_nil_r, firstn_firstn, Nat.min_id.
  rewrite skipn_app, Hk. replace (S (Z.to_nat ci) - Z.to_nat ci)%nat with 1%nat by lia.
  rewrite skipn_all2 by lia. simpl. apply firstn_skipn.
Qed.

Lemma map_splice_insert {A B} (f : A -> B) xs ci x :
  map f (splice_insert xs ci x) = splice_insert (map f xs) ci (f x).
Proof.
  unfold splice_insert. rewrite length_map, map_app, firstn_map, skipn_map. reflexivity.
Qed.

Lemma splice_insert_inj {A} (xs : list A) ci x y :
  splice_insert xs ci x = splice_insert xs ci y -> x = y.
Proof. unfold splice_insert. intros H. apply app_inv_head in H. congruence. Qed.

Lemma getAlignmentFromSeparator_alignment_marker a :
  getAlignmentFromSeparator (alignment_marker a) =
  match a with ANone => ALeft | _ => a end.
Proof. destruct a; reflexivity. Qed.

Lemma getAlignmentFromSeparator_setColumnAlignment_marker a :
  getAlignmentFromSeparator (setColumnAlignment_marker a) = a.
Proof. destruct a; reflexivity. Qed.

(** [xs[i] = v] inside the array. *)
Lemma js_set_in {A} (h : A) xs i v :
  (0 <= i)%Z -> (i < Z.of_nat (length xs))%Z ->
  js_set h xs i v = firstn (Z.to_nat i) xs ++ v :: skipn (S (Z.to_nat i)) xs.
Proof.
  intros H0 Hl. unfold js_set.
  destruct (i <? 0)%Z eqn:E; [apply Z.ltb_lt in E; lia|].
  destruct (Z.to_nat i <? length xs)%nat eqn:E'; [reflexivity|].
  apply Nat.ltb_ge in E'. lia.
Qed.

Lemma js_set_in_length {A} (h : A) xs i v :
  (0 <= i)%Z -> (i < Z.of_nat (length xs))%Z -> length (js_set h xs i v) = length xs.
Proof.
  intros H0 Hl. rewrite js_set_in by assumption.
  rewrite length_app, length_firstn. cbn [length]. rewrite length_skipn. lia.
Qed.

Lemma nth_error_js_set_in {A} (h : A) xs i v n :
  (0 <= i)%Z -> (i < Z.of_nat (length xs))%Z ->
  nth_error (js_set h xs i v) n = if (n =? Z.to_nat i)%nat then Some v else nth_error xs n.
Proof.
  intros H0 Hl. rewrite js_set_in by assumption.
  assert (Hk : length (firstn (Z.to_nat i) xs) = Z.to_nat i) by (rewrite length_firstn; lia).
  destruct (Nat.lt_total n (Z.to_nat i)) as [Hn|[Hn|Hn]].
  - rewrite nth_error_app1 by lia. rewrite nth_error_firstn.
    destruct (n <? Z.to_nat i)%nat eqn:E; [|apply Nat.ltb_ge in E; lia].
    destruct (n =? Z.to_nat i)%nat eqn:E'; [apply Nat.eqb_eq in E'; lia|reflexivity].
  - subst n. rewrite nth_error_app2 by lia. rewrite Hk, Nat.sub_diag, Nat.eqb_refl. reflexivity.
  - rewrite nth_error_app2 by lia. rewrite Hk.
    destruct (n =? Z.to_nat i)%nat eqn:E'; [apply Nat.eqb_eq in E'; lia|].
    replace (n - Z.to_nat i)%nat with (S (n - S (Z.to_nat i))) by lia. cbn [nth_error].
    rewrite nth_error_skipn. f_equal. lia.
Qed.

Lemma map_js_set_in {A B} (f : A -> B) (h : A) xs i v :
  (0 <= i)%Z -> (i < Z.of_nat (length xs))%Z ->
  map f (js_set h xs i v) = js_set (f h) (map f xs) i (f v).
Proof.
  intros H0 Hl. rewrite !js_set_in by (rewrite ?length_map; assumption).
  rewrite map_app, firstn_map, skipn_map. reflexivity.
Qed.

Lemma js_at_js_set_in {A} (h : A) xs i v k :
  (0 <= i)%Z -> (i < Z.of_nat (length xs))%Z ->
  js_at (js_set h xs i v) k = if (k =? i)%Z then Some v else js_at xs k.
Proof.
  intros H0 Hl. unfold js_at.
  destruct (k <? 0)%Z eqn:Ek.
  - apply Z.ltb_lt in Ek. destruct (k =? i)%Z eqn:E; [apply Z.eqb_eq in E; lia|reflexivity].
  - apply Z.ltb_ge in Ek. rewrite nth_error_js_set_in by assumption.
    destruct (k =? i)%Z eqn:E.
    + apply Z.eqb_eq in E. subst. rewrite Nat.eqb_refl. reflexivity.
    + apply Z.eqb_neq in E. destruct (Z.to_nat k =? Z.to_nat i)%nat eqn:E';
        [apply Nat.eqb_eq in E'; lia|reflexivity].
Qed.

Lemma js_at_splice_insert {A} (xs : list A) ci x :
  (0 <= ci)%Z -> (ci <= Z.of_nat (length xs))%Z -> js_at (splice_insert xs ci x) ci = Some x.
Proof.
  intros H0 Hl. unfold js_at, splice_insert.
  destruct (ci <? 0)%Z eqn:E; [apply Z.ltb_lt in E; lia|].
  rewrite splice_start_in by lia.
  rewrite nth_error_app2 by (rewrite length_firstn; lia).
  rewrite length_firstn. replace (Z.to_nat ci - Nat.min (Z.to_nat ci) (length xs))%nat
    with 0%nat by lia. reflexivity.
Qed.

Lemma map_mapi_from_id {A B} (g : B -> A) (f : Z -> A -> B) i xs :
  (forall j x, In x xs -> g (f j x) = x) -> map g (mapi_from f i xs) = xs.
Proof.
  revert i. induction xs as [|x xs IH]; intros i H; [reflexivity|].
  cbn [mapi_from map]. rewrite H by (left; reflexivity).
  f_equal. apply IH. intros j y Hy. apply H. right. exact Hy.
Qed.

(** Removing the column just inserted, at the same index, gives the table
    back, when the index is between 0 and the length of every row and of
    the alignments. *)
Theorem removeColumn_insertColumn t ci h d a :
  (0 <= ci)%Z ->
  Forall (fun row => (ci <= Z.of_nat (length row))%Z) (rows t) ->
  (ci <= Z.of_nat (length (alignments t)))%Z ->
  removeColumn (insertColumn t ci h d a) ci = t.
Proof.
  intros H0 Hrows Hal. destruct t as [s e rs sep al].
  unfold removeColumn, insertColumn. cbn [rows alignments startLine endLine separatorIndex].
  cbn [rows alignments] in Hrows, Hal.
  rewrite splice_remove1_insert by assumption. f_equal.
  apply map_mapi_from_id. intros j row Hin.
  rewrite Forall_forall in Hrows. specialize (Hrows row Hin).
  destruct (j =? 0)%Z; [|destruct (j =? sep)%Z]; apply splice_remove1_insert; assumption.
Qed.

Lemma removeColumn_insertColumn_witness :
  (0 <= 1)%Z /\
  Forall (fun row => (1 <= Z.of_nat (length row))%Z) (rows twin_table) /\
  (1 <= Z.of_nat (length (alignments twin_table)))%Z /\
  removeColumn (insertColumn twin_table 1 (lit "h") [] ALeft) 1 = twin_table.
Proof.
  assert (H0 : (0 <= 1)%Z) by lia.
  assert (Hr : Forall (fun row => (1 <= Z.of_nat (length row))%Z) (rows twin_table))
    by (repeat constructor; cbn; lia).
  assert (Ha : (1 <= Z.of_nat (length (alignments twin_table)))%Z) by (cbn; lia).
  split; [exact H0|split; [exact Hr|split; [exact Ha|]]].
  apply (removeColumn_insertColumn twin_table 1 (lit "h") [] ALeft H0 Hr Ha).
Defined.

(** For a table whose separator row comes after the header and whose
    alignments are the ones its separator row gives, inserting a column at
    an index within the separator row writes the marker of the alignment
    there; the alignments still equal the ones the new separator row gives
    exactly when the alignment is not 'none' (the marker ':---' written for
    'none' reads back as 'left'). *)
Theorem insertColumn_separator_alignments t ci h d a srow :
  (0 < separatorIndex t)%Z ->
  js_at (rows t) (separatorIndex t) = Some srow ->
  alignments t = parseAlignments srow ->
  (0 <= ci <= Z.of_nat (length srow))%Z ->
  exists srow',
    js_at (rows (insertColumn t ci h d a)) (separatorIndex t) = Some srow' /\
    js_at srow' ci = Some (alignment_marker a) /\
    (alignments (insertColumn t ci h d a) = parseAlignments srow' <-> a <> ANone).
Proof.
  intros Hs Hrow Hal Hci.
  exists (splice_insert srow ci (alignment_marker a)).
  unfold insertColumn. cbn [rows alignments].
  rewrite js_at_mapi, Hrow. cbn [option_map].
  destruct (separatorIndex t =? 0)%Z eqn:E0; [apply Z.eqb_eq in E0; lia|].
  rewrite Z.eqb_refl.
  split; [reflexivity|]. split; [apply js_at_splice_insert; lia|].
  rewrite Hal. unfold parseAlignments. rewrite map_splice_insert.
  rewrite getAlignmentFromSeparator_alignment_marker.
  split.
  - intros E. apply splice_insert_inj in E. destruct a; congruence.
  - intros Hn. destruct a; [reflexivity|reflexivity|reflexivity|congruence].
Qed.

Lemma insertColumn_separator_alignments_witness :
  (0 < separatorIndex twin_table)%Z /\
  js_at (rows twin_table) (separatorIndex twin_table) = Some [lit "---"; lit "---"] /\
  alignments twin_table = parseAlignments [lit "---"; lit "---"] /\
  (0 <= 1 <= Z.of_nat (length [lit "---"; lit "---"]))%Z /\
  exists srow',
    js_at (rows (insertColumn twin_table 1 (lit "h") [] ANone)) (separatorIndex twin_table)
      = Some srow' /\
    js_at srow' 1 = Some (alignment_marker ANone) /\
    (alignments (insertColumn twin_table 1 (lit "h") [] ANone) = parseAlignments srow'
     <-> ANone <> ANone).
Proof.
  assert (H1 : (0 < separatorIndex twin_table)%Z) by (cbn; lia).
  assert (H2 : js_at (rows twin_table) (separatorIndex twin_table)
               = Some [lit "---"; lit "---"]) by reflexivity.
  assert (H3 : alignments twin_table = parseAlignments [lit "---"; lit "---"])
    by reflexivity.
  assert (H4 : (0 <= 1 <= Z.of_nat (length [lit "---"; lit "---"]))%Z) by (cbn; lia).
  split; [exact H1|split; [exact H2|split; [exact H3|split; [exact H4|]]]].
  apply (insertColumn_separator_alignments twin_table 1 (lit "h") [] ANone _ H1 H2 H3 H4).
Defined.

Lemma option_map_unchanged {A} (f : A -> A) o :
  option_map (fun x => if negb false then x else f x) o = o.
Proof. destruct o; reflexivity. Qed.

(** For a table whose alignments are the ones its separator row gives,
    setting the alignment of a column within the separator row stores the
    alignment at that index, keeps the alignments equal to the ones the new
    separator row gives (the marker written for every alignment, 'none'
    included, reads back as that alignment) and leaves every other row as
    it was. *)
Theorem setColumnAlignment_consistent t ci a srow :
  js_at (rows t) (separatorIndex t) = Some srow ->
  alignments t = parseAlignments srow ->
  (0 <= ci < Z.of_nat (length srow))%Z ->
  js_at (alignments (setColumnAlignment t ci a)) ci = Some a /\
  (exists srow', js_at (rows (setColumnAlignment t ci a)) (separatorIndex t) = Some srow' /\
                 alignments (setColumnAlignment t ci a) = parseAlignments srow') /\
  (forall k, k <> separatorIndex t ->
             js_at (rows (setColumnAlignment t ci a)) k = js_at (rows t) k).
Proof.
  intros Hrow Hal Hci. unfold setColumnAlignment. cbn [rows alignments].
  assert (Hlen : (ci < Z.of_nat (length (alignments t)))%Z)
    by (rewrite Hal; unfold parseAlignments; rewrite length_map; lia).
  split; [|split].
  - rewrite js_at_js_set_in by lia. rewrite Z.eqb_refl. reflexivity.
  - exists (js_set [] srow ci (setColumnAlignment_marker a)).
    pose proof Hrow as Hrow'. unfold str in Hrow'.
    rewrite js_at_mapi, Hrow'. cbn [option_map]. rewrite Z.eqb_refl. split; [reflexivity|].
    rewrite Hal. unfold parseAlignments. rewrite map_js_set_in by lia.
    rewrite getAlignmentFromSeparator_setColumnAlignment_marker. reflexivity.
  - intros k Hk. rewrite js_at_mapi.
    destruct (k =? separatorIndex t)%Z eqn:E; [apply Z.eqb_eq in E; contradiction|].
    apply option_map_unchanged.
Qed.

Lemma setColumnAlignment_consistent_witness :
  js_at (rows twin_table) (separatorIndex twin_table) = Some [lit "---"; lit "---"] /\
  alignments twin_table = parseAlignments [lit "---"; lit "---"] /\
  (0 <= 0 < Z.of_nat (length [lit "---"; lit "---"]))%Z /\
  js_at (alignments (setColumnAlignment twin_table 0 ACenter)) 0 = Some ACenter /\
  (exists srow', js_at (rows (setColumnAlignment twin_table 0 ACenter))
                       (separatorIndex twin_table) = Some srow' /\
                 alignments (setColumnAlignment twin_table 0 ACenter) = parseAlignments srow') /\
  (forall k, k <> separatorIndex twin_table ->
             js_at (rows (setColumnAlignment twin_table 0 ACenter)) k = js_at (rows twin_table) k).
Proof.
  assert (H1 : js_at (rows twin_table) (separatorIndex twin_table)
               = Some [lit "---"; lit "---"]) by reflexivity.
  assert (H2 : alignments twin_table = parseAlignments [lit "---"; lit "---"])
    by reflexivity.
  assert (H3 : (0 <= 0 < Z.of_nat (length [lit "---"; lit "---"]))%Z) by (cbn; lia).
  split; [exact H1|split; [exact H2|split; [exact H3|]]].
  apply (setColumnAlignment_consistent twin_table 0 ACenter _ H1 H2 H3).
Defined.

(* ------------------------------------------------------------------ *)
(** ** Moving back and forth, inserting and removing rows *)

Lemma js_at_in {A} (xs : list A) i :
  (0 <= i)%Z -> js_at xs i = nth_error xs (Z.to_nat i).
Proof.
  intros H. unfold js_at. destruct (i <? 0)%Z eqn:E; [apply Z.ltb_lt in E; lia|reflexivity].
Qed.

Lemma js_at_in_some {A} (xs : list A) i :
  (0 <= i)%Z -> (i < Z.of_nat (length xs))%Z -> exists x, js_at xs i = Some x.
Proof.
  intros H0 Hl. rewrite js_at_in by exact H0.
  destruct (nth_error xs (Z.to_nat i)) eqn:E; [eauto|].
  apply nth_error_None in E. lia.
Qed.

Lemma js_swap_in_length {A} (h : A) xs i j :
  (0 <= i < Z.of_nat (length xs))%Z -> (0 <= j < Z.of_nat (length xs))%Z ->
  length (js_swap h xs i j) = length xs.
Proof.
  intros Hi Hj. unfold js_swap.
  rewrite js_set_in_length; rewrite ?js_set_in_length; lia.
Qed.

Lemma nth_error_js_swap_in {A} (h : A) xs i j n :
  (0 <= i < Z.of_nat (length xs))%Z -> (0 <= j < Z.of_nat (length xs))%Z ->
  nth_error (js_swap h xs i j) n =
  if (n =? Z.to_nat j)%nat then js_at xs i
  else if (n =? Z.to_nat i)%nat then js_at xs j
  else nth_error xs n.
Proof.
  intros Hi Hj. unfold js_swap.
  destruct (js_at_in_some xs i) as (xi & Exi); [lia|lia|].
  destruct (js_at_in_some xs j) as (xj & Exj); [lia|lia|].
  rewrite Exi, Exj. cbn [val_or].
  rewrite nth_error_js_set_in by (rewrite ?js_set_in_length; lia).
  destruct (n =? Z.to_nat j)%nat; [reflexivity|].
  rewrite nth_error_js_set_in by lia. reflexivity.
Qed.

Lemma js_swap_twice {A} (h : A) xs i j :
  (0 <= i < Z.of_nat (length xs))%Z -> (0 <= j < Z.of_nat (length xs))%Z ->
  js_swap h (js_swap h xs i j) j i = xs.
Proof.
  intros Hi Hj. apply nth_error_ext. intros n.
  assert (Hl := js_swap_in_length h xs i j Hi Hj).
  rewrite nth_error_js_swap_in by lia.
  rewrite !js_at_in by lia.
  rewrite !nth_error_js_swap_in by lia.
  rewrite !js_at_in by lia.
  rewrite ?Nat.eqb_refl.
  repeat match goal with |- context [(?a =? ?b)%nat] => destruct (Nat.eqb_spec a b) end;
    congruence.
Qed.

(** Moving a column right and then moving it back left gives the table
    back, when every row and the alignments reach past the column's right
    neighbour. *)
Theorem moveColumn_right_then_left t c :
  rows t <> [] ->
  (0 <= c)%Z ->
  Forall (fun row => (c + 1 < Z.of_nat (length row))%Z) (rows t) ->
  (c + 1 < Z.of_nat (length (alignments t)))%Z ->
  exists t', moveColumn t c MoveRight = Returns t' /\
             moveColumn t' (c + 1) MoveLeft = Returns t.
Proof.
  intros Hne H0 Hrows Hal. destruct t as [s e rs sep al].
  cbn [rows alignments] in *. destruct rs as [|row0 rs']; [contradiction|].
  assert (Hr0 : (c + 1 < Z.of_nat (length row0))%Z) by (inversion Hrows; assumption).
  eexists. split.
  - unfold moveColumn. cbn [rows].
    replace ((c + 1 <? 0)%Z || (Z.of_nat (length row0) <=? c + 1)%Z) with false
      by (symmetry; apply orb_false_iff; split; [apply Z.ltb_ge|apply Z.leb_gt]; lia).
    reflexivity.
  - unfold moveColumn. cbn [rows map startLine endLine separatorIndex alignments].
    replace (c + 1 - 1)%Z with c by lia.
    rewrite js_swap_in_length by (unfold str in *; lia).
    replace ((c <? 0)%Z || (Z.of_nat (length row0) <=? c)%Z) with false
      by (symmetry; apply orb_false_iff; split; [apply Z.ltb_ge|apply Z.leb_gt]; lia).
    rewrite (js_swap_twice [] row0 c (c + 1)) by (unfold str in *; lia).
    rewrite (js_swap_twice ANone al c (c + 1)) by lia.
    rewrite map_map.
    assert (Hm : map (fun x : list str => js_swap [] (js_swap [] x c (c + 1)) (c + 1) c) rs'
                 = rs').
    { rewrite <- (map_id rs') at 2. apply map_ext_in.
      intros row Hin. inversion Hrows as [|? ? _ Hrs]; subst.
      rewrite Forall_forall in Hrs. specialize (Hrs row Hin).
      unfold str in *. apply js_swap_twice; lia. }
    unfold str in *. rewrite Hm. reflexivity.
Qed.

Lemma moveColumn_right_then_left_witness :
  rows twin_table <> [] /\ (0 <= 0)%Z /\
  Forall (fun row => (0 + 1 < Z.of_nat (length row))%Z) (rows twin_table) /\
  (0 + 1 < Z.of_nat (length (alignments twin_table)))%Z /\
  exists t', moveColumn twin_table 0 MoveRight = Returns t' /\
             moveColumn t' (0 + 1) MoveLeft = Returns twin_table.
Proof.
  assert (H1 : rows twin_table <> []) by discriminate.
  assert (H2 : (0 <= 0)%Z) by lia.
  assert (H3 : Forall (fun row => (0 + 1 < Z.of_nat (length row))%Z) (rows twin_table))
    by (repeat constructor; cbn; lia).
  assert (H4 : (0 + 1 < Z.of_nat (length (alignments twin_table)))%Z) by (cbn; lia).
  split; [exact H1|split; [exact H2|split; [exact H3|split; [exact H4|]]]].
  apply (moveColumn_right_then_left twin_table 0 H1 H2 H3 H4).
Defined.

(** Whenever [moveRow] moves a row down, moving the row at the next index
    up gives the table back. *)
Theorem moveRow_down_then_up t r t' :
  moveRow t r MoveDown = Some t' -> moveRow t' (r + 1) MoveUp = Some t.
Proof.
  intros H. destruct t as [s e rs sep al]. unfold moveRow in H.
  cbn [rows separatorIndex startLine endLine alignments] in H.
  destruct ((r =? 0)%Z || (r =? sep)%Z) eqn:E1; [discriminate|].
  destruct ((r + 1 =? 0)%Z || (r + 1 =? sep)%Z || (r + 1 <? 0)%Z
            || (Z.of_nat (length rs) <=? r + 1)%Z) eqn:E2; [discriminate|].
  injection H as <-.
  apply orb_false_iff in E1 as [E1a E1b].
  apply orb_false_iff in E2 as [E2 E2d]. apply orb_false_iff in E2 as [E2 E2c].
  apply orb_false_iff in E2 as [E2a E2b].
  apply Z.eqb_neq in E1a, E1b, E2a, E2b. apply Z.ltb_ge in E2c. apply Z.leb_gt in E2d.
  unfold moveRow. cbn [rows separatorIndex startLine endLine alignments].
  replace (r + 1 - 1)%Z with r by lia.
  rewrite js_swap_in_length by lia.
  replace ((r + 1 =? 0)%Z || (r + 1 =? sep)%Z) with false
    by (symmetry; apply orb_false_iff; split; apply Z.eqb_neq; lia).
  replace ((r =? 0)%Z || (r =? sep)%Z || (r <? 0)%Z || (Z.of_nat (length rs) <=? r)%Z)
    with false
    by (symmetry; repeat rewrite orb_false_iff;
        split; [split; [split|]|]; first [apply Z.eqb_neq | apply Z.ltb_ge | apply Z.leb_gt];
        lia).
  rewrite js_swap_twice by lia. reflexivity.
Qed.

Lemma moveRow_down_then_up_witness :
  moveRow (mkTable 0 3 [[lit "h"]; [lit "---"]; [lit "x"]; [lit "y"]] 1 [ANone]) 2 MoveDown
    = Some (mkTable 0 3 [[lit "h"]; [lit "---"]; [lit "y"]; [lit "x"]] 1 [ANone]) /\
  moveRow (mkTable 0 3 [[lit "h"]; [lit "---"]; [lit "y"]; [lit "x"]] 1 [ANone]) (2 + 1) MoveUp
    = Some (mkTable 0 3 [[lit "h"]; [lit "---"]; [lit "x"]; [lit "y"]] 1 [ANone]).
Proof.
  assert (H : moveRow (mkTable 0 3 [[lit "h"]; [lit "---"]; [lit "x"]; [lit "y"]] 1 [ANone])
                      2 MoveDown
              = Some (mkTable 0 3 [[lit "h"]; [lit "---"]; [lit "y"]; [lit "x"]] 1 [ANone]))
    by reflexivity.
  split; [exact H|]. apply (moveRow_down_then_up _ _ _ H).
Defined.

Lemma insertRow_then_removeRow t r cells t' :
  (1 <= r <= Z.of_nat (length (rows t)))%Z ->
  insertRow t r cells = Returns t' -> removeRow t' r = Some t.
Proof.
  intros Hr H. destruct t as [s e rs sep al]. cbn [rows] in Hr.
  unfold insertRow in H. cbn [rows separatorIndex startLine endLine alignments] in H.
  destruct rs as [|row0 rs']; [discriminate|]. injection H as <-.
  unfold removeRow. cbn [rows separatorIndex startLine endLine alignments].
  rewrite splice_remove1_insert by lia.
  destruct (r <=? sep)%Z eqn:Es.
  - apply Z.leb_le in Es.
    replace ((r =? 0)%Z || (r =? sep + 1)%Z) with false
      by (symmetry; apply orb_false_iff; split; apply Z.eqb_neq; lia).
    replace (r <? sep + 1)%Z with true by (symmetry; apply Z.ltb_lt; lia).
    f_equal. f_equal; lia.
  - apply Z.leb_gt in Es.
    replace ((r =? 0)%Z || (r =? sep)%Z) with false
      by (symmetry; apply orb_false_iff; split; apply Z.eqb_neq; lia).
    replace (r <? sep)%Z with false by (symmetry; apply Z.ltb_ge; lia).
    f_equal. f_equal; lia.
Qed.

(** Inserting a row at an index between 1 and the number of rows, and then
    removing the row at that index, gives the table back (separator index
    and [endLine] included). *)
Theorem removeRow_insertRow t r cells t' :
  (1 <= r <= Z.of_nat (length (rows t)))%Z ->
  insertRow t r cells = Returns t' -> removeRow t' r = Some t.
Proof. apply insertRow_then_removeRow. Qed.

Lemma removeRow_insertRow_witness :
  (1 <= 2 <= Z.of_nat (length (rows twin_table)))%Z /\
  insertRow twin_table 2 None
    = Returns (mkTable 0 3 [[lit "a"; lit "a"]; [lit "---"; lit "---"]; [[]; []];
                            [lit "x"; lit "x"]] 1 [ANone; ANone]) /\
  removeRow (mkTable 0 3 [[lit "a"; lit "a"]; [lit "---"; lit "---"]; [[]; []];
                          [lit "x"; lit "x"]] 1 [ANone; ANone]) 2 = Some twin_table.
Proof.
  assert (H1 : (1 <= 2 <= Z.of_nat (length (rows twin_table)))%Z) by (cbn; lia).
  assert (H2 : insertRow twin_table 2 None
    = Returns (mkTable 0 3 [[lit "a"; lit "a"]; [lit "---"; lit "---"]; [[]; []];
                            [lit "x"; lit "x"]] 1 [ANone; ANone])) by reflexivity.
  split; [exact H1|split; [exact H2|]].
  apply (removeRow_insertRow twin_table 2 None _ H1 H2).
Defined.

(* ------------------------------------------------------------------ *)
(** ** The column and the row under the cursor *)

Lemma column_scan_stop i p ys k : (p < i)%Z -> column_scan i p ys k = k.
Proof.
  intros H. destruct ys as [|y ys]; [reflexivity|]. cbn [column_scan].
  destruct (i <=? p)%Z eqn:E; [apply Z.leb_le in E; lia|reflexivity].
Qed.

Lemma count_char_cons c x xs :
  count_char c (x :: xs) = ((if Ascii.eqb x c then 1 else 0) + count_char c xs)%nat.
Proof.
  unfold count_char. cbn [filter]. rewrite Ascii.eqb_sym.
  destruct (Ascii.eqb x c); reflexivity.
Qed.

Lemma count_char_app c xs ys : count_char c (xs ++ ys) = (count_char c xs + count_char c ys)%nat.
Proof. unfold count_char. rewrite filter_app, length_app. reflexivity. Qed.

Lemma count_char_none c xs : ~ In c xs -> count_char c xs = 0%nat.
Proof.
  induction xs as [|x xs IH]; intros H; [reflexivity|].
  rewrite count_char_cons, IH by (intros Hin; apply H; right; exact Hin).
  destruct (Ascii.eqb_spec x c) as [->|]; [exfalso; apply H; left; reflexivity|reflexivity].
Qed.

Lemma column_scan_app i p xs ys k :
  (i + Z.of_nat (length xs) <= p + 1)%Z ->
  column_scan i p (xs ++ ys) k =
  column_scan (i + Z.of_nat (length xs)) p ys (k + Z.of_nat (count_char PIPE xs)).
Proof.
  revert i k. induction xs as [|x xs IH]; intros i k H.
  - cbn. rewrite Z.add_0_r, Z.add_0_r. reflexivity.
  - cbn [app column_scan length] in *.
    destruct (i <=? p)%Z eqn:E; [|apply Z.leb_gt in E; lia].
    rewrite IH by lia. rewrite count_char_cons.
    replace (i + 1 + Z.of_nat (length xs))%Z with (i + Z.of_nat (S (length xs)))%Z by lia.
    f_equal. destruct (Ascii.eqb x PIPE); lia.
Qed.

Lemma column_scan_no_pipe i p c ys k :
  ~ In PIPE c -> (p < i + Z.of_nat (length c))%Z -> column_scan i p (c ++ ys) k = k.
Proof.
  revert i. induction c as [|a c IH]; intros i Hc Hp.
  - apply column_scan_stop. cbn in Hp. lia.
  - cbn [app column_scan length] in *. destruct (i <=? p)%Z; [|reflexivity].
    destruct (Ascii.eqb_spec a PIPE) as [->|_]; [exfalso; apply Hc; left; reflexivity|].
    apply IH; [intros Hin; apply Hc; right; exact Hin|lia].
Qed.

Lemma join_pipe_app pre c post :
  join [PIPE] (pre ++ c :: post) =
  flat_map (fun x => x ++ [PIPE]) pre ++ join [PIPE] (c :: post).
Proof.
  induction pre as [|x pre IH]; [reflexivity|].
  cbn [app flat_map]. rewrite <- app_assoc, <- IH, <- app_assoc.
  destruct pre as [|y pre]; reflexivity.
Qed.

Lemma count_char_flat_map_cells pre :
  Forall no_pipe pre ->
  count_char PIPE (flat_map (fun x => x ++ [PIPE]) pre) = length pre.
Proof.
  induction 1 as [|x pre Hx _ IH]; [reflexivity|].
  cbn [flat_map length]. rewrite !count_char_app, IH, count_char_none by exact Hx.
  rewrite count_char_cons, Ascii.eqb_refl. reflexivity.
Qed.

Lemma count_char_join_cells cells :
  cells <> [] -> Forall no_pipe cells ->
  S (count_char PIPE (join [PIPE] cells)) = length cells.
Proof.
  intros Hne Hf. induction Hf as [|x xs Hx Hxs IH]; [contradiction|].
  destruct xs as [|y ys].
  - cbn [join length]. rewrite count_char_none by exact Hx. reflexivity.
  - change (join [PIPE] (x :: y :: ys)) with (x ++ [PIPE] ++ join [PIPE] (y :: ys)).
    rewrite !count_char_app, count_char_none by exact Hx.
    rewrite count_char_cons, Ascii.eqb_refl.
    change (length (x :: y :: ys)) with (S (length (y :: ys))).
    rewrite <- IH by discriminate. cbn [count_char filter length]. lia.
Qed.

(** In a row written as [frame] writes it, with cells holding no pipe, any
    position from the pipe that opens a cell up to the last character of
    that cell (positions counted from 0 at the row's first pipe) is in that
    cell's column: [getColumnAtPosition] gives the number of cells before
    it. *)
Theorem getColumnAtPosition_frame pre c post p :
  Forall no_pipe (pre ++ c :: post) ->
  (Z.of_nat (length (flat_map (fun x => x ++ [PIPE]) pre)) <= p)%Z ->
  (p <= Z.of_nat (length (flat_map (fun x => x ++ [PIPE]) pre)) + zlen c)%Z ->
  getColumnAtPosition (frame (pre ++ c :: post)) p = Z.of_nat (length pre).
Proof.
  intros Hf H1 H2.
  apply Forall_app in Hf as [Hpre Hcp]. inversion Hcp as [|? ? Hc _]; subst.
  set (F := flat_map (fun x => x ++ [PIPE]) pre) in *.
  assert (E : frame (pre ++ c :: post) =
              (PIPE :: F) ++ c ++ PIPE :: (match post with [] => [] | _ => join [PIPE] post ++ [PIPE] end)).
  { unfold frame. rewrite join_pipe_app. fold F. cbn [app].
    f_equal. rewrite <- app_assoc. f_equal.
    destruct post as [|y post]; [reflexivity|].
    change (join [PIPE] (c :: y :: post)) with (c ++ [PIPE] ++ join [PIPE] (y :: post)).
    rewrite <- !app_assoc. reflexivity. }
  unfold getColumnAtPosition. rewrite E.
  rewrite column_scan_app by (cbn [length]; lia).
  rewrite column_scan_no_pipe by (exact Hc || (unfold zlen in H2; cbn [length]; lia)).
  rewrite count_char_cons, Ascii.eqb_refl.
  unfold F. rewrite count_char_flat_map_cells by exact Hpre. lia.
Qed.

Lemma getColumnAtPosition_frame_witness :
  Forall no_pipe ([lit " ab "] ++ lit " cd " :: []) /\
  (Z.of_nat (length (flat_map (fun x => x ++ [PIPE]) [lit " ab "])) <= 7)%Z /\
  (7 <= Z.of_nat (length (flat_map (fun x => x ++ [PIPE]) [lit " ab "])) + zlen (lit " cd "))%Z /\
  getColumnAtPosition (frame ([lit " ab "] ++ lit " cd " :: [])) 7
    = Z.of_nat (length [lit " ab "]).
Proof.
  assert (H1 : Forall no_pipe ([lit " ab "] ++ lit " cd " :: [])).
  { repeat constructor; unfold no_pipe; vm_compute; intuition discriminate. }
  assert (H2 : (Z.of_nat (length (flat_map (fun x => x ++ [PIPE]) [lit " ab "])) <= 7)%Z)
    by (vm_compute; discriminate).
  assert (H3 : (7 <= Z.of_nat (length (flat_map (fun x => x ++ [PIPE]) [lit " ab "]))
                   + zlen (lit " cd "))%Z) by (vm_compute; discriminate).
  split; [exact H1|split; [exact H2|split; [exact H3|]]].
  apply (getColumnAtPosition_frame [lit " ab "] (lit " cd ") [] 7 H1 H2 H3).
Defined.

(** A position on or after the closing pipe of a row written as [frame]
    writes it (cells holding no pipe) gives the number of cells, one past
    the index of the last column. *)
Theorem getColumnAtPosition_after_last_pipe cells p :
  cells <> [] -> Forall no_pipe cells ->
  (Z.of_nat (length (frame cells)) - 1 <= p)%Z ->
  getColumnAtPosition (frame cells) p = Z.of_nat (length cells).
Proof.
  intros Hne Hf Hp. unfold getColumnAtPosition.
  rewrite <- (app_nil_r (frame cells)).
  rewrite column_scan_app by lia. cbn [column_scan].
  unfold frame. rewrite !count_char_app, !count_char_cons, Ascii.eqb_refl.
  cbn [count_char filter length].
  rewrite <- (count_char_join_cells cells Hne Hf). lia.
Qed.

Lemma getColumnAtPosition_after_last_pipe_witness :
  [lit " ab "; lit " cd "] <> [] /\ Forall no_pipe [lit " ab "; lit " cd "] /\
  (Z.of_nat (length (frame [lit " ab "; lit " cd "])) - 1 <= 20)%Z /\
  getColumnAtPosition (frame [lit " ab "; lit " cd "]) 20 = 2%Z.
Proof.
  assert (H1 : [lit " ab "; lit " cd "] <> []) by discriminate.
  assert (H2 : Forall no_pipe [lit " ab "; lit " cd "]).
  { repeat constructor; unfold no_pipe; vm_compute; intuition discriminate. }
  assert (H3 : (Z.of_nat (length (frame [lit " ab "; lit " cd "])) - 1 <= 20)%Z)
    by (vm_compute; discriminate).
  split; [exact H1|split; [exact H2|split; [exact H3|]]].
  apply (getColumnAtPosition_after_last_pipe _ 20 H1 H2 H3).
Defined.

(** Each table the Locator returns is the parse of the lines from its
    [startLine] to its [endLine]. *)
Lemma scan_tables_lines ign cbr f i rest :
  Forall (fun t => exists k,
            startLine t = Z.of_nat (i + k) /\
            endLine t = (startLine t + Z.of_nat (length (rows t)) - 1)%Z /\
            rows t = map parseTableRow (firstn (length (rows t)) (skipn k rest)))
         (scan_tables ign cbr f i rest).
Proof.
  revert i rest. induction f as [|f IH]; intros i rest; [constructor|].
  destruct rest as [|l rest]; [rewrite scan_tables_nil; constructor|].
  assert (Hshift : Forall (fun t => exists k,
            startLine t = Z.of_nat (S i + k) /\
            endLine t = (startLine t + Z.of_nat (length (rows t)) - 1)%Z /\
            rows t = map parseTableRow (firstn (length (rows t)) (skipn k rest)))
            (scan_tables ign cbr f (S i) rest) ->
          Forall (fun t => exists k,
            startLine t = Z.of_nat (i + k) /\
            endLine t = (startLine t + Z.of_nat (length (rows t)) - 1)%Z /\
            rows t = map parseTableRow (firstn (length (rows t)) (skipn k (l :: rest))))
            (scan_tables ign cbr f (S i) rest)).
  { apply Forall_impl. intros t (k & H1 & H2 & H3). exists (S k).
    split; [rewrite H1; f_equal; lia|split; [exact H2|exact H3]]. }
  rewrite scan_tables_step.
  destruct (in_block ign cbr i); [apply Hshift, IH|].
  destruct (isTableRow l); [|apply Hshift, IH].
  destruct (collect_run ign cbr i (l :: rest) [] (-1)%Z []) as [[[[rws sep] al] j] rest''] eqn:Hc.
  destruct (collect_run_content _ _ _ _ _ _ _ _ _ _ _ _ Hc)
    as (taken & E & Ej & _ & Hrws & _ & _).
  cbn [app] in Hrws. subst rws.
  apply Forall_app. split.
  - destruct ((2 <=? length (map parseTableRow taken))%nat && (sep =? 1)%Z);
      [|constructor].
    constructor; [|constructor]. exists 0%nat. cbn [startLine endLine rows].
    rewrite Nat.add_0_r, length_map, E, skipn_O, firstn_app, Nat.sub_diag, firstn_O,
      app_nil_r, firstn_all.
    split; [reflexivity|split; [rewrite Ej; lia|reflexivity]].
  - eapply Forall_impl; [|apply IH]. intros t (k & H1 & H2 & H3).
    exists (length taken + k)%nat. split; [rewrite H1, Ej; f_equal; lia|].
    split; [exact H2|]. rewrite E, skipn_app, skipn_all2 by lia.
    replace (length taken + k - length taken)%nat with k by lia. exact H3.
Qed.

(** When [findTableAtPosition] finds a table for a line, the table is one
    of the tables [findTables] returns, the line exists, and the row index
    [getRowIndexInTable] gives for it is a row of the table: the parse of
    that line. *)
Theorem findTableAtPosition_row lines n ign t :
  findTableAtPosition lines n ign = Some t ->
  In t (findTables lines ign) /\
  exists line, js_at lines n = Some line /\
               js_at (rows t) (getRowIndexInTable t n) = Some (parseTableRow line).
Proof.
  intros H. unfold findTableAtPosition in H.
  apply find_some in H as [Hin Hp]. split; [exact Hin|].
  apply andb_true_iff in Hp as [Hs He]. apply Z.leb_le in Hs, He.
  assert (Hl := scan_tables_lines ign (if ign then findCodeBlockRanges lines else [])
                  (length lines) 0 lines).
  rewrite Forall_forall in Hl. destruct (Hl t Hin) as (k & H1 & H2 & H3).
  cbn [Nat.add] in H1.
  set (L := length (rows t)) in *.
  assert (HlenF : length (firstn L (skipn k lines)) = L)
    by (rewrite <- (length_map parseTableRow), <- H3; reflexivity).
  set (r := Z.to_nat (n - Z.of_nat k)).
  assert (Hr : (r < L)%nat) by lia.
  destruct (nth_error (firstn L (skipn k lines)) r) as [line|] eqn:El;
    [|apply nth_error_None in El; lia].
  exists line. split.
  - rewrite js_at_in by lia. rewrite nth_error_firstn in El.
    destruct (r <? L)%nat; [|discriminate].
    rewrite nth_error_skipn in El. rewrite <- El. f_equal. unfold r. lia.
  - unfold getRowIndexInTable. rewrite H1, js_at_in by lia. fold r.
    rewrite H3, nth_error_map, El. reflexivity.
Qed.

Lemma findTableAtPosition_row_witness :
  findTableAtPosition compact_test_lines 2 false = Some compact_test_table /\
  In compact_test_table (findTables compact_test_lines false) /\
  exists line, js_at compact_test_lines 2 = Some line /\
               js_at (rows compact_test_table) (getRowIndexInTable compact_test_table 2)
                 = Some (parseTableRow line).
Proof.
  assert (H : findTableAtPosition compact_test_lines 2 false = Some compact_test_table)
    by (vm_compute; reflexivity).
  split; [exact H|]. apply (findTableAtPosition_row _ _ _ _ H).
Defined.

(* ------------------------------------------------------------------ *)
(** ** Writing tables as lines *)

Lemma parseTableRow_frame_parse l : parseTableRow (frame (parseTableRow l)) = parseTableRow l.
Proof.
  rewrite parseTableRow_frame by (apply parseTableRow_nonnil || apply parseTableRow_no_pipe).
  rewrite <- (map_id (parseTableRow l)) at 2. apply map_ext_in. intros x Hx.
  pose proof (parseTableRow_trimmed l) as H. rewrite Forall_forall in H. apply H, Hx.
Qed.

Lemma isTableSeparator_frame_parse l :
  isTableRow l = true -> isTableSeparator (frame (parseTableRow l)) = isTableSeparator l.
Proof.
  intros Hr. rewrite !isTableSeparator_cells, isTableRow_frame, Hr, parseTableRow_frame_parse.
  reflexivity.
Qed.

Lemma map_parse_frame_parse ls :
  map parseTableRow (map frame (map parseTableRow ls)) = map parseTableRow ls.
Proof.
  induction ls as [|l ls IH]; [reflexivity|]. cbn [map].
  rewrite parseTableRow_frame_parse, IH. reflexivity.
Qed.

Lemma parse_frame_rows R :
  Forall (fun row => row <> [] /\ Forall (fun x => no_pipe x /\ trim x = x) row) R ->
  map parseTableRow (map frame R) = R.
Proof.
  intros H. rewrite map_map. rewrite <- (map_id R) at 2. apply map_ext_in.
  intros row Hin. rewrite Forall_forall in H. destruct (H row Hin) as [Hne Hf].
  rewrite parseTableRow_frame by (exact Hne || (eapply Forall_impl; [|exact Hf]; intros ? [? ?]; assumption)).
  rewrite <- (map_id row) at 2. apply map_ext_in. intros x Hx.
  rewrite Forall_forall in Hf. apply (Hf x Hx).
Qed.

(** The lines [tableToLines] writes for a table [findTables] returned are
    located again as exactly one table, from line 0, with the same rows and
    alignments and its separator at index 1. *)
Theorem tableToLines_relocate lines ign ign' t :
  In t (findTables lines ign) ->
  findTables (tableToLines t) ign' =
    [mkTable 0 (Z.of_nat (length (rows t)) - 1) (rows t) 1 (alignments t)].
Proof.
  intros Ht. destruct (findTables_located _ _ _ Ht)
    as (l0 & l1 & ls & Hrows & Hf & _ & H0 & H1 & Hal).
  inversion Hf as [|? ? Hr0 Hf']. inversion Hf' as [|? ? Hr1 _]. subst.
  unfold tableToLines. rewrite Hrows. cbn [map].
  rewrite (findTables_run _ ign' (frame (parseTableRow l0)) (frame (parseTableRow l1))
             (map frame (map parseTableRow ls))).
  - rewrite Hal. cbn [map length].
    rewrite !parseTableRow_frame_parse, map_parse_frame_parse, !length_map. reflexivity.
  - reflexivity.
  - constructor; [eauto|]. constructor; [eauto|].
    apply Forall_forall. intros l Hl. apply in_map_iff in Hl as (r & <- & _). eauto.
  - rewrite isTableSeparator_frame_parse by exact Hr0. exact H0.
  - rewrite isTableSeparator_frame_parse by exact Hr1. exact H1.
Qed.

Lemma tableToLines_relocate_witness :
  In compact_test_table (findTables compact_test_lines false) /\
  findTables (tableToLines compact_test_table) true =
    [mkTable 0 (Z.of_nat (length (rows compact_test_table)) - 1) (rows compact_test_table) 1
             (alignments compact_test_table)].
Proof.
  assert (H : In compact_test_table (findTables compact_test_lines false))
    by (vm_compute; left; reflexivity).
  split; [exact H|]. apply (tableToLines_relocate _ _ _ _ H).
Defined.

Lemma is_digit_digit_char d : (0 <= d < 10)%Z -> is_digit (digit_char d) = true.
Proof.
  intros H. unfold is_digit, digit_char. rewrite nat_ascii_embedding by lia.
  apply andb_true_iff. split; apply Nat.leb_le; lia.
Qed.

Lemma pos_digits_digits f n acc :
  (0 <= n)%Z -> forallb is_digit acc = true -> forallb is_digit (pos_digits f n acc) = true.
Proof.
  revert n acc. induction f as [|f IH]; intros n acc Hn Ha; [exact Ha|].
  cbn [pos_digits].
  assert (Hd : forallb is_digit (digit_char (n mod 10) :: acc) = true).
  { cbn [forallb]. rewrite is_digit_digit_char, Ha by (apply Z.mod_pos_bound; lia).
    reflexivity. }
  destruct (n <? 10)%Z; [exact Hd|]. apply IH; [apply Z.div_pos; lia|exact Hd].
Qed.

Lemma pos_digits_nonnil f n acc : acc <> [] -> pos_digits f n acc <> [].
Proof.
  revert n acc. induction f as [|f IH]; intros n acc Ha; [exact Ha|].
  cbn [pos_digits]. destruct (n <? 10)%Z; [discriminate|]. apply IH. discriminate.
Qed.

Lemma string_of_Z_digits n :
  (0 <= n)%Z -> string_of_Z n <> [] /\ forallb is_digit (string_of_Z n) = true.
Proof.
  intros Hn. destruct n as [|p|p]; [split; [discriminate|reflexivity]| |lia].
  cbn [string_of_Z]. assert (Hs : exists m, Pos.size_nat p = S m) by (destruct p; eexists; reflexivity).
  destruct Hs as (m & ->). split.
  - cbn [pos_digits]. destruct (Z.pos p <? 10)%Z; [discriminate|].
    apply pos_digits_nonnil. discriminate.
  - apply pos_digits_digits; [lia|reflexivity].
Qed.

Lemma is_digit_not_ws c : is_digit c = true -> is_ws c = false.
Proof. destruct c as [[] [] [] [] [] [] [] []]; intros H; vm_compute in H |- *; congruence. Qed.

Lemma is_digit_not_pipe c : is_digit c = true -> c <> PIPE.
Proof. intros H ->. discriminate. Qed.

Lemma trim_no_ws x : forallb (fun c => negb (is_ws c)) x = true -> trim x = x.
Proof.
  intros H. unfold trim.
  assert (Hl : lstrip x = x).
  { destruct x as [|a x]; [reflexivity|]. cbn [forallb] in H.
    apply andb_true_iff in H as [Ha _]. apply negb_true_iff in Ha. cbn. rewrite Ha. reflexivity. }
  rewrite Hl. clear Hl. induction x as [|a x IH]; [reflexivity|].
  cbn [forallb] in H. apply andb_true_iff in H as [Ha Hx]. apply negb_true_iff in Ha.
  rewrite rstrip_cons_nonws, IH by assumption. reflexivity.
Qed.

Lemma trim_digits x : forallb is_digit x = true -> trim x = x.
Proof.
  intros H. apply trim_no_ws. apply forallb_forall. intros c Hc.
  rewrite forallb_forall in H. rewrite is_digit_not_ws by (apply H, Hc). reflexivity.
Qed.

Lemma column_title_cell k : no_pipe (column_title k) /\ trim (column_title k) = column_title k.
Proof.
  destruct (string_of_Z_digits (Z.of_nat k + 1)) as [Hne Hd]; [lia|].
  unfold column_title. split.
  - intros Hin. apply in_app_or in Hin as [Hin|Hin]; [vm_compute in Hin; intuition discriminate|].
    rewrite forallb_forall in Hd. apply (is_digit_not_pipe PIPE); [apply Hd, Hin|reflexivity].
  - destruct (exists_last Hne) as (s' & b & Es). rewrite Es in Hd |- *.
    rewrite forallb_app in Hd. apply andb_true_iff in Hd as [_ Hb]. cbn in Hb.
    rewrite andb_true_r in Hb. rewrite app_assoc.
    change (trim ("C"%char :: (list_ascii_of_string "olumn " ++ s') ++ [b])
            = "C"%char :: (list_ascii_of_string "olumn " ++ s') ++ [b]).
    apply trim_ends; [reflexivity|apply is_digit_not_ws, Hb].
Qed.

(** The lines [tableToLines] writes for a new table from
    [createEmptyTable] with at least one row, at least one column and an
    alignment other than 'none' are located as exactly that table: same
    rows, [endLine], separator index and alignments. *)
Theorem createEmptyTable_relocate r c a ign :
  (1 <= r)%Z -> (1 <= c)%Z -> a <> ANone ->
  findTables (tableToLines (createEmptyTable r c a)) ign = [createEmptyTable r c a].
Proof.
  intros Hr Hc Ha.
  assert (Hm : sep_cell_re (alignment_marker a) = true /\ no_pipe (alignment_marker a) /\
               trim (alignment_marker a) = alignment_marker a /\
               getAlignmentFromSeparator (alignment_marker a) = a).
  { destruct a; [| | |contradiction]; vm_compute;
      (split; [reflexivity|split; [intuition discriminate|split; reflexivity]]). }
  destruct Hm as (Hm1 & Hm2 & Hm3 & Hm4).
  destruct (Z.to_nat c) as [|n] eqn:En; [lia|].
  set (header := map column_title (seq 0 (S n))).
  set (sepRow := repeat (alignment_marker a) (S n)).
  set (data := repeat (repeat ([] : str) (S n)) (Z.to_nat (r - 1))).
  assert (Ht : createEmptyTable r c a = mkTable 0 r (header :: sepRow :: data) 1
                                                (repeat a (S n)))
    by (unfold createEmptyTable; rewrite En; reflexivity).
  assert (Hrows : Forall (fun row => row <> [] /\ Forall (fun x => no_pipe x /\ trim x = x) row)
                         (header :: sepRow :: data)).
  { constructor; [|constructor].
    - split; [discriminate|]. apply Forall_forall. intros x Hx.
      apply in_map_iff in Hx as (k & <- & _). apply column_title_cell.
    - split; [discriminate|]. apply Forall_forall. intros x Hx.
      apply repeat_spec in Hx. subst x. auto.
    - apply Forall_forall. intros row Hrow. apply repeat_spec in Hrow. subst row.
      split; [discriminate|]. apply Forall_forall. intros x Hx. apply repeat_spec in Hx.
      subst x. split; [intros []|reflexivity]. }
  assert (Hp := parse_frame_rows _ Hrows).
  rewrite Ht. unfold tableToLines. cbn [rows]. cbn [map] in Hp |- *.
  injection Hp as Hp0 Hp1 Hpd.
  rewrite (findTables_run _ ign (frame header) (frame sepRow) (map frame data)).
  - cbn [map]. rewrite Hp0, Hp1, Hpd. cbn [length]. rewrite length_map.
    unfold data. rewrite repeat_length.
    unfold parseAlignments, sepRow. rewrite map_repeat, Hm4.
    f_equal. f_equal. lia.
  - reflexivity.
  - constructor; [eauto|]. constructor; [eauto|].
    apply Forall_forall. intros l Hl. apply in_map_iff in Hl as (row & <- & _). eauto.
  - rewrite isTableSeparator_cells, isTableRow_frame, Hp0. reflexivity.
  - rewrite isTableSeparator_cells, isTableRow_frame, Hp1. cbn [andb].
    apply forallb_forall. intros x Hx. apply repeat_spec in Hx. subst x. exact Hm1.
Qed.

Lemma createEmptyTable_relocate_witness :
  (1 <= 2)%Z /\ (1 <= 3)%Z /\ ACenter <> ANone /\
  findTables (tableToLines (createEmptyTable 2 3 ACenter)) true = [createEmptyTable 2 3 ACenter].
Proof.
  assert (H1 : (1 <= 2)%Z) by lia. assert (H2 : (1 <= 3)%Z) by lia.
  assert (H3 : ACenter <> ANone) by discriminate.
  split; [exact H1|split; [exact H2|split; [exact H3|]]].
  apply (createEmptyTable_relocate 2 3 ACenter true H1 H2 H3).
Defined.

(* ------------------------------------------------------------------ *)
(** ** Adding and removing row numbers *)

Lemma put_first_at (b : bool) (row : list str) v :
  js_at (if b then set_first row v else v :: row) 0 = Some v.
Proof. destruct b, row; reflexivity. Qed.

Lemma str_eqb_true x y : str_eqb x y = true -> x = y.
Proof.
  revert y. induction x as [|a x IH]; intros [|b y] H; try discriminate; [reflexivity|].
  cbn in H. apply andb_true_iff in H as [Hab Hxy].
  apply Ascii.eqb_eq in Hab. rewrite Hab, (IH y Hxy). reflexivity.
Qed.

Lemma number_rows_data_digits b o sep i d rs :
  (0 < i)%Z -> (sep < i)%Z -> (0 <= d)%Z ->
  forallb (fun row => all_digits (option_map trim (js_at row 0)))
          (number_rows b o sep i d rs) = true.
Proof.
  revert i d. induction rs as [|row rs IH]; intros i d Hi Hs Hd; [reflexivity|].
  cbn [number_rows].
  destruct (Z.eqb_spec i 0) as [E|_]; [lia|].
  destruct (Z.eqb_spec i sep) as [E|_]; [lia|].
  cbn [forallb]. rewrite put_first_at. cbn [option_map].
  destruct (string_of_Z_digits d Hd) as [Hne Hdg].
  rewrite trim_digits by exact Hdg. cbn [all_digits].
  rewrite Hdg, IH by lia. destruct (string_of_Z d); [contradiction|reflexivity].
Qed.

Lemma hasRowNumbers_addRowNumbers t o hdr :
  rows t <> [] -> separatorIndex t = 1%Z -> (0 <= rn_startNumber o)%Z ->
  In (trim (toLowerCase (rn_headerText o)))
     [lit "#"; lit "no"; lit "no."; lit "nr"; lit "nr."; lit "num"; lit "row";
      toLowerCase hdr] ->
  hasRowNumbers (addRowNumbers t o) hdr = true.
Proof.
  destruct t as [s e rs sep al]. cbn [rows separatorIndex].
  intros Hne -> Hd Hin. destruct rs as [|r0 rs]; [contradiction|].
  unfold addRowNumbers. cbn [rows separatorIndex startLine endLine alignments].
  set (b := hasRowNumbers (mkTable s e (r0 :: rs) 1 al) (rn_headerText o)).
  unfold hasRowNumbers at 1. cbn [rows]. cbn [number_rows].
  change ((0 =? 0)%Z) with true. cbn iota beta.
  change (js_at (?x :: _) 0) with (Some x). cbn [val_or].
  rewrite put_first_at. cbn [option_map]. rewrite existsb_str_eqb_In by exact Hin.
  destruct rs as [|r1 rs]; [reflexivity|]. cbn [number_rows].
  change ((0 + 1 =? 0)%Z) with false. change ((0 + 1 =? 1)%Z) with true. cbn iota beta.
  change (skipn 2 (?x :: ?y :: ?z)) with z.
  apply number_rows_data_digits; lia.
Qed.

Lemma skipn1_number_rows_false o sep i d rs :
  map (skipn 1) (number_rows false o sep i d rs) = rs.
Proof.
  revert i d. induction rs as [|row rs IH]; intros i d; [reflexivity|].
  cbn [number_rows]. destruct (i =? 0)%Z; [|destruct (i =? sep)%Z];
    cbn [map]; rewrite IH; reflexivity.
Qed.

Lemma set_first_twice (row : list str) v : set_first (set_first row v) v = set_first row v.
Proof. destruct row; reflexivity. Qed.

Lemma number_rows_renumber b o sep i d rs :
  number_rows true o sep i d (number_rows b o sep i d rs) = number_rows b o sep i d rs.
Proof.
  revert i d. induction rs as [|row rs IH]; intros i d; [reflexivity|].
  cbn [number_rows].
  destruct (i =? 0)%Z eqn:E0; [|destruct (i =? sep)%Z eqn:E1]; cbn [number_rows];
    rewrite ?E0, ?E1; cbn iota; rewrite IH; f_equal;
    (destruct b; [apply set_first_twice|reflexivity]).
Qed.

(** On a table whose separator is its second row and which has no
    row-number column yet, [removeRowNumbers] undoes [addRowNumbers] when
    the numbers start at 0 or above and the header text, trimmed and
    lowercased, is one of '#', 'no', 'no.', 'nr', 'nr.', 'num', 'row'. *)
Theorem removeRowNumbers_addRowNumbers t o :
  rows t <> [] -> separatorIndex t = 1%Z -> (0 <= rn_startNumber o)%Z ->
  hasRowNumbers t (rn_headerText o) = false ->
  In (trim (toLowerCase (rn_headerText o)))
     [lit "#"; lit "no"; lit "no."; lit "nr"; lit "nr."; lit "num"; lit "row"] ->
  removeRowNumbers (addRowNumbers t o) = Some t.
Proof.
  intros Hne Hs Hd Hno Hin. unfold removeRowNumbers.
  rewrite hasRowNumbers_addRowNumbers by
    (exact Hne || exact Hs || exact Hd ||
     (change (In (trim (toLowerCase (rn_headerText o)))
                 ([lit "#"; lit "no"; lit "no."; lit "nr"; lit "nr."; lit "num"; lit "row"]
                  ++ [toLowerCase (lit "#")]));
      apply in_or_app; left; exact Hin)).
  cbn [negb]. unfold addRowNumbers. rewrite Hno. cbn [rows alignments startLine endLine
    separatorIndex skipn]. rewrite skipn1_number_rows_false. destruct t. reflexivity.
Qed.

Lemma removeRowNumbers_addRowNumbers_witness :
  rows twin_table <> [] /\ separatorIndex twin_table = 1%Z /\
  (0 <= rn_startNumber getDefaultRowNumberOptions)%Z /\
  hasRowNumbers twin_table (rn_headerText getDefaultRowNumberOptions) = false /\
  In (trim (toLowerCase (rn_headerText getDefaultRowNumberOptions)))
     [lit "#"; lit "no"; lit "no."; lit "nr"; lit "nr."; lit "num"; lit "row"] /\
  removeRowNumbers (addRowNumbers twin_table getDefaultRowNumberOptions) = Some twin_table.
Proof.
  assert (H1 : rows twin_table <> []) by discriminate.
  assert (H2 : separatorIndex twin_table = 1%Z) by reflexivity.
  assert (H3 : (0 <= rn_startNumber getDefaultRowNumberOptions)%Z) by (vm_compute; discriminate).
  assert (H4 : hasRowNumbers twin_table (rn_headerText getDefaultRowNumberOptions) = false)
    by (vm_compute; reflexivity).
  assert (H5 : In (trim (toLowerCase (rn_headerText getDefaultRowNumberOptions)))
     [lit "#"; lit "no"; lit "no."; lit "nr"; lit "nr."; lit "num"; lit "row"])
    by (vm_compute; left; reflexivity).
  split; [exact H1|split; [exact H2|split; [exact H3|split; [exact H4|split; [exact H5|]]]]].
  apply (removeRowNumbers_addRowNumbers _ _ H1 H2 H3 H4 H5).
Defined.

(** Adding row numbers twice with the same options gives the table of adding
    them once, when the table's separator is its second row, the numbers
    start at 0 or above and the header text has no surrounding white space:
    the second call finds the column and renumbers it in place. *)
Theorem addRowNumbers_idempotent t o :
  rows t <> [] -> separatorIndex t = 1%Z -> (0 <= rn_startNumber o)%Z ->
  trim (rn_headerText o) = rn_headerText o ->
  addRowNumbers (addRowNumbers t o) o = addRowNumbers t o.
Proof.
  intros Hne Hs Hd Ht.
  assert (Hhas : hasRowNumbers (addRowNumbers t o) (rn_headerText o) = true).
  { apply hasRowNumbers_addRowNumbers; try assumption.
    rewrite trim_lower, Ht. do 7 right. left. reflexivity. }
  unfold addRowNumbers at 1. rewrite Hhas.
  unfold addRowNumbers. cbn [rows alignments startLine endLine separatorIndex].
  rewrite number_rows_renumber. destruct (hasRowNumbers t (rn_headerText o)); reflexivity.
Qed.

Lemma addRowNumbers_idempotent_witness :
  rows twin_table <> [] /\ separatorIndex twin_table = 1%Z /\
  (0 <= rn_startNumber getDefaultRowNumberOptions)%Z /\
  trim (rn_headerText getDefaultRowNumberOptions) = rn_headerText getDefaultRowNumberOptions /\
  addRowNumbers (addRowNumbers twin_table getDefaultRowNumberOptions) getDefaultRowNumberOptions
  = addRowNumbers twin_table getDefaultRowNumberOptions.
Proof.
  assert (H1 : rows twin_table <> []) by discriminate.
  assert (H2 : separatorIndex twin_table = 1%Z) by reflexivity.
  assert (H3 : (0 <= rn_startNumber getDefaultRowNumberOptions)%Z) by (vm_compute; discriminate).
  assert (H4 : trim (rn_headerText getDefaultRowNumberOptions)
               = rn_headerText getDefaultRowNumberOptions) by (vm_compute; reflexivity).
  split; [exact H1|split; [exact H2|split; [exact H3|split; [exact H4|]]]].
  apply (addRowNumbers_idempotent _ _ H1 H2 H3 H4).
Defined.

(** [removeRowNumbers] leaves a table alone (returns nothing) when its
    first header cell, trimmed and lowercased, is not one of '#', 'no',
    'no.', 'nr', 'nr.', 'num', 'row': a column added under another
    header text is not recognised. *)
Theorem removeRowNumbers_unknown_header t c hs rs :
  rows t = (c :: hs) :: rs ->
  ~ In (trim (toLowerCase c))
       [lit "#"; lit "no"; lit "no."; lit "nr"; lit "nr."; lit "num"; lit "row"] ->
  removeRowNumbers t = None.
Proof.
  intros Hr Hn. unfold removeRowNumbers, hasRowNumbers. rewrite Hr.
  change (js_at ((c :: hs) :: rs) 0) with (Some (c :: hs)). cbn [val_or].
  change (js_at (c :: hs) 0) with (Some c). cbn [option_map].
  match goal with |- context [existsb ?f ?l] => destruct (existsb f l) eqn:E end;
    [|reflexivity].
  exfalso. apply existsb_exists in E as (y & Hy & Ey). apply str_eqb_true in Ey.
  subst y. apply Hn.
  change (In (trim (toLowerCase c))
             ([lit "#"; lit "no"; lit "no."; lit "nr"; lit "nr."; lit "num"; lit "row"]
              ++ [toLowerCase (lit "#")])) in Hy.
  apply in_app_or in Hy as [Hy|[Hy|[]]]; [exact Hy|].
  rewrite <- Hy. left. reflexivity.
Qed.

Lemma removeRowNumbers_unknown_header_witness :
  rows index_numbered_table
    = (lit "Index" :: [lit "a"; lit "a"])
        :: [[lit "---:"; lit "---"; lit "---"]; [lit "1"; lit "x"; lit "x"]] /\
  ~ In (trim (toLowerCase (lit "Index")))
       [lit "#"; lit "no"; lit "no."; lit "nr"; lit "nr."; lit "num"; lit "row"] /\
  removeRowNumbers index_numbered_table = None.
Proof.
  assert (H1 : rows index_numbered_table
    = (lit "Index" :: [lit "a"; lit "a"])
        :: [[lit "---:"; lit "---"; lit "---"]; [lit "1"; lit "x"; lit "x"]])
    by (vm_compute; reflexivity).
  assert (H2 : ~ In (trim (toLowerCase (lit "Index")))
       [lit "#"; lit "no"; lit "no."; lit "nr"; lit "nr."; lit "num"; lit "row"])
    by (vm_compute; intuition discriminate).
  split; [exact H1|split; [exact H2|]].
  apply (removeRowNumbers_unknown_header _ _ _ _ H1 H2).
Defined.

(* ------------------------------------------------------------------ *)
(** ** Transposing twice *)

Lemma cell_nth (r : list str) col : val_or (js_at r (Z.of_nat col)) [] = nth col r [].
Proof.
  unfold js_at. replace (Z.of_nat col <? 0)%Z with false by (symmetry; apply Z.ltb_ge; lia).
  rewrite Nat2Z.id. destruct (nth_error r col) eqn:E.
  - symmetry. apply nth_error_nth, E.
  - symmetry. apply nth_overflow, nth_error_None, E.
Qed.

Lemma transposeTable_shape t h s D :
  rows t = h :: s :: D -> separatorIndex t = 1%Z ->
  transposeTable t =
  Returns (mkTable (startLine t) (startLine t + Z.of_nat (2 + (length h - 1)) - 1)
     ((nth 0 h [] :: map (fun r => nth 0 r []) D)
        :: repeat (lit "---") (S (length D))
        :: map (fun col => nth col h [] :: map (fun r => nth col r []) D)
               (seq 1 (length h - 1)))
     1 (repeat ANone (S (length D)))).
Proof.
  intros Hr Hs. unfold transposeTable. rewrite Hr, Hs. cbn zeta iota.
  assert (Hf : filteri_from (fun i => negb (i =? 0)%Z && negb (i =? 1)%Z) 0 (h :: s :: D) = D).
  { cbn [filteri_from]. change (negb (0 =? 0)%Z && negb (0 =? 1)%Z) with false.
    change (negb (0 + 1 =? 0)%Z && negb (0 + 1 =? 1)%Z) with false. cbn iota.
    apply filteri_from_all. intros j Hj.
    destruct (Z.eqb_spec j 0), (Z.eqb_spec j 1); [lia|lia|lia|reflexivity]. }
  rewrite Hf.
  f_equal. f_equal.
  - cbn [length]. rewrite length_map, length_seq. reflexivity.
  - cbn [length]. rewrite length_map. apply f_equal2; [|apply f_equal2; [reflexivity|]].
    + rewrite cell_nth. apply f_equal2; [reflexivity|].
      apply map_ext. intros. apply cell_nth.
    + apply map_ext. intros col. rewrite cell_nth. apply f_equal2; [reflexivity|].
      apply map_ext. intros. apply cell_nth.
  - cbn [length]. rewrite length_map. reflexivity.
Qed.

Lemma map_nth_seq_self {A} (l : list A) d : map (fun i => nth i l d) (seq 0 (length l)) = l.
Proof.
  induction l as [|a l IH]; [reflexivity|]. cbn [length seq map].
  rewrite <- seq_shift, map_map. cbn [nth]. rewrite IH. reflexivity.
Qed.

Lemma map_seq_shift {A} (f : nat -> A) n : map f (seq 1 n) = map (fun j => f (S j)) (seq 0 n).
Proof. rewrite <- seq_shift, map_map. reflexivity. Qed.

Lemma row_of_cells (l : list str) :
  l <> [] -> nth 0 l [] :: map (fun c => nth c l []) (seq 1 (length l - 1)) = l.
Proof.
  destruct l as [|a l]; [contradiction|]. intros _. cbn [length].
  replace (S (length l) - 1)%nat with (length l) by lia.
  rewrite <- seq_shift, map_map. cbn [nth]. rewrite map_nth_seq_self. reflexivity.
Qed.

Lemma nth_map_in {A B} (f : A -> B) (l : list A) (n : nat) (dA : A) (dB : B) :
  (n < length l)%nat -> nth n (map f l) dB = f (nth n l dA).
Proof.
  intros Hn. rewrite (nth_indep (map f l) dB (f dA)) by (rewrite length_map; exact Hn).
  apply map_nth.
Qed.

(** Transposing a table twice, its separator being its second row and every
    data row as long as its nonempty header, gives back its header row and
    its data rows; the separator row becomes '---' cells and every
    alignment 'none'. *)
Theorem transposeTable_involution t h s D :
  rows t = h :: s :: D -> separatorIndex t = 1%Z -> h <> [] ->
  Forall (fun r => length r = length h) D ->
  exists t1, transposeTable t = Returns t1 /\
    transposeTable t1 =
    Returns (mkTable (startLine t) (startLine t + Z.of_nat (length (rows t)) - 1)
                     (h :: repeat (lit "---") (length h) :: D) 1 (repeat ANone (length h))).
Proof.
  intros Hr Hs Hh HD. eexists. split; [apply (transposeTable_shape t h s D Hr Hs)|].
  lazymatch goal with
  | |- transposeTable (mkTable ?x ?y (?a :: ?b :: ?c) ?z ?w) = _ =>
      rewrite (transposeTable_shape (mkTable x y (a :: b :: c) z w) a b c eq_refl eq_refl)
  end.
  cbn [startLine].
  rewrite Hr. rewrite Forall_forall in HD.
  assert (Hlh : S (length h - 1)%nat = length h) by (destruct h; [contradiction|cbn; lia]).
  cbn [length]. rewrite !length_map, length_seq, Hlh.
  f_equal. f_equal; [unfold str in *; lia|]. rewrite Nat.sub_succ, Nat.sub_0_r.
  apply f_equal2; [|apply f_equal2; [reflexivity|]].
  - cbn [nth]. rewrite map_map. cbn [nth]. apply row_of_cells, Hh.
  - rewrite map_seq_shift. rewrite <- (map_nth_seq_self D []) at 2.
    apply map_ext_in. intros j Hj. apply in_seq in Hj.
    assert (HDj : In (nth j D []) D) by (apply nth_In; lia).
    unfold str in *. cbn [nth]. rewrite (nth_map_in _ _ _ [] []) by lia.
    rewrite map_map. cbn [nth].
    erewrite map_ext; [|intros col; apply (nth_map_in (fun r => nth col r []) D j [] [])].
    2: lia.
    rewrite <- (HD _ HDj). apply row_of_cells.
    intros E. rewrite E in HDj. pose proof (HD _ HDj) as E'. cbn in E'.
    destruct h; [contradiction|discriminate].
Qed.

Lemma transposeTable_involution_witness :
  rows twin_table = [lit "a"; lit "a"] :: [lit "---"; lit "---"] :: [[lit "x"; lit "x"]] /\
  separatorIndex twin_table = 1%Z /\ [lit "a"; lit "a"] <> [] /\
  Forall (fun r => length r = length [lit "a"; lit "a"]) [[lit "x"; lit "x"]] /\
  exists t1, transposeTable twin_table = Returns t1 /\
    transposeTable t1 =
    Returns (mkTable (startLine twin_table)
                     (startLine twin_table + Z.of_nat (length (rows twin_table)) - 1)
                     ([lit "a"; lit "a"] :: repeat (lit "---") 2 :: [[lit "x"; lit "x"]]) 1
                     (repeat ANone 2)).
Proof.
  assert (H1 : rows twin_table
               = [lit "a"; lit "a"] :: [lit "---"; lit "---"] :: [[lit "x"; lit "x"]])
    by reflexivity.
  assert (H2 : separatorIndex twin_table = 1%Z) by reflexivity.
  assert (H3 : [lit "a"; lit "a"] <> []) by discriminate.
  assert (H4 : Forall (fun r => length r = length [lit "a"; lit "a"]) [[lit "x"; lit "x"]])
    by (constructor; [reflexivity|constructor]).
  split; [exact H1|split; [exact H2|split; [exact H3|split; [exact H4|]]]].
  apply (transposeTable_involution _ _ _ _ H1 H2 H3 H4).
Defined.

(* ------------------------------------------------------------------ *)
(** ** Escaping HTML *)

Lemma replace_all_app c rep x y :
  replace_all c rep (x ++ y) = replace_all c rep x ++ replace_all c rep y.
Proof. apply flat_map_app. Qed.

Lemma escapeHtml_app x y : escapeHtml (x ++ y) = escapeHtml x ++ escapeHtml y.
Proof. unfold escapeHtml. rewrite !replace_all_app. reflexivity. Qed.

Lemma escapeHtml_char a : escapeHtml [a] = html_char a.
Proof. destruct a as [[] [] [] [] [] [] [] []]; vm_compute; reflexivity. Qed.

Lemma escapeHtml_flat_map text : escapeHtml text = flat_map html_char text.
Proof.
  induction text as [|a x IH]; [reflexivity|].
  change (a :: x) with ([a] ++ x). rewrite escapeHtml_app, escapeHtml_char, IH. reflexivity.
Qed.

Lemma html_char_prefix a b X Y : html_char a ++ X = html_char b ++ Y -> a = b /\ X = Y.
Proof.
  unfold html_char.
  destruct (Ascii.eqb_spec a AMP) as [Ea|Ea]; [|destruct (Ascii.eqb_spec a LT) as [Ea'|Ea'];
    [|destruct (Ascii.eqb_spec a GT) as [Eb'|Eb']; [|destruct (Ascii.eqb_spec a QUOTE) as [Ec'|Ec'];
      [|destruct (Ascii.eqb_spec a APOS)]]]];
  (destruct (Ascii.eqb_spec b AMP); [|destruct (Ascii.eqb_spec b LT);
    [|destruct (Ascii.eqb_spec b GT); [|destruct (Ascii.eqb_spec b QUOTE);
      [|destruct (Ascii.eqb_spec b APOS)]]]]);
  subst; unfold AMP, LT, GT, QUOTE, APOS in *; intros H; cbn in H;
  inversion H; subst; auto; congruence.
Qed.

Lemma html_char_nonnil c : html_char c <> [].
Proof.
  unfold html_char.
  destruct (Ascii.eqb c AMP), (Ascii.eqb c LT), (Ascii.eqb c GT), (Ascii.eqb c QUOTE),
    (Ascii.eqb c APOS); discriminate.
Qed.

(** [escapeHtml] is injective: two different texts never give the same
    escaped text, so the escaping can be undone. *)
Theorem escapeHtml_injective x y : escapeHtml x = escapeHtml y -> x = y.
Proof.
  rewrite !escapeHtml_flat_map. revert y.
  induction x as [|a x IH]; intros [|b y] H; [reflexivity| | |].
  - cbn in H. destruct (html_char b) eqn:E; [now apply html_char_nonnil in E|discriminate].
  - cbn in H. destruct (html_char a) eqn:E; [now apply html_char_nonnil in E|discriminate].
  - cbn [flat_map] in H. apply html_char_prefix in H as [-> H]. f_equal. apply IH, H.
Qed.

Lemma escapeHtml_injective_witness :
  escapeHtml (lit "a<b") = escapeHtml (lit "a<b") /\ lit "a<b" = lit "a<b".
Proof.
  assert (H : escapeHtml (lit "a<b") = escapeHtml (lit "a<b")) by reflexivity.
  split; [exact H|]. apply (escapeHtml_injective _ _ H).
Defined.

(** The text [escapeHtml] returns holds no '<', '>', double quote or
    single quote. *)
Theorem escapeHtml_no_markup text c :
  In c (escapeHtml text) -> c <> LT /\ c <> GT /\ c <> QUOTE /\ c <> APOS.
Proof.
  rewrite escapeHtml_flat_map. intros Hin. apply in_flat_map in Hin as (a & _ & Hc).
  revert Hc. unfold html_char.
  destruct (Ascii.eqb_spec a AMP); [|destruct (Ascii.eqb_spec a LT);
    [|destruct (Ascii.eqb_spec a GT); [|destruct (Ascii.eqb_spec a QUOTE);
      [|destruct (Ascii.eqb_spec a APOS)]]]];
  intros Hc; [vm_compute in Hc; intuition (subst; discriminate)..|].
  destruct Hc as [<-|[]]. auto.
Qed.

Lemma escapeHtml_no_markup_witness :
  In "&"%char (escapeHtml (lit "<b>")) /\
  ("&"%char <> LT /\ "&"%char <> GT /\ "&"%char <> QUOTE /\ "&"%char <> APOS).
Proof.
  assert (H : In "&"%char (escapeHtml (lit "<b>"))) by (vm_compute; left; reflexivity).
  split; [exact H|]. apply (escapeHtml_no_markup _ _ H).
Defined.

(* ------------------------------------------------------------------ *)
(** ** Reading back the numbers [String(n)] writes *)

Lemma digits_fold_shift xs a :
  fold_left (fun acc c => acc * 10 + (Z.of_nat (nat_of_ascii c) - 48))%Z xs a
  = (a * 10 ^ Z.of_nat (length xs)
     + fold_left (fun acc c => acc * 10 + (Z.of_nat (nat_of_ascii c) - 48))%Z xs 0)%Z.
Proof.
  revert a. induction xs as [|c xs IH]; intros a; cbn [fold_left length]; [lia|].
  rewrite IH, (IH (0 * 10 + _)%Z). rewrite Nat2Z.inj_succ, Z.pow_succ_r by lia. ring.
Qed.

Lemma digit_char_value d :
  (0 <= d < 10)%Z -> (Z.of_nat (nat_of_ascii (digit_char d)) - 48)%Z = d.
Proof. intros H. unfold digit_char. rewrite nat_ascii_embedding by lia. lia. Qed.

Lemma digits_value_pos_digits f n acc :
  (0 <= n < 10 ^ Z.of_nat f)%Z ->
  digits_value (pos_digits f n acc) = (n * 10 ^ Z.of_nat (length acc) + digits_value acc)%Z.
Proof.
  unfold digits_value. revert n acc. induction f as [|f IH]; intros n acc Hn.
  - cbn in Hn. replace n with 0%Z by lia. reflexivity.
  - cbn [pos_digits].
    assert (Hm : (0 <= n mod 10 < 10)%Z) by (apply Z.mod_pos_bound; lia).
    assert (Hc : forall a, fold_left (fun acc c => acc * 10 + (Z.of_nat (nat_of_ascii c) - 48))%Z
                             (digit_char (n mod 10) :: acc) a
                         = ((a * 10 + n mod 10) * 10 ^ Z.of_nat (length acc)
                            + fold_left (fun acc c => acc * 10
                                                      + (Z.of_nat (nat_of_ascii c) - 48))%Z
                                        acc 0)%Z).
    { intros a. cbn [fold_left]. rewrite digit_char_value by exact Hm. apply digits_fold_shift. }
    destruct (Z.ltb_spec n 10) as [Hlt|Hge].
    + rewrite Hc. rewrite Z.mod_small by lia. lia.
    + rewrite IH.
      * rewrite (Hc 0%Z). cbn [length]. rewrite Nat2Z.inj_succ, Z.pow_succ_r by lia.
        rewrite (Z.div_mod n 10) at 3 by lia. ring.
      * rewrite Nat2Z.inj_succ, Z.pow_succ_r in Hn by lia.
        split; [apply Z.div_pos; lia|]. apply Z.div_lt_upper_bound; lia.
Qed.

Lemma pos_lt_pow_size_nat p : (Z.pos p < 10 ^ Z.of_nat (Pos.size_nat p))%Z.
Proof.
  induction p as [p IH|p IH|]; cbn [Pos.size_nat]; rewrite ?Nat2Z.inj_succ, ?Z.pow_succ_r by lia;
    [rewrite Pos2Z.inj_xI; lia|rewrite Pos2Z.inj_xO; lia|reflexivity].
Qed.

Lemma span_digits_all xs : forallb is_digit xs = true -> span_digits xs = (xs, []).
Proof.
  induction xs as [|c xs IH]; [reflexivity|]. cbn [forallb span_digits].
  intros H. apply andb_true_iff in H as [Hc Hx]. rewrite Hc, IH by exact Hx. reflexivity.
Qed.

Lemma filter_num_digits xs : forallb is_digit xs = true -> filter is_num_char xs = xs.
Proof.
  induction xs as [|c xs IH]; [reflexivity|]. cbn [forallb filter].
  intros H. apply andb_true_iff in H as [Hc Hx]. unfold is_num_char at 1. rewrite Hc, IH by exact Hx.
  reflexivity.
Qed.

Lemma digit_not_dash c : is_digit c = true -> Ascii.eqb c DASH = false.
Proof. intros H. apply Ascii.eqb_neq. intros ->. discriminate. Qed.

(** Numeric sorting reads a cell holding the text [String(n)] of a safe
    integer [n] ([|n| <= Number.MAX_SAFE_INTEGER = 2^53 - 1], where
    [String(n)] writes the plain decimal digits of [n] and [parseFloat] reads
    them back exactly), as row numbers are written, as the value [n]. *)
Theorem numericKey_string_of_Z n (Hsafe : (Z.abs n <= 2 ^ 53 - 1)%Z) :
  (numericKey (string_of_Z n) == inject_Z n)%Q.
Proof.
  clear Hsafe.
  assert (Hpos : forall p, string_of_Z (Z.pos p) <> [] /\
                 forallb is_digit (string_of_Z (Z.pos p)) = true /\
                 digits_value (string_of_Z (Z.pos p)) = Z.pos p).
  { intros p. destruct (string_of_Z_digits (Z.pos p)) as [Hne Hd]; [lia|].
    split; [exact Hne|split; [exact Hd|]]. cbn [string_of_Z].
    rewrite digits_value_pos_digits by (split; [lia|apply pos_lt_pow_size_nat]).
    cbn. lia. }
  assert (Hread : forall xs, xs <> [] -> forallb is_digit xs = true ->
            parseFloat_num xs = Some (inject_Z (digits_value xs) + inject_Z 0 / inject_Z 1)%Q).
  { intros xs Hne Hd. unfold parseFloat_num.
    destruct xs as [|c r]; [contradiction|].
    pose proof Hd as Hd'. cbn [forallb] in Hd'. apply andb_true_iff in Hd' as [Hc _].
    rewrite digit_not_dash by exact Hc. cbn iota beta.
    rewrite span_digits_all by exact Hd. reflexivity. }
  unfold numericKey. destruct n as [|p|p].
  - reflexivity.
  - destruct (Hpos p) as (Hne & Hd & Hv).
    rewrite filter_num_digits, Hread, Hv by assumption.
    destruct (Qeq_bool _ 0) eqn:E.
    + apply Qeq_bool_eq in E. unfold Qeq in E. cbn in E. lia.
    + unfold Qeq. cbn. lia.
  - destruct (Hpos p) as (Hne & Hd & Hv). cbn [string_of_Z] in *.
    change (filter is_num_char (DASH :: pos_digits (Pos.size_nat p) (Z.pos p) []))
      with (DASH :: filter is_num_char (pos_digits (Pos.size_nat p) (Z.pos p) [])).
    rewrite filter_num_digits by exact Hd.
    unfold parseFloat_num at 1. cbn [Ascii.eqb].
    rewrite Ascii.eqb_refl.
    set (ds := pos_digits (Pos.size_nat p) (Z.pos p) []) in *.
    rewrite span_digits_all by exact Hd. cbn iota beta. rewrite Hv.
    destruct ds as [|c r]; [contradiction|]. cbn [is_nil andb].
    destruct (Qeq_bool _ 0) eqn:E.
    + apply Qeq_bool_eq in E. unfold Qeq in E. cbn in E. lia.
    + unfold Qeq. cbn. lia.
Qed.

Lemma numericKey_string_of_Z_witness :
  (Z.abs (-9007199254740991) <= 2 ^ 53 - 1)%Z /\
  (numericKey (string_of_Z (-9007199254740991)) == inject_Z (-9007199254740991))%Q.
Proof.
  split; [vm_compute; discriminate|].
  apply numericKey_string_of_Z. vm_compute. discriminate.
Defined.

(* ------------------------------------------------------------------ *)
(** ** Column widths of the whole table *)

Lemma bump_fold_widths (R : list (list str)) ws :
  (forall row, In row R -> (length row <= length ws)%nat) ->
  length (fold_left bump_widths R ws) = length ws /\
  forall i w, nth_error (fold_left bump_widths R ws) i = Some w ->
    exists w0, nth_error ws i = Some w0 /\ (w0 <= w)%Z /\
    (forall row c, In row R -> nth_error row i = Some c -> (zlen c <= w)%Z) /\
    (w = w0 \/ exists row c, In row R /\ nth_error row i = Some c /\ zlen c = w).
Proof.
  revert ws. induction R as [|row R IH]; intros ws Hlen; cbn [fold_left].
  - split; [reflexivity|]. intros i w Hw. exists w. split; [exact Hw|].
    split; [lia|]. split; [intros ? ? []|left; reflexivity].
  - assert (Hb : length (bump_widths ws row) = length ws)
      by (apply bump_widths_length, Hlen; left; reflexivity).
    destruct (IH (bump_widths ws row)) as [IHl IHw].
    { intros r Hr. rewrite Hb. apply Hlen. right. exact Hr. }
    split; [rewrite IHl; exact Hb|].
    intros i w Hw. destruct (IHw i w Hw) as (w1 & Hw1 & Hle & Hall & Hsrc).
    rewrite bump_widths_nth in Hw1.
    destruct (nth_error ws i) as [w0|] eqn:E0; [|discriminate].
    exists w0. split; [reflexivity|].
    destruct (nth_error row i) as [c|] eqn:Ec; injection Hw1 as <-.
    + split; [lia|]. split.
      * intros r c' [<-|Hr] Hc'; [rewrite Ec in Hc'; injection Hc' as <-; lia|].
        apply (Hall r c' Hr Hc').
      * destruct Hsrc as [->|(r & c' & Hr & Hc' & Hz)].
        -- destruct (Z.max_spec w0 (zlen c)) as [[_ ->]|[_ ->]]; [|left; reflexivity].
           right. exists row, c. split; [left; reflexivity|]. split; [exact Ec|reflexivity].
        -- right. exists r, c'. split; [right; exact Hr|]. split; assumption.
    + split; [exact Hle|]. split.
      * intros r c' [<-|Hr] Hc'; [rewrite Ec in Hc'; discriminate|].
        apply (Hall r c' Hr Hc').
      * destruct Hsrc as [->|(r & c' & Hr & Hc' & Hz)]; [left; reflexivity|].
        right. exists r, c'. split; [right; exact Hr|]. split; assumption.
Qed.

(** [calculateColumnWidths] throws on a table without rows.  Otherwise it
    returns one width per column of the longest row, and each width is the
    length of the longest cell of its column over all rows, separator row
    included ([0] for a column without cells). *)
Theorem calculateColumnWidths_max t :
  (rows t = [] -> calculateColumnWidths t = Throws) /\
  (rows t <> [] -> exists ws, calculateColumnWidths t = Returns ws /\
     length ws = columnCount t /\
     forall i w, nth_error ws i = Some w ->
       (forall row c, In row (rows t) -> nth_error row i = Some c -> (zlen c <= w)%Z) /\
       (w = 0%Z \/ exists row c, In row (rows t) /\ nth_error row i = Some c /\ zlen c = w)).
Proof.
  unfold calculateColumnWidths. split; [intros ->; reflexivity|].
  intros Hne. destruct (rows t) as [|r0 R] eqn:Er; [contradiction|]. rewrite <- Er.
  destruct (bump_fold_widths (rows t) (repeat 0%Z (columnCount t))) as [Hl Hw].
  { intros row Hrow. rewrite repeat_length. unfold columnCount.
    apply fold_max_ge, in_map, Hrow. }
  eexists. split; [reflexivity|]. split; [rewrite Hl; apply repeat_length|].
  intros i w Hi. destruct (Hw i w Hi) as (w0 & Hw0 & _ & Hall & Hsrc).
  apply nth_error_In, repeat_spec in Hw0. subst w0. split; [exact Hall|exact Hsrc].
Qed.

Lemma calculateColumnWidths_max_witness :
  rows twin_table <> [] /\
  exists ws, calculateColumnWidths twin_table = Returns ws /\
     length ws = columnCount twin_table /\
     forall i w, nth_error ws i = Some w ->
       (forall row c, In row (rows twin_table) -> nth_error row i = Some c -> (zlen c <= w)%Z) /\
       (w = 0%Z \/ exists row c, In row (rows twin_table) /\ nth_error row i = Some c /\
                                 zlen c = w).
Proof.
  assert (H : rows twin_table <> []) by discriminate.
  split; [exact H|]. apply (proj2 (calculateColumnWidths_max twin_table) H).
Defined.

(* ------------------------------------------------------------------ *)
(** ** Duplicating a row *)

(** When [duplicateRow] succeeds, the row after the duplicated one is a copy
    of it, padded with empty cells to the length of the header row, and
    removing that copy gives back the original table. *)
Theorem duplicateRow_removeRow t r t' :
  duplicateRow t r = Returns (Some t') ->
  removeRow t' (r + 1) = Some t /\
  exists row h, js_at (rows t) r = Some row /\ js_at (rows t) 0 = Some h /\
    js_at (rows t') (r + 1) = Some (row ++ repeat [] (length h - length row)).
Proof.
  unfold duplicateRow. intros H.
  destruct ((r =? 0)%Z || (r =? separatorIndex t)%Z) eqn:E0; [discriminate|].
  apply orb_false_iff in E0 as [E0 _]. apply Z.eqb_neq in E0.
  destruct (js_at (rows t) r) as [row|] eqn:Er; [|discriminate].
  destruct (insertRow t (r + 1) (Some row)) as [t1|] eqn:Ei; [|discriminate].
  injection H as <-.
  assert (Hr : (0 <= r)%Z /\ (r < Z.of_nat (length (rows t)))%Z).
  { unfold js_at in Er. destruct (Z.ltb_spec r 0); [discriminate|].
    assert (Hs : nth_error (rows t) (Z.to_nat r) <> None) by congruence.
    apply nth_error_Some in Hs. lia. }
  split; [apply (insertRow_then_removeRow t (r + 1) (Some row)); [lia|exact Ei]|].
  unfold insertRow in Ei. destruct (rows t) as [|h rs] eqn:Ert; [discriminate|].
  injection Ei as <-. exists row, h. split; [reflexivity|]. split; [reflexivity|].
  cbn [rows]. rewrite <- Ert. apply js_at_splice_insert; [lia|].
  rewrite Ert. unfold str in *. lia.
Qed.

Lemma duplicateRow_removeRow_witness :
  duplicateRow twin_table 2
    = Returns (Some (mkTable 0 3 [[lit "a"; lit "a"]; [lit "---"; lit "---"];
                                  [lit "x"; lit "x"]; [lit "x"; lit "x"]] 1 [ANone; ANone])) /\
  removeRow (mkTable 0 3 [[lit "a"; lit "a"]; [lit "---"; lit "---"];
                          [lit "x"; lit "x"]; [lit "x"; lit "x"]] 1 [ANone; ANone]) (2 + 1)
    = Some twin_table /\
  exists row h, js_at (rows twin_table) 2 = Some row /\ js_at (rows twin_table) 0 = Some h /\
    js_at (rows (mkTable 0 3 [[lit "a"; lit "a"]; [lit "---"; lit "---"];
                              [lit "x"; lit "x"]; [lit "x"; lit "x"]] 1 [ANone; ANone])) (2 + 1)
    = Some (row ++ repeat [] (length h - length row)).
Proof.
  assert (H : duplicateRow twin_table 2
    = Returns (Some (mkTable 0 3 [[lit "a"; lit "a"]; [lit "---"; lit "---"];
                                  [lit "x"; lit "x"]; [lit "x"; lit "x"]] 1 [ANone; ANone])))
    by reflexivity.
  split; [exact H|]. apply (duplicateRow_removeRow _ _ _ H).
Defined.

(* ------------------------------------------------------------------ *)
(** ** Compact tables the extension takes for formatted ones *)

Lemma all_defined_js_at (xs : list str) :
  all_defined (map (fun k => js_at xs (Z.of_nat k)) (seq 0 (length xs))) = Some xs.
Proof.
  induction xs as [|x xs IH]; [reflexivity|]. cbn [length seq map].
  rewrite <- seq_shift, map_map.
  rewrite (map_ext (fun k => js_at (x :: xs) (Z.of_nat (S k))) (fun k => js_at xs (Z.of_nat k))).
  - cbn [all_defined]. change (js_at (x :: xs) (Z.of_nat 0)) with (Some x).
    cbn [all_defined]. rewrite IH. reflexivity.
  - intros k. rewrite !js_at_in by lia. rewrite !Nat2Z.id. reflexivity.
Qed.

Lemma js_at_map {A B} (f : A -> B) xs i : js_at (map f xs) i = option_map f (js_at xs i).
Proof.
  unfold js_at. destruct (i <? 0)%Z; [reflexivity|]. apply nth_error_map.
Qed.

Lemma original_cells_frame cells :
  cells <> [] -> Forall no_pipe cells -> original_cells (frame cells) = cells.
Proof.
  intros Hne Hf. unfold original_cells. rewrite trim_frame.
  assert (Hs : startsWith (frame cells) [PIPE] = true) by reflexivity.
  assert (He : endsWith (frame cells) [PIPE] = true).
  { rewrite frame_shape. unfold endsWith. cbn [rev app]. rewrite rev_app_distr. reflexivity. }
  rewrite Hs, He. cbn [negb orb]. rewrite frame_shape. unfold slice_inner. cbn [tl].
  rewrite removelast_last. apply split_join; assumption.
Qed.

Lemma two_in_length {A} (l : list A) a b : In a l -> In b l -> a <> b -> (2 <= length l)%nat.
Proof.
  destruct l as [|x [|y l]]; cbn; [tauto| |lia]. intros [<-|[]] [<-|[]]. congruence.
Qed.

Lemma formatted_verdict_padded_empty t TL k j cells :
  (0 <= k)%Z -> js_at TL k = Some (frame cells) -> Forall no_pipe cells ->
  In [SPACE; SPACE] cells -> k <> separatorIndex t ->
  (0 <= j < Z.of_nat (length TL))%Z -> j <> k -> j <> separatorIndex t ->
  formatted_verdict t TL = true.
Proof.
  intros Hk Hl Hf Hin Hks Hj Hjk Hjs.
  assert (Hkl : (k < Z.of_nat (length TL))%Z).
  { rewrite js_at_in in Hl by exact Hk.
    assert (Hs : nth_error TL (Z.to_nat k) <> None) by congruence.
    apply nth_error_Some in Hs. lia. }
  assert (HD : forall i, (0 <= i < Z.of_nat (length TL))%Z -> i <> separatorIndex t ->
            In i (filter (fun i => negb (i =? separatorIndex t)%Z)
                         (map Z.of_nat (seq 0 (length (map original_cells TL)))))).
  { intros i Hi His. apply filter_In. split.
    - apply in_map_iff. exists (Z.to_nat i). split; [lia|]. apply in_seq.
      rewrite length_map. lia.
    - apply negb_true_iff, Z.eqb_neq, His. }
  unfold formatted_verdict. cbn zeta.
  replace (length (map original_cells TL) <? 2)%nat with false
    by (symmetry; apply Nat.ltb_ge; rewrite length_map; lia).
  replace (length (filter (fun i => negb (i =? separatorIndex t)%Z)
                    (map Z.of_nat (seq 0 (length (map original_cells TL))))) <? 2)%nat
    with false
    by (symmetry; apply Nat.ltb_ge;
        apply (two_in_length _ k j); [apply HD; lia|apply HD; lia|congruence]).
  match goal with |- (if ?c then true else _) = true => destruct c; [reflexivity|] end.
  apply existsb_exists. exists k. split; [apply HD; [lia|exact Hks]|].
  rewrite js_at_map, Hl. cbn [option_map].
  rewrite original_cells_frame by (exact Hf || (intros ->; destruct Hin)).
  apply existsb_exists. exists [SPACE; SPACE]. split; [exact Hin|reflexivity].
Qed.

(** The extension judges a table formatted (so that its edits re-format the
    table instead of compacting it) when the table's lines are the ones
    [compactTable] wrote with cell padding and one cell of a row other than
    the separator is empty: the empty cell is written as two spaces, which
    [isTableFormatted] takes for significant padding.  This holds whatever
    the widths of the other cells, as long as the table has two rows besides
    the separator, its separator index names one of its rows (or is
    negative) and no cell holds a pipe. *)
Theorem compactTable_empty_cell_formatted t o k row j :
  co_cellPadding o = true ->
  startLine t = 0%Z -> endLine t = (Z.of_nat (length (rows t)) - 1)%Z ->
  (separatorIndex t < Z.of_nat (length (rows t)))%Z ->
  Forall (Forall no_pipe) (rows t) ->
  k <> separatorIndex t -> js_at (rows t) k = Some row -> In [] row ->
  (0 <= j < Z.of_nat (length (rows t)))%Z -> j <> k -> j <> separatorIndex t ->
  isTableFormatted t (compactTable t o) = Returns true.
Proof.
  intros Hp Hs He _ Hf Hks Hr Hin Hj Hjk Hjs.
  assert (Hk : (0 <= k)%Z) by (unfold js_at in Hr; destruct (Z.ltb_spec k 0); [discriminate|lia]).
  assert (Hlen : length (compactTable t o) = length (rows t))
    by (unfold compactTable, mapi; apply length_mapi_from).
  unfold isTableFormatted. rewrite Hs, He.
  replace (Z.to_nat (Z.of_nat (length (rows t)) - 1 - 0 + 1)) with (length (compactTable t o))
    by (rewrite Hlen; lia).
  rewrite (map_ext (fun k0 => js_at (compactTable t o) (0 + Z.of_nat k0))
                   (fun k0 => js_at (compactTable t o) (Z.of_nat k0))) by reflexivity.
  rewrite all_defined_js_at. f_equal.
  apply (formatted_verdict_padded_empty t _ k j (map (fun cell => [SPACE] ++ cell ++ [SPACE]) row)).
  - exact Hk.
  - unfold compactTable. rewrite js_at_mapi, Hr. cbn [option_map].
    destruct (Z.eqb_spec k (separatorIndex t)) as [E|_]; [contradiction|].
    unfold compactTableRow. rewrite Hp. reflexivity.
  - rewrite Forall_forall in Hf. apply Forall_forall. intros x Hx.
    apply in_map_iff in Hx as (c & <- & Hc).
    assert (Hrow : In row (rows t)).
    { rewrite js_at_in in Hr by exact Hk. eapply nth_error_In, Hr. }
    specialize (Hf row Hrow). rewrite Forall_forall in Hf.
    intros Hpipe. apply in_app_or in Hpipe as [[Hpipe|[]]|Hpipe]; [discriminate|].
    apply in_app_or in Hpipe as [Hpipe|[Hpipe|[]]]; [|discriminate].
    apply (Hf c Hc Hpipe).
  - apply in_map_iff. exists []. split; [reflexivity|exact Hin].
  - exact Hks.
  - rewrite Hlen. exact Hj.
  - exact Hjk.
  - exact Hjs.
Qed.

Lemma compactTable_empty_cell_formatted_witness :
  co_cellPadding getDefaultCompactOptions = true /\
  startLine empty_cell_table = 0%Z /\
  endLine empty_cell_table = (Z.of_nat (length (rows empty_cell_table)) - 1)%Z /\
  (separatorIndex empty_cell_table < Z.of_nat (length (rows empty_cell_table)))%Z /\
  Forall (Forall no_pipe) (rows empty_cell_table) /\
  2%Z <> separatorIndex empty_cell_table /\
  js_at (rows empty_cell_table) 2 = Some [lit "xxxxxx"; []] /\ In [] [lit "xxxxxx"; []] /\
  (0 <= 3 < Z.of_nat (length (rows empty_cell_table)))%Z /\ 3%Z <> 2%Z /\
  3%Z <> separatorIndex empty_cell_table /\
  isTableFormatted empty_cell_table (compactTable empty_cell_table getDefaultCompactOptions)
    = Returns true.
Proof.
  assert (H1 : co_cellPadding getDefaultCompactOptions = true) by reflexivity.
  assert (H2 : startLine empty_cell_table = 0%Z) by reflexivity.
  assert (H3 : endLine empty_cell_table = (Z.of_nat (length (rows empty_cell_table)) - 1)%Z)
    by reflexivity.
  assert (H3' : (separatorIndex empty_cell_table < Z.of_nat (length (rows empty_cell_table)))%Z)
    by (cbn; lia).
  assert (H4 : Forall (Forall no_pipe) (rows empty_cell_table)).
  { repeat constructor; unfold no_pipe; vm_compute; intuition discriminate. }
  assert (H5 : 2%Z <> separatorIndex empty_cell_table) by discriminate.
  assert (H6 : js_at (rows empty_cell_table) 2 = Some [lit "xxxxxx"; []]) by reflexivity.
  assert (H7 : In [] [lit "xxxxxx"; []]) by (right; left; reflexivity).
  assert (H8 : (0 <= 3 < Z.of_nat (length (rows empty_cell_table)))%Z) by (cbn; lia).
  assert (H9 : 3%Z <> 2%Z) by discriminate.
  assert (H10 : 3%Z <> separatorIndex empty_cell_table) by discriminate.
  repeat (split; [assumption|]).
  apply (compactTable_empty_cell_formatted _ _ _ _ _ H1 H2 H3 H3' H4 H5 H6 H7 H8 H9 H10).
Defined.
